(** * Edge-property legality check of the GPS backend

    A shallow embedding of [gm_gps_new_check_edge_value.cc]: the access
    state machine [manage_edge_prop_access_state], the visitor
    [gps_check_edge_value_t] with its four callbacks, and the driver
    [gm_gps_opt_check_edge_value::process].

    Pointers are addresses ([ptr]); a nullable pointer is an [option ptr].
    Annotations attached to nodes and symbols live in one [info_store]
    that is threaded through every call, together with the visitor's own
    fields and the list of diagnostics handed to [gm_backend_error]. *)

From Stdlib Require Import ZArith.
From stdpp Require Import gmap strings list.

Local Open Scope Z_scope.

(** ** Addresses, annotation keys, enumerations *)

Abbreviation ptr := nat.

(** The annotation keys this file reads or writes. *)
Inductive info_key : Set :=
  | GPS_FLAG_IS_INNER_LOOP
  | GPS_FLAG_EDGE_DEFINED_INNER
  | GPS_FLAG_EDGE_DEFINING_INNER
  | GPS_FLAG_EDGE_DEFINING_WRITE
  | GPS_INT_EXPR_SCOPE
  | GPS_MAP_EDGE_PROP_ACCESS
  | GPS_LIST_EDGE_PROP_WRITE.

#[global] Instance info_key_eq_dec : EqDecision info_key.
Proof. solve_decision. Defined.

Definition info_key_code (k : info_key) : nat :=
  match k with
  | GPS_FLAG_IS_INNER_LOOP => 0
  | GPS_FLAG_EDGE_DEFINED_INNER => 1
  | GPS_FLAG_EDGE_DEFINING_INNER => 2
  | GPS_FLAG_EDGE_DEFINING_WRITE => 3
  | GPS_INT_EXPR_SCOPE => 4
  | GPS_MAP_EDGE_PROP_ACCESS => 5
  | GPS_LIST_EDGE_PROP_WRITE => 6
  end%nat.

Definition info_key_of_code (n : nat) : info_key :=
  match n with
  | 0 => GPS_FLAG_IS_INNER_LOOP
  | 1 => GPS_FLAG_EDGE_DEFINED_INNER
  | 2 => GPS_FLAG_EDGE_DEFINING_INNER
  | 3 => GPS_FLAG_EDGE_DEFINING_WRITE
  | 4 => GPS_INT_EXPR_SCOPE
  | 5 => GPS_MAP_EDGE_PROP_ACCESS
  | _ => GPS_LIST_EDGE_PROP_WRITE
  end%nat.

#[global] Instance info_key_countable : Countable info_key.
Proof.
  apply (inj_countable' info_key_code info_key_of_code).
  intros []; reflexivity.
Defined.

(** The five values of the [GPS_ENUM_EDGE_VALUE_xxx] enumeration.  The map
    under [GPS_MAP_EDGE_PROP_ACCESS] holds one of them per symbol, so the
    [default: assert(false)] arm of the switch has no counterpart here. *)
Inductive edge_value : Set :=
  | GPS_ENUM_EDGE_VALUE_WRITE
  | GPS_ENUM_EDGE_VALUE_SENT
  | GPS_ENUM_EDGE_VALUE_WRITE_SENT
  | GPS_ENUM_EDGE_VALUE_SENT_WRITE
  | GPS_ENUM_EDGE_VALUE_ERROR.

#[global] Instance edge_value_eq_dec : EqDecision edge_value.
Proof. solve_decision. Defined.

Definition SENDING : Z := 1.
Definition WRITING : Z := 2.

(** ** Outcome of a call

    [Abort] stands for a failed [assert] or a dereferenced null pointer;
    [OutOfFuel] only arises from the bounded model of the parent walk. *)
Inductive outcome (A : Type) : Type :=
  | Done (a : A)
  | Abort
  | OutOfFuel.
Arguments Done {A} a.
Arguments Abort {A}.
Arguments OutOfFuel {A}.

#[global] Instance outcome_ret : MRet outcome := fun A a => Done a.

#[global] Instance outcome_bind : MBind outcome := fun A B k m =>
  match m with
  | Done a => k a
  | Abort => Abort
  | OutOfFuel => OutOfFuel
  end.

(** ** Annotation store *)

Record info_store : Type := mk_info_store {
  info_bool : gmap (ptr * info_key) bool;
  info_map : gmap (ptr * info_key * ptr) edge_value;
  info_list : gmap (ptr * info_key) (list ptr)
}.

Definition empty_store : info_store := mk_info_store ∅ ∅ ∅.

(** Modelled from the spec: the annotation store accessors of [ast_node]
    and [gm_symtab_entry] ([find_info_bool], [add_info_bool],
    [find_info_map_value], [add_info_map_key_value],
    [add_info_list_element]) are declared outside this file.  A flag that
    was never set reads as [false]; a map is created on its first write; a
    list keeps insertion order and duplicates. *)
Definition find_info_bool (owner : ptr) (k : info_key) (st : info_store) : bool :=
  default false (info_bool st !! (owner, k)).

Definition add_info_bool (owner : ptr) (k : info_key) (b : bool)
    (st : info_store) : info_store :=
  mk_info_store (<[(owner, k) := b]> (info_bool st)) (info_map st) (info_list st).

Definition find_info_map_value (owner : ptr) (k : info_key) (e : ptr)
    (st : info_store) : option edge_value :=
  info_map st !! (owner, k, e).

Definition add_info_map_key_value (owner : ptr) (k : info_key) (e : ptr)
    (v : edge_value) (st : info_store) : info_store :=
  mk_info_store (info_bool st) (<[(owner, k, e) := v]> (info_map st)) (info_list st).

Definition find_info_list (owner : ptr) (k : info_key) (st : info_store) : list ptr :=
  default [] (info_list st !! (owner, k)).

Definition add_info_list_element (owner : ptr) (k : info_key) (s : ptr)
    (st : info_store) : info_store :=
  mk_info_store (info_bool st) (info_map st)
    (<[(owner, k) := find_info_list owner k st ++ [s]]> (info_list st)).

(** ** The access state machine *)

(** [*curr_state = v]: the entry found by [find_info_map_value] is
    overwritten in place. *)
Definition set_curr_state (fe e : ptr) (v : edge_value) (st : info_store) : info_store :=
  add_info_map_key_value fe GPS_MAP_EDGE_PROP_ACCESS e v st.

(** [manage_edge_prop_access_state(fe, e, op)]; the result is [is_error]. *)
Definition manage_edge_prop_access_state (fe : option ptr) (e : ptr) (op : Z)
    (st : info_store) : outcome (bool * info_store) :=
  if negb ((op =? SENDING) || (op =? WRITING)) then Abort else
  match fe with
  | None => Abort
  | Some fe =>
    match find_info_map_value fe GPS_MAP_EDGE_PROP_ACCESS e st with
    | None =>
        let new_state :=
          if op =? SENDING then GPS_ENUM_EDGE_VALUE_SENT else GPS_ENUM_EDGE_VALUE_WRITE in
        Done (false, add_info_map_key_value fe GPS_MAP_EDGE_PROP_ACCESS e new_state st)
    | Some curr_state_val =>
        match curr_state_val with
        | GPS_ENUM_EDGE_VALUE_ERROR => Done (false, st)
        | GPS_ENUM_EDGE_VALUE_WRITE =>
            Done (false,
                  if op =? SENDING
                  then set_curr_state fe e GPS_ENUM_EDGE_VALUE_WRITE_SENT st else st)
        | GPS_ENUM_EDGE_VALUE_SENT =>
            Done (false,
                  if op =? WRITING
                  then set_curr_state fe e GPS_ENUM_EDGE_VALUE_SENT_WRITE st else st)
        | GPS_ENUM_EDGE_VALUE_WRITE_SENT =>
            Done (false,
                  if op =? WRITING
                  then set_curr_state fe e GPS_ENUM_EDGE_VALUE_SENT_WRITE st else st)
        | GPS_ENUM_EDGE_VALUE_SENT_WRITE =>
            if op =? SENDING
            then Done (true, set_curr_state fe e GPS_ENUM_EDGE_VALUE_ERROR st)
            else Done (false, st)
        end
    end
  end.

(** *** The transition table as the specification words it *)

Inductive event : Set := send | write.

Definition op_of_event (ev : event) : Z :=
  match ev with send => SENDING | write => WRITING end.

(** Rule 6 of the version-transport check, row by row. *)
Definition table_transition (s : option edge_value) (ev : event) : edge_value :=
  match s, ev with
  | None, send => GPS_ENUM_EDGE_VALUE_SENT
  | None, write => GPS_ENUM_EDGE_VALUE_WRITE
  | Some GPS_ENUM_EDGE_VALUE_WRITE, send => GPS_ENUM_EDGE_VALUE_WRITE_SENT
  | Some GPS_ENUM_EDGE_VALUE_WRITE, write => GPS_ENUM_EDGE_VALUE_WRITE
  | Some GPS_ENUM_EDGE_VALUE_SENT, write => GPS_ENUM_EDGE_VALUE_SENT_WRITE
  | Some GPS_ENUM_EDGE_VALUE_SENT, send => GPS_ENUM_EDGE_VALUE_SENT
  | Some GPS_ENUM_EDGE_VALUE_WRITE_SENT, write => GPS_ENUM_EDGE_VALUE_SENT_WRITE
  | Some GPS_ENUM_EDGE_VALUE_WRITE_SENT, send => GPS_ENUM_EDGE_VALUE_WRITE_SENT
  | Some GPS_ENUM_EDGE_VALUE_SENT_WRITE, write => GPS_ENUM_EDGE_VALUE_SENT_WRITE
  | Some GPS_ENUM_EDGE_VALUE_SENT_WRITE, send => GPS_ENUM_EDGE_VALUE_ERROR
  | Some GPS_ENUM_EDGE_VALUE_ERROR, _ => GPS_ENUM_EDGE_VALUE_ERROR
  end.

Definition table_fold (s0 : option edge_value) (evs : list event) : option edge_value :=
  fold_left (fun s ev => Some (table_transition s ev)) evs s0.

(** An observed access: the inner loop, the property symbol, the event. *)
Record access : Set := mk_access {
  acc_loop : ptr;
  acc_sym : ptr;
  acc_event : event
}.

(** The events of a trace that concern the pair [(fe, e)], in order. *)
Definition events_of (fe e : ptr) (tr : list access) : list event :=
  acc_event <$> filter (fun a => acc_loop a = fe ∧ acc_sym a = e) tr.

(** Feeding a trace of accesses to the state machine, one call each. *)
Fixpoint manage_trace (tr : list access) (st : info_store) : outcome info_store :=
  match tr with
  | [] => Done st
  | a :: tr' =>
      r ← manage_edge_prop_access_state
             (Some (acc_loop a)) (acc_sym a) (op_of_event (acc_event a)) st;
      manage_trace tr' r.2
  end.

(** ** Syntax tree as the visitor sees it *)

(** Modelled from the spec: the type predicates [is_edge] and
    [is_edge_compatible] of [ast_typedecl] are declared outside this file;
    a type is represented by the answers it gives to the two of them. *)
Record ast_typedecl : Set := mk_type {
  is_edge : bool;
  is_edge_compatible : bool
}.

Record gm_symtab_entry : Set := mk_symtab_entry {
  sym_addr : ptr;
  getType : ast_typedecl
}.

Record ast_id : Set := mk_id {
  getSymInfo : gm_symtab_entry;
  get_orgname : string;
  id_line : Z;
  id_col : Z
}.

Record ast_field : Set := mk_field {
  get_first : ast_id;
  get_second : ast_id;
  getSourceTypeInfo : ast_typedecl;
  field_line : Z;
  field_col : Z
}.

(** What [is_field], [is_id] and [is_builtin] tell apart. *)
Inductive ast_expr_class : Set :=
  | EXPR_FIELD (f : ast_field)
  | EXPR_ID (i : ast_id)
  | EXPR_BUILTIN (driver : ast_id) (method_id : Z)
  | EXPR_OTHER.

Record ast_expr : Set := mk_expr {
  expr_addr : ptr;
  expr_class : ast_expr_class
}.

(** [is_target_scalar] with [get_lhs_scala], or [get_lhs_field]. *)
Inductive ast_assign_lhs : Set :=
  | LHS_SCALA (i : ast_id)
  | LHS_FIELD (f : ast_field).

Record ast_assign : Set := mk_assign {
  assign_lhs : ast_assign_lhs;
  get_rhs : ast_expr
}.

Inductive nodetype : Set :=
  | AST_FOREACH
  | AST_ASSIGN
  | AST_WHILE
  | AST_IF
  | AST_OTHER (tag : nat).

#[global] Instance nodetype_eq_dec : EqDecision nodetype.
Proof. solve_decision. Defined.

Inductive ast_sent_class : Set :=
  | SENT_FOREACH (get_iterator : ast_id)
  | SENT_ASSIGN (a : ast_assign)
  | SENT_WHILE
  | SENT_IF
  | SENT_OTHER (tag : nat).

Record ast_sent : Set := mk_sent {
  sent_addr : ptr;
  get_parent : option ptr;
  sent_class : ast_sent_class
}.

Definition get_nodetype (s : ast_sent) : nodetype :=
  match sent_class s with
  | SENT_FOREACH _ => AST_FOREACH
  | SENT_ASSIGN _ => AST_ASSIGN
  | SENT_WHILE => AST_WHILE
  | SENT_IF => AST_IF
  | SENT_OTHER tag => AST_OTHER tag
  end.

(** ** Diagnostics *)

Inductive gm_error_code : Set :=
  | GM_ERROR_GPS_EDGE_WRITE_CONDITIONAL
  | GM_ERROR_GPS_EDGE_WRITE_RHS
  | GM_ERROR_GPS_EDGE_READ_RANDOM
  | GM_ERROR_GPS_EDGE_SEND_VERSIONS.

#[global] Instance gm_error_code_eq_dec : EqDecision gm_error_code.
Proof. solve_decision. Defined.

(** One call of [gm_backend_error]: code, line, column, optional name. *)
Record report : Set := mk_report {
  rep_code : gm_error_code;
  rep_line : Z;
  rep_col : Z;
  rep_name : option string
}.

#[global] Instance report_eq_dec : EqDecision report.
Proof. solve_decision. Defined.

(** ** The visitor [gps_check_edge_value_t]

    Its four fields, the annotation store it reads and writes, and the
    diagnostics it has emitted so far, oldest first. *)
Record state : Type := mk_state {
  inner_iter : option ptr;
  inner_loop : option ptr;
  target_is_edge_prop : bool;
  _error : bool;
  info : info_store;
  reported : list report
}.

(** State after the constructor, over the annotations of earlier passes. *)
Definition init_state (annotations : info_store) : state :=
  mk_state None None false false annotations [].

Definition is_error (st : state) : bool := _error st.

Definition set_error (b : bool) (st : state) : state :=
  mk_state (inner_iter st) (inner_loop st) (target_is_edge_prop st) b
           (info st) (reported st).

Definition set_info (i : info_store) (st : state) : state :=
  mk_state (inner_iter st) (inner_loop st) (target_is_edge_prop st) (_error st)
           i (reported st).

Definition set_target_is_edge_prop (b : bool) (st : state) : state :=
  mk_state (inner_iter st) (inner_loop st) b (_error st) (info st) (reported st).

Definition set_inner (iter loop : option ptr) (st : state) : state :=
  mk_state iter loop (target_is_edge_prop st) (_error st) (info st) (reported st).

Definition gm_backend_error (code : gm_error_code) (line col : Z)
    (name : option string) (st : state) : state :=
  mk_state (inner_iter st) (inner_loop st) (target_is_edge_prop st) (_error st)
           (info st) (reported st ++ [mk_report code line col name]).

(** The kinds that make a write conditional. *)
Definition is_conditional_kind (t : nodetype) : bool :=
  bool_decide (t = AST_WHILE) || bool_decide (t = AST_IF) || bool_decide (t = AST_FOREACH).

(** The [while (true)] loop of the assignment case: [parent] climbs the
    parent links of the statements in [ast] until it meets [inner_loop]
    (result [false]) or a while, if or foreach (result [true]).  Reading
    through a null or unknown [parent], and the failed
    [assert(parent != NULL)], are [Abort]. *)
Fixpoint check_conditional (fuel : nat) (ast : gmap ptr ast_sent)
    (inner_loop : option ptr) (parent : option ptr) : outcome bool :=
  match fuel with
  | O => OutOfFuel
  | S fuel' =>
      if decide (parent = inner_loop) then Done false
      else
        match parent with
        | None => Abort
        | Some p =>
            match ast !! p with
            | None => Abort
            | Some node =>
                if is_conditional_kind (get_nodetype node) then Done true
                else
                  match get_parent node with
                  | None => Abort
                  | Some p' => check_conditional fuel' ast inner_loop (Some p')
                  end
            end
        end
  end.

(** Modelled from the spec: the tree the traversal engine walks.  A
    statement owns, in source order, the symbols declared in its scope,
    its expressions and its nested statements; an expression owns its
    sub-expressions. *)
#[warnings="-register-all"]
Inductive ast_node : Set :=
  | NodeSymtab (e : gm_symtab_entry) (type : Z)
  | NodeExpr (e : ast_expr) (subs : list ast_node)
  | NodeSent (s : ast_sent) (children : list ast_node).

(** The callbacks a complete walk of a tree makes, in order. *)
Inductive visit : Set :=
  | VisitSymtab (e : gm_symtab_entry) (type : Z)
  | VisitSent (s : ast_sent)
  | VisitExpr (e : ast_expr)
  | VisitSent2 (s : ast_sent).

Fixpoint visits (n : ast_node) : list visit :=
  match n with
  | NodeSymtab e type => [VisitSymtab e type]
  | NodeExpr e subs => VisitExpr e :: flat_map visits subs
  | NodeSent s children => VisitSent s :: flat_map visits children ++ [VisitSent2 s]
  end.

(** The statements of a tree, and the table that resolves parent links. *)
Fixpoint sents_of (n : ast_node) : list ast_sent :=
  match n with
  | NodeSymtab _ _ => []
  | NodeExpr _ subs => flat_map sents_of subs
  | NodeSent s children => s :: flat_map sents_of children
  end.

Definition ast_of (n : ast_node) : gmap ptr ast_sent :=
  list_to_map ((fun s => (sent_addr s, s)) <$> sents_of n).

(** ** Sample procedures

    The procedure of the header comment of the source file,

      Foreach(n: G.Nodes) {
        Foreach(s: n.Nbrs) {
          Edge(g) e = s.toEdge();
          e.A = n.Y;
          s.Z += e.A + e.B;
          e.B = n.Y+1;
          e.A = 0;
          s.Z += e.B;
        } }

    and variants of its inner body.  Statements have addresses below 100,
    symbols from 100 on, expressions from 200 on; a line of the listing is
    the line of the nodes on it. *)

Definition node_type : ast_typedecl := mk_type false false.
Definition edge_type : ast_typedecl := mk_type true true.
Definition prop_type : ast_typedecl := mk_type false false.

Definition sym_n : gm_symtab_entry := mk_symtab_entry 101 node_type.
Definition sym_s : gm_symtab_entry := mk_symtab_entry 102 node_type.
Definition sym_e : gm_symtab_entry := mk_symtab_entry 103 edge_type.
Definition sym_A : gm_symtab_entry := mk_symtab_entry 104 prop_type.
Definition sym_B : gm_symtab_entry := mk_symtab_entry 105 prop_type.
Definition sym_Y : gm_symtab_entry := mk_symtab_entry 106 prop_type.
Definition sym_Z : gm_symtab_entry := mk_symtab_entry 107 prop_type.
Definition sym_C : gm_symtab_entry := mk_symtab_entry 108 prop_type.
Definition sym_f : gm_symtab_entry := mk_symtab_entry 109 edge_type.

Definition id_n (line col : Z) : ast_id := mk_id sym_n "n" line col.
Definition id_s (line col : Z) : ast_id := mk_id sym_s "s" line col.
Definition id_e (line col : Z) : ast_id := mk_id sym_e "e" line col.
Definition id_f (line col : Z) : ast_id := mk_id sym_f "f" line col.

(** [base.member] at a position; the source type is the type of the base. *)
Definition field (base : Z → Z → ast_id) (member : gm_symtab_entry) (name : string)
    (line col : Z) : ast_field :=
  mk_field (base line col) (mk_id member name line (col + 2))
    (getType (getSymInfo (base line col))) line col.

(** The method id that stands for the iterator-to-edge builtin in the
    samples, and the two scope classes as the fourth and the fifth member
    of an enumeration that counts from 0 (global, out, edge, in, random). *)
Definition sample_to_edge : Z := 7.
Definition sample_scope_in : Z := 3.
Definition sample_scope_random : Z := 4.

Definition proc_body : ast_sent := mk_sent 10 None (SENT_OTHER 0).
Definition loop_n : ast_sent := mk_sent 1 (Some 10%nat) (SENT_FOREACH (id_n 1 9)).
Definition loop_s : ast_sent := mk_sent 2 (Some 1%nat) (SENT_FOREACH (id_s 2 11)).
Definition body : ast_sent := mk_sent 3 (Some 2%nat) (SENT_OTHER 0).

(** [Edge(g) e = s.toEdge();] *)
Definition rhs_to_edge : ast_expr := mk_expr 201 (EXPR_BUILTIN (id_s 3 23) sample_to_edge).
Definition bind_e : ast_sent :=
  mk_sent 4 (Some 3%nat) (SENT_ASSIGN (mk_assign (LHS_SCALA (id_e 3 19)) rhs_to_edge)).

(** [e.A = n.Y;] *)
Definition read_nY : ast_expr := mk_expr 202 (EXPR_FIELD (field id_n sym_Y "Y" 4 19)).
Definition write_A : ast_sent :=
  mk_sent 5 (Some 3%nat)
    (SENT_ASSIGN (mk_assign (LHS_FIELD (field id_e sym_A "A" 4 13)) read_nY)).

(** [s.Z += e.A + e.B;] *)
Definition read_eA : ast_expr := mk_expr 204 (EXPR_FIELD (field id_e sym_A "A" 5 20)).
Definition read_eB : ast_expr := mk_expr 205 (EXPR_FIELD (field id_e sym_B "B" 5 26)).
Definition sum_AB : ast_expr := mk_expr 203 EXPR_OTHER.
Definition send_AB : ast_sent :=
  mk_sent 6 (Some 3%nat)
    (SENT_ASSIGN (mk_assign (LHS_FIELD (field id_s sym_Z "Z" 5 13)) sum_AB)).

(** [e.B = n.Y+1;] *)
Definition read_nY' : ast_expr := mk_expr 207 (EXPR_FIELD (field id_n sym_Y "Y" 6 19)).
Definition one : ast_expr := mk_expr 208 EXPR_OTHER.
Definition plus_one : ast_expr := mk_expr 206 EXPR_OTHER.
Definition write_B : ast_sent :=
  mk_sent 7 (Some 3%nat)
    (SENT_ASSIGN (mk_assign (LHS_FIELD (field id_e sym_B "B" 6 13)) plus_one)).

(** [e.A = 0;] *)
Definition zero : ast_expr := mk_expr 209 EXPR_OTHER.
Definition write_A' : ast_sent :=
  mk_sent 8 (Some 3%nat)
    (SENT_ASSIGN (mk_assign (LHS_FIELD (field id_e sym_A "A" 7 13)) zero)).

(** [s.Z += e.B;] *)
Definition read_eB' : ast_expr := mk_expr 210 (EXPR_FIELD (field id_e sym_B "B" 8 20)).
Definition send_B : ast_sent :=
  mk_sent 9 (Some 3%nat)
    (SENT_ASSIGN (mk_assign (LHS_FIELD (field id_s sym_Z "Z" 8 13)) read_eB')).

(** The two loops around an inner body that declares [e]. *)
Definition nested (stmts : list ast_node) : ast_node :=
  NodeSent proc_body
    [NodeSent loop_n
       [NodeSymtab sym_n 0;
        NodeSent loop_s
          [NodeSymtab sym_s 0;
           NodeSent body (NodeSymtab sym_e 0 :: stmts)]]].

Definition legal_body : list ast_node :=
  [NodeSent bind_e [NodeExpr rhs_to_edge []];
   NodeSent write_A [NodeExpr read_nY []];
   NodeSent send_AB [NodeExpr sum_AB [NodeExpr read_eA []; NodeExpr read_eB []]];
   NodeSent write_B [NodeExpr plus_one [NodeExpr read_nY' []; NodeExpr one []]];
   NodeSent write_A' [NodeExpr zero []]].

(** The listing without its last line, and the whole listing. *)
Definition legal_example : ast_node := nested legal_body.
Definition header_example : ast_node :=
  nested (legal_body ++ [NodeSent send_B [NodeExpr read_eB' []]]).

(** What earlier passes leave behind: the loop over [s] is the inner loop. *)
Definition inner_flagged : info_store :=
  add_info_bool 2 GPS_FLAG_IS_INNER_LOOP true empty_store.

(** [if (s.Y > 10) e.C = 10;] inside the inner body. *)
Definition guard : ast_sent := mk_sent 11 (Some 3%nat) SENT_IF.
Definition read_sY : ast_expr := mk_expr 211 (EXPR_FIELD (field id_s sym_Y "Y" 4 17)).
Definition ten : ast_expr := mk_expr 212 EXPR_OTHER.
Definition write_C : ast_sent :=
  mk_sent 12 (Some 11%nat)
    (SENT_ASSIGN (mk_assign (LHS_FIELD (field id_e sym_C "C" 4 27)) ten)).
Definition conditional_example : ast_node :=
  nested [NodeSent bind_e [NodeExpr rhs_to_edge []];
          NodeSent guard [NodeExpr read_sY []; NodeSent write_C [NodeExpr ten []]]].

(** [e.B = s.Y;], the write the header of the source file calls an
    error: [s.Y] is scoped to the inner loop.  The scope class of an
    expression is an annotation of an earlier pass; the store of the
    samples holds what [find_info_bool] reads for it, here [true]. *)
Definition read_sY' : ast_expr := mk_expr 213 (EXPR_FIELD (field id_s sym_Y "Y" 4 19)).
Definition write_B_sY : ast_sent :=
  mk_sent 13 (Some 3%nat)
    (SENT_ASSIGN (mk_assign (LHS_FIELD (field id_e sym_B "B" 4 13)) read_sY')).
Definition rhs_example : ast_node :=
  nested [NodeSent bind_e [NodeExpr rhs_to_edge []];
          NodeSent write_B_sY [NodeExpr read_sY' []]].
Definition inner_flagged_scoped : info_store :=
  add_info_bool 213 GPS_INT_EXPR_SCOPE true inner_flagged.

(** [Int x = f.A;] where the edge [f] is declared outside the loops. *)
Definition read_fA : ast_expr := mk_expr 214 (EXPR_FIELD (field id_f sym_A "A" 4 21)).
Definition sym_x : gm_symtab_entry := mk_symtab_entry 110 prop_type.
Definition bind_x : ast_sent :=
  mk_sent 14 (Some 3%nat)
    (SENT_ASSIGN (mk_assign (LHS_SCALA (mk_id sym_x "x" 4 17)) read_fA)).
Definition random_read_example : ast_node :=
  NodeSent proc_body
    [NodeSymtab sym_f 0;
     NodeSent loop_n
       [NodeSymtab sym_n 0;
        NodeSent loop_s
          [NodeSymtab sym_s 0;
           NodeSent body [NodeSymtab sym_x 0; NodeSent bind_x [NodeExpr read_fA []]]]]].

(** [Edge e; e = f;] inside the inner loop: [e] is declared there but
    bound to another edge variable. *)
Definition copy_f : ast_expr := mk_expr 215 (EXPR_ID (id_f 3 19)).
Definition bind_e_to_f : ast_sent :=
  mk_sent 15 (Some 3%nat) (SENT_ASSIGN (mk_assign (LHS_SCALA (id_e 3 15)) copy_f)).
Definition declared_inside_example : ast_node :=
  NodeSent proc_body
    [NodeSymtab sym_f 0;
     NodeSent loop_n
       [NodeSymtab sym_n 0;
        NodeSent loop_s
          [NodeSymtab sym_s 0;
           NodeSent body [NodeSymtab sym_e 0; NodeSent bind_e_to_f [NodeExpr copy_f []]]]]].

(** [Edge e;] at the top of the procedure, [e = s.toEdge();] inside the
    inner loop. *)
Definition declared_outside_example : ast_node :=
  NodeSent proc_body
    [NodeSymtab sym_e 0;
     NodeSent loop_n
       [NodeSymtab sym_n 0;
        NodeSent loop_s
          [NodeSymtab sym_s 0;
           NodeSent body [NodeSent bind_e [NodeExpr rhs_to_edge []]]]]].

(** States of the visitor inside the inner loop of the samples: [e]
    carries the defined-in-inner-loop mark; then with [B] sent and
    written; then inside the right-hand side of [e.B = s.Y]. *)
Definition marked : info_store :=
  add_info_bool 103 GPS_FLAG_EDGE_DEFINED_INNER true inner_flagged.

Definition in_inner_loop : state :=
  mk_state (Some 102%nat) (Some 2%nat) false false marked [].

Definition before_second_send : state :=
  mk_state (Some 102%nat) (Some 2%nat) false false
    (set_curr_state 2 105 GPS_ENUM_EDGE_VALUE_SENT_WRITE marked) [].

Definition in_write_rhs : state :=
  mk_state (Some 102%nat) (Some 2%nat) true false
    (add_info_bool 213 GPS_INT_EXPR_SCOPE true marked) [].

#[global] Instance event_eq_dec : EqDecision event.
Proof. solve_decision. Defined.


(** The result of a computation under a function, failures kept. *)
Definition outcome_map {A B : Type} (f : A → B) (o : outcome A) : outcome B :=
  match o with
  | Done a => Done (f a)
  | Abort => Abort
  | OutOfFuel => OutOfFuel
  end.

(** The visitor with another inner iterator, and with none. *)
Definition set_inner_iter (it : option ptr) (st : state) : state :=
  set_inner it (inner_loop st) st.

Definition forget_inner_iter (st : state) : state := set_inner_iter None st.

(** The loop over [s] with the binding of [e], met while the loop over
    [n] is current, both loops carrying the inner-loop flag. *)
Definition both_flagged : info_store :=
  add_info_bool 1 GPS_FLAG_IS_INNER_LOOP true inner_flagged.

Definition loop_s_tree : ast_node :=
  NodeSent loop_s
    [NodeSymtab sym_s 0;
     NodeSent body [NodeSymtab sym_e 0; NodeSent bind_e [NodeExpr rhs_to_edge []]]].

Definition in_outer_loop : state :=
  mk_state (Some 101%nat) (Some 1%nat) false false both_flagged [].

(** The accesses of the header listing, as the state machine sees them. *)
Definition header_accesses : list access :=
  [mk_access 2 104 write; mk_access 2 104 send; mk_access 2 105 send;
   mk_access 2 105 write; mk_access 2 104 write; mk_access 2 105 send].

Section Visitor.

(** Constants of headers that are not part of this file: the two scope
    classes the right-hand-side check looks for, and the method id of the
    iterator-to-edge builtin. *)
Variable GPS_NEW_SCOPE_IN : Z.
Variable GPS_NEW_SCOPE_RANDOM : Z.
Variable GM_BLTIN_NODE_TO_EDGE : Z.

(** [apply(gm_symtab_entry* e, int type)] *)
Definition apply_symtab (e : gm_symtab_entry) (type : Z) (st : state)
    : outcome (bool * state) :=
  match is_edge (getType e), inner_loop st with
  | true, Some loop =>
      Done (true,
            set_info (add_info_bool loop GPS_FLAG_EDGE_DEFINING_INNER true
                        (add_info_bool (sym_addr e) GPS_FLAG_EDGE_DEFINED_INNER true
                           (info st))) st)
  | _, _ => Done (true, st)
  end.

(** [apply(ast_sent* s)], the pre-order statement callback. *)
Definition apply_sent (fuel : nat) (ast : gmap ptr ast_sent) (s : ast_sent)
    (st : state) : outcome (bool * state) :=
  match sent_class s with
  | SENT_FOREACH it =>
      if find_info_bool (sent_addr s) GPS_FLAG_IS_INNER_LOOP (info st)
      then Done (true, set_inner (Some (sym_addr (getSymInfo it))) (Some (sent_addr s)) st)
      else Done (true, st)
  | SENT_ASSIGN a =>
      match assign_lhs a with
      | LHS_FIELD lhs =>
          let sym := getSymInfo (get_first lhs) in
          if is_edge_compatible (getType sym) then
            if find_info_bool (sym_addr sym) GPS_FLAG_EDGE_DEFINED_INNER (info st) then
              conditional ← check_conditional fuel ast (inner_loop st) (get_parent s);
              let st1 :=
                if (conditional : bool)
                then set_error true
                       (gm_backend_error GM_ERROR_GPS_EDGE_WRITE_CONDITIONAL
                          (field_line lhs) (field_col lhs) None st)
                else st in
              let st2 := set_target_is_edge_prop true st1 in
              match inner_loop st2 with
              | None => Abort
              | Some loop =>
                  let st3 :=
                    set_info (add_info_list_element loop GPS_LIST_EDGE_PROP_WRITE
                                (sent_addr s) (info st2)) st2 in
                  let target := getSymInfo (get_second lhs) in
                  r ← manage_edge_prop_access_state
                         (inner_loop st3) (sym_addr target) WRITING (info st3);
                  if (r.1 : bool) then Abort
                  else Done (true, set_info r.2 st3)
              end
            else Done (true, st)
          else Done (true, st)
      | LHS_SCALA lhs =>
          let sym := getSymInfo lhs in
          if is_edge (getType sym) then
            if find_info_bool (sym_addr sym) GPS_FLAG_EDGE_DEFINED_INNER (info st) then
              match expr_class (get_rhs a) with
              | EXPR_BUILTIN drv f_id =>
                  if f_id =? GM_BLTIN_NODE_TO_EDGE
                  then Done (true,
                             set_info (add_info_bool (sent_addr s)
                                         GPS_FLAG_EDGE_DEFINING_WRITE true (info st)) st)
                  else Done (true, st)
              | _ => Done (true, st)
              end
            else Done (true, st)
          else Done (true, st)
      end
  | _ => Done (true, st)
  end.

(** The test on [GPS_INT_EXPR_SCOPE] as the source writes it: the
    annotation is fetched with [find_info_bool] and the boolean is
    compared, as an integer, with the two scope constants. *)
Definition scope_is_inner_or_random (e : ast_expr) (st : state) : bool :=
  (Z.b2z (find_info_bool (expr_addr e) GPS_INT_EXPR_SCOPE (info st)) =? GPS_NEW_SCOPE_IN)
  || (Z.b2z (find_info_bool (expr_addr e) GPS_INT_EXPR_SCOPE (info st)) =? GPS_NEW_SCOPE_RANDOM).

(** First half of [apply(ast_expr* e)]: the check of (case 2). *)
Definition check_write_rhs (e : ast_expr) (st : state) : state :=
  if target_is_edge_prop st then
    if scope_is_inner_or_random e st then
      match expr_class e with
      | EXPR_FIELD f =>
          set_error true
            (gm_backend_error GM_ERROR_GPS_EDGE_WRITE_RHS (field_line f) (field_col f)
               (Some (get_orgname (get_first f))) st)
      | EXPR_ID f =>
          set_error true
            (gm_backend_error GM_ERROR_GPS_EDGE_WRITE_RHS (id_line f) (id_col f)
               (Some (get_orgname f)) st)
      | _ => st
      end
    else st
  else st.

(** [apply(ast_expr* e)] *)
Definition apply_expr (e : ast_expr) (st : state) : outcome (bool * state) :=
  let st1 := check_write_rhs e st in
  match expr_class e with
  | EXPR_FIELD f =>
      if is_edge_compatible (getSourceTypeInfo f) then
        if negb (find_info_bool (sym_addr (getSymInfo (get_first f)))
                   GPS_FLAG_EDGE_DEFINED_INNER (info st1))
        then Done (true,
                   set_error true
                     (gm_backend_error GM_ERROR_GPS_EDGE_READ_RANDOM
                        (field_line f) (field_col f) None st1))
        else
          r ← manage_edge_prop_access_state
                 (inner_loop st1) (sym_addr (getSymInfo (get_second f))) SENDING (info st1);
          let st2 := set_info r.2 st1 in
          if (r.1 : bool)
          then Done (true,
                     set_error true
                       (gm_backend_error GM_ERROR_GPS_EDGE_SEND_VERSIONS
                          (field_line f) (field_col f)
                          (Some (get_orgname (get_first f))) st2))
          else Done (true, st2)
      else Done (true, st1)
  | _ => Done (true, st1)
  end.

(** [apply2(ast_sent* s)], the post-order statement callback. *)
Definition apply2 (s : ast_sent) (st : state) : outcome (bool * state) :=
  match sent_class s with
  | SENT_FOREACH _ =>
      if decide (Some (sent_addr s) = inner_loop st)
      then Done (true, set_inner None None st)
      else Done (true, st)
  | SENT_ASSIGN _ => Done (true, set_target_is_edge_prop false st)
  | _ => Done (true, st)
  end.

(** ** Callback invocations *)

Definition step (fuel : nat) (ast : gmap ptr ast_sent) (v : visit) (st : state)
    : outcome (bool * state) :=
  match v with
  | VisitSymtab e type => apply_symtab e type st
  | VisitSent s => apply_sent fuel ast s st
  | VisitExpr e => apply_expr e st
  | VisitSent2 s => apply2 s st
  end.

(** The callbacks of a sequence of visits, one after the other. *)
Fixpoint run (fuel : nat) (ast : gmap ptr ast_sent) (vs : list visit) (st : state)
    : outcome state :=
  match vs with
  | [] => Done st
  | v :: vs' => r ← step fuel ast v st; run fuel ast vs' r.2
  end.

(** ** The traversal and the driver *)

(** Modelled from the spec: the traversal engine ([gm_apply] and
    [traverse_both]) is not part of this file.  One depth-first walk in
    source order: the symbol callback at each declaration point, the
    statement and expression callbacks before the children, [apply2] after
    the children of a statement.  A callback that answers [false] keeps the
    walk out of its node and of the siblings that follow it; the enclosing
    levels go on. *)
Fixpoint traverse (fuel : nat) (ast : gmap ptr ast_sent) (n : ast_node) (st : state)
    : outcome (bool * state) :=
  let fix traverse_list (ns : list ast_node) (st : state) : outcome state :=
    match ns with
    | [] => Done st
    | n' :: ns' =>
        r ← traverse fuel ast n' st;
        if (r.1 : bool) then traverse_list ns' r.2 else Done r.2
    end in
  match n with
  | NodeSymtab e type => apply_symtab e type st
  | NodeExpr e subs =>
      r ← apply_expr e st;
      if (r.1 : bool)
      then st' ← traverse_list subs r.2; Done (true, st')
      else Done (false, r.2)
  | NodeSent s children =>
      r ← apply_sent fuel ast s st;
      if (r.1 : bool)
      then st' ← traverse_list children r.2; apply2 s st'
      else Done (false, r.2)
  end.

(** The walk over the children of a node, as [traverse] performs it. *)
Definition traverse_list (fuel : nat) (ast : gmap ptr ast_sent)
    : list ast_node → state → outcome state :=
  fix traverse_list (ns : list ast_node) (st : state) : outcome state :=
    match ns with
    | [] => Done st
    | n' :: ns' =>
        r ← traverse fuel ast n' st;
        if (r.1 : bool) then traverse_list ns' r.2 else Done r.2
    end.

Definition traverse_both (proc : ast_node) (st : state) : outcome (bool * state) :=
  traverse (S (length (sents_of proc))) (ast_of proc) proc st.

(** [gm_gps_opt_check_edge_value::process]: the value handed to
    [set_okay], and the visitor after the traversal. *)
Definition process (proc : ast_node) (annotations : info_store)
    : outcome (bool * state) :=
  r ← traverse_both proc (init_state annotations);
  Done (negb (is_error r.2), r.2).

(** ** Vocabulary of the properties *)

(** The one row of the table on which the state machine answers [true]. *)
Definition is_error_transition (s : option edge_value) (ev : event) : bool :=
  match s, ev with
  | Some GPS_ENUM_EDGE_VALUE_SENT_WRITE, send => true
  | _, _ => false
  end.

(** What a call appended to the diagnostics, and the part of it that
    carries a given code. *)
Definition added_reports (st st' : state) : list report :=
  drop (length (reported st)) (reported st').

Definition reports_of (code : gm_error_code) (rs : list report) : list report :=
  filter (fun r => rep_code r = code) rs.

(** The state of a pair (inner loop, property symbol). *)
Definition access_state (loop sym : ptr) (st : state) : option edge_value :=
  find_info_map_value loop GPS_MAP_EDGE_PROP_ACCESS sym (info st).

(** The base symbol of an access carries the defined-in-inner-loop mark. *)
Definition defined_inner (base : ast_id) (st : state) : bool :=
  find_info_bool (sym_addr (getSymInfo base)) GPS_FLAG_EDGE_DEFINED_INNER (info st).

(** An expression that reads an edge property: a field access whose
    source type is edge-compatible. *)
Definition edge_prop_read (e : ast_expr) : option ast_field :=
  match expr_class e with
  | EXPR_FIELD f => if is_edge_compatible (getSourceTypeInfo f) then Some f else None
  | _ => None
  end.

(** An assignment whose target is an edge property: a field on the left
    whose base symbol has an edge-compatible type. *)
Definition edge_prop_target (s : ast_sent) : option ast_field :=
  match sent_class s with
  | SENT_ASSIGN a =>
      match assign_lhs a with
      | LHS_FIELD lhs =>
          if is_edge_compatible (getType (getSymInfo (get_first lhs)))
          then Some lhs else None
      | LHS_SCALA _ => None
      end
  | _ => None
  end.

(** The event a visit presents to the state machine, with its pair. *)
Definition event_of (v : visit) (st : state) : option access :=
  match v, inner_loop st with
  | VisitExpr e, Some loop =>
      match edge_prop_read e with
      | Some f =>
          if defined_inner (get_first f) st
          then Some (mk_access loop (sym_addr (getSymInfo (get_second f))) send)
          else None
      | None => None
      end
  | VisitSent s, Some loop =>
      match edge_prop_target s with
      | Some lhs =>
          if defined_inner (get_first lhs) st
          then Some (mk_access loop (sym_addr (getSymInfo (get_second lhs))) write)
          else None
      | None => None
      end
  | _, _ => None
  end.

(** The accesses a run of callbacks presents to the state machine, in
    order, each read off the state in which its callback starts. *)
Fixpoint trace_of (fuel : nat) (ast : gmap ptr ast_sent) (vs : list visit) (st : state)
    : list access :=
  match vs with
  | [] => []
  | v :: vs' =>
      option_list (event_of v st) ++
      match step fuel ast v st with
      | Done r => trace_of fuel ast vs' r.2
      | _ => []
      end
  end.

(** The statements met when climbing from [parent] to the loop [loop],
    the loop excluded, nearest first. *)
Inductive parent_chain (ast : gmap ptr ast_sent) (loop : ptr)
    : option ptr → list ast_sent → Prop :=
  | parent_chain_loop : parent_chain ast loop (Some loop) []
  | parent_chain_up p node rest :
      p ≠ loop →
      ast !! p = Some node →
      parent_chain ast loop (get_parent node) rest →
      parent_chain ast loop (Some p) (node :: rest).

(** A statement of kind if, while or foreach. *)
Definition conditional_sent (s : ast_sent) : Prop :=
  get_nodetype s = AST_IF ∨ get_nodetype s = AST_WHILE ∨ get_nodetype s = AST_FOREACH.

(** The scalar assignments of a tree that bind the symbol at [sym], and
    the test for an iterator-to-edge conversion on the right-hand side. *)
Definition binds (sym : ptr) (s : ast_sent) : bool :=
  match sent_class s with
  | SENT_ASSIGN a =>
      match assign_lhs a with
      | LHS_SCALA lhs => bool_decide (sym_addr (getSymInfo lhs) = sym)
      | LHS_FIELD _ => false
      end
  | _ => false
  end.

Definition binding_sents (proc : ast_node) (sym : ptr) : list ast_sent :=
  filter (fun s => binds sym s = true) (sents_of proc).

(** The statements of a tree that lie inside a foreach carrying the
    inner-loop flag in the annotations [ann]. *)
Fixpoint inner_sents (ann : info_store) (inside : bool) (n : ast_node) : list ast_sent :=
  match n with
  | NodeSymtab _ _ => []
  | NodeExpr _ subs => flat_map (inner_sents ann inside) subs
  | NodeSent s children =>
      (if inside then [s] else []) ++
      flat_map
        (inner_sents ann
           (inside
            || (bool_decide (get_nodetype s = AST_FOREACH)
                && find_info_bool (sent_addr s) GPS_FLAG_IS_INNER_LOOP ann)))
        children
  end.

(** The symbol [e] is declared, in the run of [vs] from [st0], at a
    point where [loop] is the current inner loop. *)
Inductive declared_in_inner_loop (fuel : nat) (ast : gmap ptr ast_sent)
    (st0 : state) (vs : list visit) (e : gm_symtab_entry) (loop : ptr) : Prop :=
  | declared_at vs1 type vs2 st1 :
      vs = vs1 ++ VisitSymtab e type :: vs2 →
      run fuel ast vs1 st0 = Done st1 →
      inner_loop st1 = Some loop →
      declared_in_inner_loop fuel ast st0 vs e loop.

Definition is_to_edge_conversion (s : ast_sent) : bool :=
  match sent_class s with
  | SENT_ASSIGN a =>
      match expr_class (get_rhs a) with
      | EXPR_BUILTIN _ f_id => f_id =? GM_BLTIN_NODE_TO_EDGE
      | _ => false
      end
  | _ => false
  end.

(** The binding of the symbol at [sym] as the edge-binding rule words
    it: its one binding statement is an iterator-to-edge conversion and
    lies inside a loop marked as inner loop. *)
Definition bound_by_inner_to_edge_conversion (proc : ast_node) (ann : info_store)
    (sym : ptr) : Prop :=
  ∃ s, binding_sents proc sym = [s]
    ∧ is_to_edge_conversion s = true
    ∧ s ∈ inner_sents ann false proc.

(** ** Vocabulary of the further properties *)

(** The events a pair in state [s] still has to see, in this order and
    with anything in between, before it is in [ERROR]. *)
Definition events_to_error (s : option edge_value) : list event :=
  match s with
  | None | Some GPS_ENUM_EDGE_VALUE_WRITE => [send; write; send]
  | Some GPS_ENUM_EDGE_VALUE_SENT | Some GPS_ENUM_EDGE_VALUE_WRITE_SENT => [write; send]
  | Some GPS_ENUM_EDGE_VALUE_SENT_WRITE => [send]
  | Some GPS_ENUM_EDGE_VALUE_ERROR => []
  end.

(** The events a pair in state [s] still has to see before it has been
    sent and then written. *)
Definition events_to_sent_write (s : option edge_value) : list event :=
  match s with
  | None | Some GPS_ENUM_EDGE_VALUE_WRITE => [send; write]
  | Some GPS_ENUM_EDGE_VALUE_SENT | Some GPS_ENUM_EDGE_VALUE_WRITE_SENT => [write]
  | Some GPS_ENUM_EDGE_VALUE_SENT_WRITE | Some GPS_ENUM_EDGE_VALUE_ERROR => []
  end.

(** The pairs for which a run of callbacks meets the error row of the
    table, one entry per callback that does, in order. *)
Definition error_row_pair (v : visit) (st : state) : list (ptr * ptr) :=
  match event_of v st with
  | Some a =>
      if is_error_transition (access_state (acc_loop a) (acc_sym a) st) (acc_event a)
      then [(acc_loop a, acc_sym a)] else []
  | None => []
  end.

Fixpoint error_row_pairs (fuel : nat) (ast : gmap ptr ast_sent) (vs : list visit)
    (st : state) : list (ptr * ptr) :=
  match vs with
  | [] => []
  | v :: vs' =>
      error_row_pair v st ++
      match step fuel ast v st with
      | Done r => error_row_pairs fuel ast vs' r.2
      | _ => []
      end
  end.

(** The statement a visit appends to the list of edge-property writes,
    with the loop that owns the list; then those of a whole run. *)
Definition recorded_write (v : visit) (st : state) : list (ptr * ptr) :=
  match v, event_of v st with
  | VisitSent s, Some a => [(acc_loop a, sent_addr s)]
  | _, _ => []
  end.

Fixpoint recorded_writes (fuel : nat) (ast : gmap ptr ast_sent) (vs : list visit)
    (st : state) : list (ptr * ptr) :=
  match vs with
  | [] => []
  | v :: vs' =>
      recorded_write v st ++
      match step fuel ast v st with
      | Done r => recorded_writes fuel ast vs' r.2
      | _ => []
      end
  end.

(** A scalar assignment that binds a marked symbol of edge type by the
    iterator-to-edge builtin. *)
Definition defining_write (s : ast_sent) (st : state) : bool :=
  match sent_class s with
  | SENT_ASSIGN a =>
      match assign_lhs a with
      | LHS_SCALA lhs =>
          is_edge (getType (getSymInfo lhs)) && defined_inner lhs st
          && is_to_edge_conversion s
      | LHS_FIELD _ => false
      end
  | _ => false
  end.

(** One store has grown into another: no flag was lowered, no entry of a
    map was removed, every list was only extended, and the flags this
    pass reads but does not own are the same. *)
Definition input_key (k : info_key) : Prop :=
  k ≠ GPS_FLAG_EDGE_DEFINED_INNER ∧ k ≠ GPS_FLAG_EDGE_DEFINING_INNER
  ∧ k ≠ GPS_FLAG_EDGE_DEFINING_WRITE.

Record store_grows (i i' : info_store) : Prop := mk_store_grows {
  grows_input x k : input_key k → find_info_bool x k i' = find_info_bool x k i;
  grows_flag x k : find_info_bool x k i = true → find_info_bool x k i' = true;
  grows_map x k y : is_Some (find_info_map_value x k y i) →
                    is_Some (find_info_map_value x k y i');
  grows_map_other x k y : k ≠ GPS_MAP_EDGE_PROP_ACCESS →
                    find_info_map_value x k y i' = find_info_map_value x k y i;
  grows_list x k : find_info_list x k i `prefix_of` find_info_list x k i';
  grows_list_other x k : k ≠ GPS_LIST_EDGE_PROP_WRITE →
                    find_info_list x k i' = find_info_list x k i
}.

(** The diagnostic of a read of an edge property through an unmarked
    base, and those of a sequence of visits. *)
Definition random_read_report (v : visit) : list report :=
  match v with
  | VisitExpr e =>
      match edge_prop_read e with
      | Some f => [mk_report GM_ERROR_GPS_EDGE_READ_RANDOM (field_line f) (field_col f) None]
      | None => []
      end
  | _ => []
  end.

Definition random_read_reports (vs : list visit) : list report :=
  flat_map random_read_report vs.

(** A state in which no inner loop is current or flagged, no symbol is
    marked and no edge-property assignment is open. *)
Definition no_inner_loop (st : state) : Prop :=
  inner_loop st = None
  ∧ target_is_edge_prop st = false
  ∧ (∀ x, find_info_bool x GPS_FLAG_IS_INNER_LOOP (info st) = false)
  ∧ (∀ x, find_info_bool x GPS_FLAG_EDGE_DEFINED_INNER (info st) = false).

(** Climbing the parent links from [p]: the statements passed, nearest
    first, none of them the loop, and the link at which the climb stands. *)
Inductive climbs (ast : gmap ptr ast_sent) (loop : ptr)
    : option ptr → list ast_sent → option ptr → Prop :=
  | climbs_here p : climbs ast loop p [] p
  | climbs_up p node rest q :
      p ≠ loop →
      ast !! p = Some node →
      climbs ast loop (get_parent node) rest q →
      climbs ast loop (Some p) (node :: rest) q.

(** The two scope fields are as in [st], or both null. *)
Definition inner_kept_or_cleared (st st' : state) : Prop :=
  (inner_loop st', inner_iter st') = (inner_loop st, inner_iter st)
  ∨ (inner_loop st', inner_iter st') = (None, None).

(** The tree is a foreach that carries the inner-loop flag in [st]. *)
Definition flagged_foreach (t : ast_node) (st : state) : Prop :=
  match t with
  | NodeSent s _ =>
      get_nodetype s = AST_FOREACH
      ∧ find_info_bool (sent_addr s) GPS_FLAG_IS_INNER_LOOP (info st) = true
  | _ => False
  end.

(** The diagnostics a visit can give rise to: for an assignment to an
    edge property the conditional-write report at its target field; for
    a field or an identifier the right-hand-side report at its own
    position; for a read of an edge property also the random-read and
    the two-versions report at the position of the field. *)
Definition reports_at (v : visit) (r : report) : Prop :=
  match v with
  | VisitSent s =>
      ∃ lhs, edge_prop_target s = Some lhs
        ∧ r = mk_report GM_ERROR_GPS_EDGE_WRITE_CONDITIONAL
                (field_line lhs) (field_col lhs) None
  | VisitExpr e =>
      match expr_class e with
      | EXPR_FIELD f =>
          r = mk_report GM_ERROR_GPS_EDGE_WRITE_RHS (field_line f) (field_col f)
                (Some (get_orgname (get_first f)))
          ∨ (edge_prop_read e = Some f
             ∧ (r = mk_report GM_ERROR_GPS_EDGE_READ_RANDOM
                      (field_line f) (field_col f) None
                ∨ r = mk_report GM_ERROR_GPS_EDGE_SEND_VERSIONS
                        (field_line f) (field_col f)
                        (Some (get_orgname (get_first f)))))
      | EXPR_ID i =>
          r = mk_report GM_ERROR_GPS_EDGE_WRITE_RHS (id_line i) (id_col i)
                (Some (get_orgname i))
      | _ => False
      end
  | _ => False
  end.

(** * Properties *)

(** ** The annotation store *)

Lemma find_add_info_bool_eq owner k b st :
  find_info_bool owner k (add_info_bool owner k b st) = b.
Proof. unfold find_info_bool, add_info_bool; simpl. by rewrite lookup_insert_eq. Qed.

Lemma find_add_info_bool_ne owner k owner' k' b st :
  (owner, k) ≠ (owner', k') →
  find_info_bool owner' k' (add_info_bool owner k b st) = find_info_bool owner' k' st.
Proof.
  intros Hne. unfold find_info_bool, add_info_bool; simpl.
  by rewrite lookup_insert_ne.
Qed.

Lemma find_set_curr_state_eq fe e v st :
  find_info_map_value fe GPS_MAP_EDGE_PROP_ACCESS e (set_curr_state fe e v st) = Some v.
Proof.
  unfold find_info_map_value, set_curr_state, add_info_map_key_value; simpl.
  by rewrite lookup_insert_eq.
Qed.

Lemma find_set_curr_state_ne fe e v fe' k' e' st :
  (fe, GPS_MAP_EDGE_PROP_ACCESS, e) ≠ (fe', k', e') →
  find_info_map_value fe' k' e' (set_curr_state fe e v st) = find_info_map_value fe' k' e' st.
Proof.
  intros Hne.
  unfold find_info_map_value, set_curr_state, add_info_map_key_value; simpl.
  by rewrite lookup_insert_ne.
Qed.

(** Writing back the value that is already stored changes nothing. *)
Lemma set_curr_state_same fe e v st :
  find_info_map_value fe GPS_MAP_EDGE_PROP_ACCESS e st = Some v →
  set_curr_state fe e v st = st.
Proof.
  destruct st as [bs ms ls].
  unfold find_info_map_value, set_curr_state, add_info_map_key_value; simpl.
  intros Hv. f_equal. by apply insert_id.
Qed.

(** ** The access state machine *)

(** One call follows the table: the stored state becomes the table's
    successor and the answer is [true] on the error row only. *)
Lemma manage_edge_prop_access_state_table fe e ev st :
  manage_edge_prop_access_state (Some fe) e (op_of_event ev) st =
  Done (is_error_transition (find_info_map_value fe GPS_MAP_EDGE_PROP_ACCESS e st) ev,
        set_curr_state fe e
          (table_transition (find_info_map_value fe GPS_MAP_EDGE_PROP_ACCESS e st) ev) st).
Proof.
  unfold manage_edge_prop_access_state.
  destruct (find_info_map_value fe GPS_MAP_EDGE_PROP_ACCESS e st) as [cur|] eqn:Hcur.
  - destruct ev, cur; simpl; try reflexivity;
      by rewrite (set_curr_state_same _ _ _ _ Hcur).
  - destruct ev; reflexivity.
Qed.

(** A call on one pair leaves the state of every other pair alone. *)
Lemma manage_edge_prop_access_state_frame fe e ev st fe' e' :
  (fe, e) ≠ (fe', e') →
  ∃ b st', manage_edge_prop_access_state (Some fe) e (op_of_event ev) st = Done (b, st')
    ∧ find_info_map_value fe' GPS_MAP_EDGE_PROP_ACCESS e' st'
      = find_info_map_value fe' GPS_MAP_EDGE_PROP_ACCESS e' st.
Proof.
  intros Hne. rewrite manage_edge_prop_access_state_table.
  eexists _, _. split; [reflexivity|].
  apply find_set_curr_state_ne. congruence.
Qed.

Lemma table_fold_cons s0 ev evs :
  table_fold s0 (ev :: evs) = table_fold (Some (table_transition s0 ev)) evs.
Proof. reflexivity. Qed.

(** The state of a pair after a trace, from any state it had before. *)
Lemma manage_trace_table_fold_from fe e tr : ∀ st,
  ∃ st', manage_trace tr st = Done st'
    ∧ find_info_map_value fe GPS_MAP_EDGE_PROP_ACCESS e st'
      = table_fold (find_info_map_value fe GPS_MAP_EDGE_PROP_ACCESS e st) (events_of fe e tr).
Proof.
  induction tr as [|[fe1 e1 ev] tr IH]; intros st.
  - exists st. split; reflexivity.
  - cbn [manage_trace acc_loop acc_sym acc_event].
    rewrite manage_edge_prop_access_state_table. cbn [mbind outcome_bind snd].
    match goal with |- context [manage_trace tr ?s] => destruct (IH s) as (st' & Hrun & Hst') end.
    exists st'. split; [exact Hrun|]. rewrite Hst'.
    unfold events_of. rewrite filter_cons. cbn [acc_loop acc_sym].
    destruct (decide (fe1 = fe ∧ e1 = e)) as [[-> ->]|Hne].
    + rewrite fmap_cons, table_fold_cons. cbn [acc_event].
      by rewrite find_set_curr_state_eq.
    + rewrite find_set_curr_state_ne; [reflexivity|].
      intros Heq. apply Hne. by inversion Heq.
Qed.

(** C1. For any sequence of write and send events, the state stored
    under [GPS_MAP_EDGE_PROP_ACCESS] for a pair (inner loop, property
    symbol) that had no state before is the left fold of the transition
    table over the events of that pair, taken in order; events of other
    pairs, interleaved at will, do not matter. *)
Theorem manage_trace_table_fold fe e tr st :
  find_info_map_value fe GPS_MAP_EDGE_PROP_ACCESS e st = None →
  ∃ st', manage_trace tr st = Done st'
    ∧ find_info_map_value fe GPS_MAP_EDGE_PROP_ACCESS e st'
      = table_fold None (events_of fe e tr).
Proof.
  intros Hnone. destruct (manage_trace_table_fold_from fe e tr st) as (st' & Hrun & Hst').
  exists st'. split; [exact Hrun|]. by rewrite Hst', Hnone.
Qed.

(** ** Diagnostics appended by a call *)

Lemma added_reports_app st st' rs :
  reported st' = reported st ++ rs → added_reports st st' = rs.
Proof. unfold added_reports. intros ->. by rewrite drop_app_length. Qed.

Lemma added_reports_same st st' :
  reported st' = reported st → added_reports st st' = [].
Proof. intros H. apply added_reports_app. by rewrite app_nil_r. Qed.

Lemma manage_edge_prop_access_state_null e op st :
  manage_edge_prop_access_state None e op st = Abort.
Proof. unfold manage_edge_prop_access_state. by destruct (negb _). Qed.

(** ** The right-hand-side check leaves all but the diagnostics alone *)

Lemma check_write_rhs_info e st : info (check_write_rhs e st) = info st.
Proof.
  unfold check_write_rhs.
  destruct (target_is_edge_prop st), (scope_is_inner_or_random e st),
    (expr_class e); reflexivity.
Qed.

Lemma check_write_rhs_inner_loop e st :
  inner_loop (check_write_rhs e st) = inner_loop st.
Proof.
  unfold check_write_rhs.
  destruct (target_is_edge_prop st), (scope_is_inner_or_random e st),
    (expr_class e); reflexivity.
Qed.

Lemma check_write_rhs_inner_iter e st :
  inner_iter (check_write_rhs e st) = inner_iter st.
Proof.
  unfold check_write_rhs.
  destruct (target_is_edge_prop st), (scope_is_inner_or_random e st),
    (expr_class e); reflexivity.
Qed.

Lemma check_write_rhs_target e st :
  target_is_edge_prop (check_write_rhs e st) = target_is_edge_prop st.
Proof.
  unfold check_write_rhs.
  destruct (target_is_edge_prop st) eqn:Ht, (scope_is_inner_or_random e st),
    (expr_class e); simpl; congruence.
Qed.

(** The diagnostics of the right-hand-side check, as a list. *)
Lemma check_write_rhs_reported e st :
  ∃ rs, reported (check_write_rhs e st) = reported st ++ rs
    ∧ reports_of GM_ERROR_GPS_EDGE_WRITE_RHS rs = rs
    ∧ (target_is_edge_prop st = false → rs = [])
    ∧ (target_is_edge_prop st = true → scope_is_inner_or_random e st = true →
        (∀ f, expr_class e = EXPR_FIELD f →
           rs = [mk_report GM_ERROR_GPS_EDGE_WRITE_RHS (field_line f) (field_col f)
                   (Some (get_orgname (get_first f)))])
        ∧ (∀ i, expr_class e = EXPR_ID i →
           rs = [mk_report GM_ERROR_GPS_EDGE_WRITE_RHS (id_line i) (id_col i)
                   (Some (get_orgname i))]))
    ∧ (rs = [] → _error (check_write_rhs e st) = _error st)
    ∧ (rs ≠ [] → _error (check_write_rhs e st) = true).
Proof.
  unfold check_write_rhs.
  destruct (target_is_edge_prop st) eqn:Ht, (scope_is_inner_or_random e st) eqn:Hs,
    (expr_class e) eqn:Hc; simpl;
    first
      [ exists []; rewrite app_nil_r; repeat split; (done || congruence)
      | eexists [_]; repeat split; intros; (done || congruence) ].
Qed.

(** C10. An assignment whose target is an edge property with a base
    symbol that lacks the defined-in-inner-loop mark goes through the
    statement callback without any effect: no diagnostic, no event of the
    state machine, no entry in the list of edge-property writes, and the
    flag that arms the right-hand-side check keeps its value. *)
Theorem unmarked_edge_prop_write_is_ignored fuel ast s lhs st :
  edge_prop_target s = Some lhs →
  defined_inner (get_first lhs) st = false →
  apply_sent fuel ast s st = Done (true, st).
Proof.
  unfold edge_prop_target, defined_inner, apply_sent.
  destruct (sent_class s) as [it|a| | |tag]; try discriminate.
  destruct (assign_lhs a) as [i|f]; try discriminate.
  destruct (is_edge_compatible _) eqn:Hcompat; try discriminate.
  intros [= ->] ->. reflexivity.
Qed.

(** C4. Reading an edge property through a base symbol that lacks the
    defined-in-inner-loop mark reports [EDGE_READ_RANDOM] at the line and
    column of the field access, whatever the visitor's state (no parent
    link, loop or flag is consulted), and leaves the annotation store, so
    also the state machine, untouched. *)
Theorem random_read_is_reported e f st :
  edge_prop_read e = Some f →
  defined_inner (get_first f) st = false →
  ∃ st', apply_expr e st = Done (true, st')
    ∧ reports_of GM_ERROR_GPS_EDGE_READ_RANDOM (added_reports st st')
      = [mk_report GM_ERROR_GPS_EDGE_READ_RANDOM (field_line f) (field_col f) None]
    ∧ is_error st' = true
    ∧ info st' = info st.
Proof.
  unfold edge_prop_read, defined_inner, apply_expr.
  destruct (expr_class e) as [f'| | |] eqn:Hc; try discriminate.
  destruct (is_edge_compatible _) eqn:Hcompat; try discriminate.
  intros [= ->] Hdef. rewrite check_write_rhs_info, Hdef. cbn [negb].
  eexists. split; [reflexivity|].
  destruct (check_write_rhs_reported e st) as (rs & Hrs & Hcode & _).
  repeat split.
  - erewrite added_reports_app; last first.
    { cbn [reported set_error gm_backend_error]. rewrite Hrs, <- app_assoc. reflexivity. }
    unfold reports_of in *. rewrite filter_app.
    assert (filter (λ r, rep_code r = GM_ERROR_GPS_EDGE_READ_RANDOM) rs = []) as ->.
    { rewrite <- Hcode. clear. induction rs as [|r rs IH]; [done|].
      rewrite !filter_cons. destruct (decide (rep_code r = _)) as [Hr|]; [|done].
      rewrite filter_cons, decide_False; [done|congruence]. }
    reflexivity.
  - cbn. apply check_write_rhs_info.
Qed.

(** ** The parent walk *)

Lemma is_conditional_kind_spec s :
  is_conditional_kind (get_nodetype s) = true ↔ conditional_sent s.
Proof.
  unfold is_conditional_kind, conditional_sent.
  rewrite !orb_true_iff, !bool_decide_eq_true. tauto.
Qed.

Lemma parent_chain_is_Some ast loop p between :
  parent_chain ast loop p between → is_Some p.
Proof. destruct 1; eauto. Qed.

(** With fuel for every statement of the chain, the walk ends and tells
    whether one of them is an if, a while or a foreach. *)
Lemma check_conditional_chain ast loop p between :
  parent_chain ast loop p between →
  ∀ fuel, (length between < fuel)%nat →
  check_conditional fuel ast (Some loop) p
  = Done (bool_decide (Exists conditional_sent between)).
Proof.
  induction 1 as [|p node rest Hne Hnode Hrest IH]; intros [|fuel] Hfuel;
    cbn [length] in Hfuel; try lia.
  - cbn [check_conditional]. rewrite decide_True by done.
    rewrite bool_decide_eq_false_2; [done|]. by inversion 1.
  - cbn [check_conditional]. rewrite decide_False by congruence. rewrite Hnode.
    destruct (is_conditional_kind (get_nodetype node)) eqn:Hkind.
    + rewrite bool_decide_eq_true_2; [done|].
      apply Exists_cons_hd. by apply is_conditional_kind_spec.
    + destruct (parent_chain_is_Some _ _ _ _ Hrest) as [p' Hp'].
      rewrite Hp' in IH |- *. rewrite IH by lia.
      f_equal. apply bool_decide_ext. rewrite Exists_cons.
      rewrite <- is_conditional_kind_spec, Hkind.
      split; [by right | by intros [?|?]].
Qed.

(** ** The callbacks, case by case *)

(** The statement callback on an edge-property write through a marked
    base symbol, inside an inner loop: the walk, then the bookkeeping. *)
Lemma apply_sent_edge_prop_write fuel ast s lhs st loop :
  edge_prop_target s = Some lhs →
  defined_inner (get_first lhs) st = true →
  inner_loop st = Some loop →
  apply_sent fuel ast s st =
  conditional ← check_conditional fuel ast (Some loop) (get_parent s);
  Done (true,
        mk_state (inner_iter st) (Some loop) true
          (if (conditional : bool) then true else _error st)
          (set_curr_state loop (sym_addr (getSymInfo (get_second lhs)))
             (table_transition
                (access_state loop (sym_addr (getSymInfo (get_second lhs))) st) write)
             (add_info_list_element loop GPS_LIST_EDGE_PROP_WRITE (sent_addr s)
                (info st)))
          (reported st ++
             if conditional
             then [mk_report GM_ERROR_GPS_EDGE_WRITE_CONDITIONAL
                     (field_line lhs) (field_col lhs) None]
             else [])).
Proof.
  unfold edge_prop_target, defined_inner, apply_sent.
  destruct (sent_class s) as [it|a| | |tag]; try discriminate.
  destruct (assign_lhs a) as [i|f]; try discriminate.
  destruct (is_edge_compatible _) eqn:Hcompat; try discriminate.
  intros [= ->] -> Hloop. rewrite Hloop.
  destruct (check_conditional fuel ast (Some loop) (get_parent s))
    as [conditional| |] eqn:Hwalk; try reflexivity.
  cbn [mbind outcome_bind].
  change WRITING with (op_of_event write).
  destruct conditional;
    cbn [set_target_is_edge_prop set_error gm_backend_error inner_loop info set_info];
    rewrite Hloop;
    cbn [set_target_is_edge_prop set_error gm_backend_error inner_loop info set_info];
    rewrite manage_edge_prop_access_state_table; cbn [mbind outcome_bind fst snd];
    (destruct (is_error_transition _ write) eqn:Herr;
     [ by destruct (find_info_map_value _ _ _ _) as [[]|] | ]);
    unfold set_info, access_state; cbn; rewrite ?app_nil_r, ?Hloop; reflexivity.
Qed.

(** Outside every inner loop the same statement does not return: the
    walk or [assert(inner_loop != NULL)] stops the pass. *)
Lemma apply_sent_edge_prop_write_null fuel ast s lhs st r :
  edge_prop_target s = Some lhs →
  defined_inner (get_first lhs) st = true →
  inner_loop st = None →
  apply_sent fuel ast s st ≠ Done r.
Proof.
  unfold edge_prop_target, defined_inner, apply_sent.
  destruct (sent_class s) as [it|a| | |tag]; try discriminate.
  destruct (assign_lhs a) as [i|f]; try discriminate.
  destruct (is_edge_compatible _) eqn:Hcompat; try discriminate.
  intros [= ->] -> Hloop. rewrite Hloop.
  destruct (check_conditional fuel ast None (get_parent s)) as [[]| |];
    cbn; rewrite ?Hloop; discriminate.
Qed.

(** C9. Whatever state the pair is in, and also on its first access, a
    call with [WRITING] answers [false] and stores the table's successor;
    so the assignment handler, once its walk has ended inside an inner
    loop, always gets past [assert(b == false)] and returns. *)
Theorem writing_is_never_an_error :
  (∀ fe e st,
     ∃ st', manage_edge_prop_access_state (Some fe) e WRITING st = Done (false, st')
       ∧ find_info_map_value fe GPS_MAP_EDGE_PROP_ACCESS e st'
         = Some (table_transition
                   (find_info_map_value fe GPS_MAP_EDGE_PROP_ACCESS e st) write))
  ∧ (∀ fuel ast s lhs st loop conditional,
       edge_prop_target s = Some lhs →
       defined_inner (get_first lhs) st = true →
       inner_loop st = Some loop →
       check_conditional fuel ast (Some loop) (get_parent s) = Done conditional →
       ∃ st', apply_sent fuel ast s st = Done (true, st')).
Proof.
  split.
  - intros fe e st. change WRITING with (op_of_event write).
    rewrite manage_edge_prop_access_state_table.
    eexists. split.
    + f_equal. f_equal. by destruct (find_info_map_value _ _ _ _) as [[]|].
    + apply find_set_curr_state_eq.
  - intros fuel ast s lhs st loop conditional Htarget Hdef Hloop Hwalk.
    rewrite (apply_sent_edge_prop_write _ _ _ _ _ _ Htarget Hdef Hloop), Hwalk.
    eexists. reflexivity.
Qed.

(** The statement callback on an assignment to an edge property, in all
    other cases of a field target. *)
Lemma apply_sent_not_edge_prop_target fuel ast s a lhs st :
  sent_class s = SENT_ASSIGN a → assign_lhs a = LHS_FIELD lhs →
  edge_prop_target s = None →
  apply_sent fuel ast s st = Done (true, st).
Proof.
  unfold edge_prop_target, apply_sent. intros -> ->.
  by destruct (is_edge_compatible _).
Qed.

(** The statement callback on a scalar assignment: at most the
    defining-write flag of the statement is set. *)
Lemma apply_sent_scalar fuel ast s a lhs st :
  sent_class s = SENT_ASSIGN a → assign_lhs a = LHS_SCALA lhs →
  apply_sent fuel ast s st = Done (true, st)
  ∨ apply_sent fuel ast s st
    = Done (true, set_info (add_info_bool (sent_addr s) GPS_FLAG_EDGE_DEFINING_WRITE true
                              (info st)) st).
Proof.
  unfold apply_sent. intros -> ->.
  destruct (is_edge (getType (getSymInfo lhs)));
    [destruct (find_info_bool (sym_addr (getSymInfo lhs)) GPS_FLAG_EDGE_DEFINED_INNER
                 (info st));
     [destruct (expr_class (get_rhs a)) as [| |drv f_id|]|]|];
    try (left; reflexivity).
  destruct (f_id =? GM_BLTIN_NODE_TO_EDGE); [right|left]; reflexivity.
Qed.

(** The expression callback on a read of an edge property through a
    marked base symbol, whenever it returns. *)
Lemma apply_expr_send e f st c st' :
  edge_prop_read e = Some f →
  defined_inner (get_first f) st = true →
  apply_expr e st = Done (c, st') →
  ∃ loop,
    inner_loop st = Some loop
    ∧ c = true
    ∧ inner_iter st' = inner_iter st
    ∧ inner_loop st' = inner_loop st
    ∧ target_is_edge_prop st' = target_is_edge_prop st
    ∧ info st' = set_curr_state loop (sym_addr (getSymInfo (get_second f)))
                   (table_transition
                      (access_state loop (sym_addr (getSymInfo (get_second f))) st) send)
                   (info st)
    ∧ reported st' = reported (check_write_rhs e st) ++
        (if is_error_transition
              (access_state loop (sym_addr (getSymInfo (get_second f))) st) send
         then [mk_report GM_ERROR_GPS_EDGE_SEND_VERSIONS (field_line f) (field_col f)
                 (Some (get_orgname (get_first f)))]
         else [])
    ∧ _error st' =
        (if is_error_transition
              (access_state loop (sym_addr (getSymInfo (get_second f))) st) send
         then true else _error (check_write_rhs e st)).
Proof.
  unfold edge_prop_read, defined_inner, apply_expr.
  destruct (expr_class e) as [f'| | |] eqn:Hc; try discriminate.
  destruct (is_edge_compatible _) eqn:Hcompat; try discriminate.
  intros [= ->] Hdef. rewrite check_write_rhs_info, Hdef. cbn [negb].
  rewrite check_write_rhs_inner_loop.
  destruct (inner_loop st) as [loop|] eqn:Hloop.
  2:{ by rewrite manage_edge_prop_access_state_null. }
  change SENDING with (op_of_event send).
  rewrite manage_edge_prop_access_state_table. cbn [mbind outcome_bind fst snd].
  unfold access_state.
  destruct (is_error_transition _ send) eqn:Herr; intros [= <- <-]; exists loop;
    cbn [inner_iter inner_loop target_is_edge_prop info reported _error
         set_error set_info gm_backend_error];
    rewrite ?check_write_rhs_inner_iter, ?check_write_rhs_inner_loop,
      ?check_write_rhs_target;
    repeat split; rewrite ?Herr, ?app_nil_r; done.
Qed.

(** The expression callback on anything that is not a read of an edge
    property: only the right-hand-side check runs. *)
Lemma apply_expr_other e st :
  edge_prop_read e = None →
  apply_expr e st = Done (true, check_write_rhs e st).
Proof.
  unfold edge_prop_read, apply_expr.
  destruct (expr_class e); try reflexivity.
  by destruct (is_edge_compatible _).
Qed.

Lemma apply_expr_random_read e f st :
  edge_prop_read e = Some f →
  defined_inner (get_first f) st = false →
  apply_expr e st
  = Done (true, set_error true
                  (gm_backend_error GM_ERROR_GPS_EDGE_READ_RANDOM
                     (field_line f) (field_col f) None (check_write_rhs e st))).
Proof.
  unfold edge_prop_read, defined_inner, apply_expr.
  destruct (expr_class e) as [f'| | |] eqn:Hc; try discriminate.
  destruct (is_edge_compatible _) eqn:Hcompat; try discriminate.
  intros [= ->] Hdef. by rewrite check_write_rhs_info, Hdef.
Qed.

(** C3. For an assignment to an edge property through a marked base
    symbol, under an inner loop that is reached by climbing the parent
    links, the callback returns the continue signal and reports
    [EDGE_WRITE_CONDITIONAL], at the line and column of the target field,
    if and only if one of the statements strictly between the assignment
    and the inner loop is an if, a while or a foreach. *)
Theorem conditional_write_reported_iff fuel ast s lhs st loop between :
  edge_prop_target s = Some lhs →
  defined_inner (get_first lhs) st = true →
  inner_loop st = Some loop →
  parent_chain ast loop (get_parent s) between →
  (length between < fuel)%nat →
  ∃ st', apply_sent fuel ast s st = Done (true, st')
    ∧ (Exists conditional_sent between →
         added_reports st st'
         = [mk_report GM_ERROR_GPS_EDGE_WRITE_CONDITIONAL
              (field_line lhs) (field_col lhs) None]
         ∧ is_error st' = true)
    ∧ (¬ Exists conditional_sent between →
         added_reports st st' = [] ∧ is_error st' = is_error st)
    ∧ target_is_edge_prop st' = true
    ∧ find_info_list loop GPS_LIST_EDGE_PROP_WRITE (info st')
      = find_info_list loop GPS_LIST_EDGE_PROP_WRITE (info st) ++ [sent_addr s]
    ∧ access_state loop (sym_addr (getSymInfo (get_second lhs))) st'
      = Some (table_transition
                (access_state loop (sym_addr (getSymInfo (get_second lhs))) st) write).
Proof.
  intros Htarget Hdef Hloop Hchain Hfuel.
  rewrite (apply_sent_edge_prop_write _ _ _ _ _ _ Htarget Hdef Hloop).
  rewrite (check_conditional_chain _ _ _ _ Hchain fuel Hfuel).
  cbn [mbind outcome_bind].
  eexists. split; [reflexivity|].
  split; [|split; [|split; [|split]]].
  - intros Hex. rewrite bool_decide_eq_true_2 by done.
    split; [|done]. by apply added_reports_app.
  - intros Hex. rewrite bool_decide_eq_false_2 by done.
    split; [|done]. by apply added_reports_app.
  - reflexivity.
  - unfold find_info_list, set_curr_state, add_info_map_key_value,
      add_info_list_element; cbn. by rewrite lookup_insert_eq.
  - unfold access_state. cbn [info]. rewrite find_set_curr_state_eq. reflexivity.
Qed.

(** An edge-property write through an unmarked base symbol. *)
Lemma apply_sent_unmarked fuel ast s lhs st :
  edge_prop_target s = Some lhs →
  defined_inner (get_first lhs) st = false →
  apply_sent fuel ast s st = Done (true, st).
Proof.
  unfold edge_prop_target, defined_inner, apply_sent.
  destruct (sent_class s) as [it|a| | |tag]; try discriminate.
  destruct (assign_lhs a) as [i|f]; try discriminate.
  destruct (is_edge_compatible _) eqn:Hcompat; try discriminate.
  intros [= ->] ->. reflexivity.
Qed.

(** ** The events of the state machine *)

Lemma event_of_write s lhs st loop :
  edge_prop_target s = Some lhs →
  defined_inner (get_first lhs) st = true →
  inner_loop st = Some loop →
  event_of (VisitSent s) st
  = Some (mk_access loop (sym_addr (getSymInfo (get_second lhs))) write).
Proof. unfold event_of. by intros -> -> ->. Qed.

Lemma event_of_send e f st loop :
  edge_prop_read e = Some f →
  defined_inner (get_first f) st = true →
  inner_loop st = Some loop →
  event_of (VisitExpr e) st
  = Some (mk_access loop (sym_addr (getSymInfo (get_second f))) send).
Proof. unfold event_of. by intros -> -> ->. Qed.

Lemma event_of_symtab e ty st : event_of (VisitSymtab e ty) st = None.
Proof. unfold event_of. by destruct (inner_loop st). Qed.

Lemma event_of_sent2 s st : event_of (VisitSent2 s) st = None.
Proof. unfold event_of. by destruct (inner_loop st). Qed.

Lemma event_of_sent_no_target s st :
  edge_prop_target s = None → event_of (VisitSent s) st = None.
Proof. unfold event_of. intros ->. by destruct (inner_loop st). Qed.

Lemma event_of_sent_unmarked s lhs st :
  edge_prop_target s = Some lhs →
  defined_inner (get_first lhs) st = false →
  event_of (VisitSent s) st = None.
Proof. unfold event_of. intros -> ->. by destruct (inner_loop st). Qed.

Lemma event_of_expr_no_read e st :
  edge_prop_read e = None → event_of (VisitExpr e) st = None.
Proof. unfold event_of. intros ->. by destruct (inner_loop st). Qed.

Lemma event_of_expr_unmarked e f st :
  edge_prop_read e = Some f →
  defined_inner (get_first f) st = false →
  event_of (VisitExpr e) st = None.
Proof. unfold event_of. intros -> ->. by destruct (inner_loop st). Qed.

Lemma edge_prop_target_scalar s a i :
  sent_class s = SENT_ASSIGN a → assign_lhs a = LHS_SCALA i →
  edge_prop_target s = None.
Proof. unfold edge_prop_target. by intros -> ->. Qed.

(** ** One callback, all cases

    [step_inv H] splits a returned call [H : step fuel ast v st = Done
    (c, st')] into the cases of the four callbacks and replaces [c] and
    [st'] by what the case yields. *)
Ltac step_inv H :=
  match type of H with
  | step ?fuel ?ast ?v ?st = Done (?c, ?st') =>
    let e := fresh "e" in let ty := fresh "ty" in let s := fresh "s" in
    let Hev := fresh "Hev" in
    destruct v as [e ty|s|e|s]; cbn [step] in H;
    [ pose proof (event_of_symtab e ty st) as Hev;
      unfold apply_symtab in H;
      destruct (is_edge (getType e)) eqn:?, (inner_loop st) eqn:?;
      injection H as <- <-
    | let Hclass := fresh "Hclass" in
      let Htarget := fresh "Htarget" in
      let it := fresh "it" in let a := fresh "a" in let tag := fresh "tag" in
      destruct (sent_class s) as [it|a| | |tag] eqn:Hclass;
      [ assert (edge_prop_target s = None) as Htarget
          by (unfold edge_prop_target; by rewrite Hclass);
        pose proof (event_of_sent_no_target s st Htarget) as Hev;
        unfold apply_sent in H; rewrite Hclass in H;
        destruct (find_info_bool (sent_addr s) GPS_FLAG_IS_INNER_LOOP (info st)) eqn:?;
        injection H as <- <-
      | let Hlhs := fresh "Hlhs" in
        let i := fresh "i" in let lhs := fresh "lhs" in
        destruct (assign_lhs a) as [i|lhs] eqn:Hlhs;
        [ pose proof (edge_prop_target_scalar s a i Hclass Hlhs) as Htarget;
          pose proof (event_of_sent_no_target s st Htarget) as Hev;
          let E := fresh "E" in
          destruct (apply_sent_scalar fuel ast s a i st Hclass Hlhs) as [E|E];
          rewrite E in H; injection H as <- <-
        | let lhs' := fresh "lhs" in
          destruct (edge_prop_target s) as [lhs'|] eqn:Htarget;
          [ let Hdef := fresh "Hdef" in
            destruct (defined_inner (get_first lhs') st) eqn:Hdef;
            [ let Hloop := fresh "Hloop" in
              let loop := fresh "loop" in
              destruct (inner_loop st) as [loop|] eqn:Hloop;
              [ pose proof (event_of_write s lhs' st loop Htarget Hdef Hloop) as Hev;
                rewrite (apply_sent_edge_prop_write fuel ast s lhs' st loop
                           Htarget Hdef Hloop) in H;
                let Hwalk := fresh "Hwalk" in
                let conditional := fresh "conditional" in
                destruct (check_conditional fuel ast (Some loop) (get_parent s))
                  as [conditional| |] eqn:Hwalk; try discriminate H;
                cbn [mbind outcome_bind] in H; injection H as <- <-
              | exfalso;
                exact (apply_sent_edge_prop_write_null fuel ast s lhs' st _
                         Htarget Hdef Hloop H) ]
            | pose proof (event_of_sent_unmarked s lhs' st Htarget Hdef) as Hev;
              rewrite (apply_sent_unmarked fuel ast s lhs' st Htarget Hdef) in H;
              injection H as <- <- ]
          | pose proof (event_of_sent_no_target s st Htarget) as Hev;
            rewrite (apply_sent_not_edge_prop_target fuel ast s a lhs st
                       Hclass Hlhs Htarget) in H;
            injection H as <- <- ] ]
      | assert (edge_prop_target s = None) as Htarget
          by (unfold edge_prop_target; by rewrite Hclass);
        pose proof (event_of_sent_no_target s st Htarget) as Hev;
        unfold apply_sent in H; rewrite Hclass in H; injection H as <- <-
      | assert (edge_prop_target s = None) as Htarget
          by (unfold edge_prop_target; by rewrite Hclass);
        pose proof (event_of_sent_no_target s st Htarget) as Hev;
        unfold apply_sent in H; rewrite Hclass in H; injection H as <- <-
      | assert (edge_prop_target s = None) as Htarget
          by (unfold edge_prop_target; by rewrite Hclass);
        pose proof (event_of_sent_no_target s st Htarget) as Hev;
        unfold apply_sent in H; rewrite Hclass in H; injection H as <- <- ]
    | let Hread := fresh "Hread" in
      let f := fresh "f" in
      destruct (edge_prop_read e) as [f|] eqn:Hread;
      [ let Hdef := fresh "Hdef" in
        destruct (defined_inner (get_first f) st) eqn:Hdef;
        [ let loop := fresh "loop" in
          let Hloop := fresh "Hloop" in let Hiter := fresh "Hiter" in
          let Hloop' := fresh "Hloop'" in let Htgt := fresh "Htgt" in
          let Hinfo := fresh "Hinfo" in let Hrep := fresh "Hrep" in
          let Herr := fresh "Herr" in
          destruct (apply_expr_send e f st c st' Hread Hdef H)
            as (loop & Hloop & -> & Hiter & Hloop' & Htgt & Hinfo & Hrep & Herr);
          pose proof (event_of_send e f st loop Hread Hdef Hloop) as Hev
        | pose proof (event_of_expr_unmarked e f st Hread Hdef) as Hev;
          rewrite (apply_expr_random_read e f st Hread Hdef) in H;
          injection H as <- <- ]
      | pose proof (event_of_expr_no_read e st Hread) as Hev;
        rewrite (apply_expr_other e st Hread) in H; injection H as <- <- ]
    | pose proof (event_of_sent2 s st) as Hev;
      unfold apply2 in H;
      let Hclass := fresh "Hclass" in
      destruct (sent_class s) eqn:Hclass;
      [ destruct (decide (Some (sent_addr s) = inner_loop st)); injection H as <- <-
      | injection H as <- <- | injection H as <- <- | injection H as <- <-
      | injection H as <- <- ] ]
  end.

(** Every callback that returns answers with the continue signal. *)
Lemma step_continue fuel ast v st c st' :
  step fuel ast v st = Done (c, st') → c = true.
Proof. intros H. step_inv H; reflexivity. Qed.

(** A callback only appends to the diagnostics, and the error flag
    follows: it is raised with every diagnostic and never lowered. *)
Lemma step_reported fuel ast v st c st' :
  step fuel ast v st = Done (c, st') →
  ∃ rs, reported st' = reported st ++ rs
    ∧ (rs = [] → _error st' = _error st)
    ∧ (rs ≠ [] → _error st' = true).
Proof.
  intros H. step_inv H;
    try (exists []; rewrite app_nil_r; repeat split; (done || congruence)).
  - destruct conditional; [eexists [_]|exists []]; rewrite ?app_nil_r;
      repeat split; (done || congruence).
  - destruct (check_write_rhs_reported e st) as (rs & Hrs & _ & _ & _ & Hnil & Hcons).
    rewrite Hrep, Herr, Hrs, <- app_assoc. eexists. split; [reflexivity|].
    destruct (is_error_transition _ send).
    + split; [|done]. intros Happ. by apply app_eq_nil in Happ as [_ ?].
    + rewrite app_nil_r. by split.
  - destruct (check_write_rhs_reported e st) as (rs & Hrs & _ & _ & _ & Hnil & Hcons).
    cbn. rewrite Hrs, <- app_assoc. eexists. split; [reflexivity|].
    split; [|done]. intros Happ. by apply app_eq_nil in Happ as [_ ?].
  - destruct (check_write_rhs_reported e st) as (rs & Hrs & _ & _ & _ & Hnil & Hcons).
    eauto.
Qed.

(** ** Diagnostics by code *)

Lemma reports_of_app code rs1 rs2 :
  reports_of code (rs1 ++ rs2) = reports_of code rs1 ++ reports_of code rs2.
Proof. apply filter_app. Qed.

Lemma reports_of_elem code rs r :
  r ∈ reports_of code rs ↔ r ∈ rs ∧ rep_code r = code.
Proof. unfold reports_of. rewrite list_elem_of_filter. tauto. Qed.

Lemma reports_of_nil_iff code rs :
  reports_of code rs = [] ↔ ∀ r, r ∈ rs → rep_code r ≠ code.
Proof.
  split.
  - intros Hnil r Hr Hcode.
    assert (r ∈ reports_of code rs) as Hin by (by apply reports_of_elem).
    rewrite Hnil in Hin. by apply elem_of_nil in Hin.
  - intros Hall. destruct (reports_of code rs) as [|r rs'] eqn:Hrs; [done|].
    assert (r ∈ reports_of code rs) as Hin by (rewrite Hrs; left).
    apply reports_of_elem in Hin as [Hin Hcode]. by destruct (Hall r Hin).
Qed.

Lemma reports_of_other code code' rs :
  reports_of code rs = rs → code ≠ code' → reports_of code' rs = [].
Proof.
  intros Hall Hne. apply reports_of_nil_iff. intros r Hr.
  rewrite <- Hall in Hr. apply reports_of_elem in Hr as [_ ->]. done.
Qed.

(** The diagnostics of the expression callback: those of the
    right-hand-side check, then at most one of the other two kinds. *)
Lemma added_reports_expr e st st' rs :
  reported st' = reported (check_write_rhs e st) ++ rs →
  ∃ rhs, added_reports st st' = rhs ++ rs
    ∧ reports_of GM_ERROR_GPS_EDGE_WRITE_RHS rhs = rhs
    ∧ added_reports st (check_write_rhs e st) = rhs.
Proof.
  intros Hrep. destruct (check_write_rhs_reported e st) as (rhs & Hrhs & Hcode & _).
  exists rhs. split; [|split; [done|by apply added_reports_app]].
  apply added_reports_app. by rewrite Hrep, Hrhs, app_assoc.
Qed.

(** A callback changes the state of a pair only by presenting an event
    on that pair to the state machine, and then by the table. *)
Lemma step_access_state fuel ast v st c st' loop sym :
  step fuel ast v st = Done (c, st') →
  access_state loop sym st' =
  match event_of v st with
  | Some a =>
      if decide (acc_loop a = loop ∧ acc_sym a = sym)
      then Some (table_transition (access_state loop sym st) (acc_event a))
      else access_state loop sym st
  | None => access_state loop sym st
  end.
Proof.
  intros H. step_inv H; rewrite Hev; try reflexivity.
  - cbn [acc_loop acc_sym acc_event]. unfold access_state. cbn [info].
    destruct (decide (loop0 = loop ∧ _ = sym)) as [[Hl Hs]|Hne].
    + subst loop0 sym. by rewrite find_set_curr_state_eq.
    + rewrite find_set_curr_state_ne; [done|]. intros Heq. apply Hne. by inversion Heq.
  - cbn [acc_loop acc_sym acc_event]. unfold access_state. rewrite Hinfo.
    destruct (decide (loop0 = loop ∧ _ = sym)) as [[Hl Hs]|Hne].
    + subst loop0 sym. by rewrite find_set_curr_state_eq.
    + rewrite find_set_curr_state_ne; [done|]. intros Heq. apply Hne. by inversion Heq.
  - unfold access_state. cbn. by rewrite check_write_rhs_info.
  - unfold access_state. by rewrite check_write_rhs_info.
Qed.

(** ** Callbacks that always return *)

Lemma apply_expr_returns e st loop :
  inner_loop st = Some loop → ∃ st', apply_expr e st = Done (true, st').
Proof.
  intros Hloop. destruct (edge_prop_read e) as [f|] eqn:Hread.
  - destruct (defined_inner (get_first f) st) eqn:Hdef.
    + revert Hread Hdef. unfold edge_prop_read, defined_inner, apply_expr.
      destruct (expr_class e) as [f'| | |]; try discriminate.
      destruct (is_edge_compatible _); try discriminate.
      intros [= ->] Hdef. rewrite check_write_rhs_info, Hdef. cbn [negb].
      rewrite check_write_rhs_inner_loop, Hloop.
      change SENDING with (op_of_event send).
      rewrite manage_edge_prop_access_state_table. cbn [mbind outcome_bind fst snd].
      destruct (is_error_transition _ send); eauto.
    + rewrite (apply_expr_random_read e f st Hread Hdef). eauto.
  - rewrite (apply_expr_other e st Hread). eauto.
Qed.

Lemma event_of_inner_loop v st a :
  event_of v st = Some a → inner_loop st = Some (acc_loop a).
Proof.
  unfold event_of. destruct v as [e ty|s|e|s], (inner_loop st) as [loop|]; try done.
  - destruct (edge_prop_target s); [|done]. destruct (defined_inner _ _); [|done].
    by intros [= <-].
  - destruct (edge_prop_read e); [|done]. destruct (defined_inner _ _); [|done].
    by intros [= <-].
Qed.

Lemma event_of_send_is_expr v st a :
  event_of v st = Some a → acc_event a = send → ∃ e, v = VisitExpr e.
Proof.
  unfold event_of. destruct v as [e ty|s|e|s], (inner_loop st) as [loop|]; try done.
  - destruct (edge_prop_target s); [|done]. destruct (defined_inner _ _); [|done].
    by intros [= <-].
  - eauto.
Qed.

Lemma apply2_returns s st : ∃ st', apply2 s st = Done (true, st').
Proof.
  unfold apply2. destruct (sent_class s); eauto.
  destruct (decide _); eauto.
Qed.

Lemma apply_sent_foreach_returns fuel ast s it st :
  sent_class s = SENT_FOREACH it → ∃ st', apply_sent fuel ast s st = Done (true, st').
Proof.
  unfold apply_sent. intros ->. destruct (find_info_bool _ _ _); eauto.
Qed.

Lemma is_error_transition_true s ev :
  is_error_transition s ev = true ↔ s = Some GPS_ENUM_EDGE_VALUE_SENT_WRITE ∧ ev = send.
Proof. destruct s as [[]|], ev; simpl; split; (done || by intros [? ?]). Qed.

(** The [EDGE_SEND_VERSIONS] diagnostics of one callback, by the event
    the visit presents to the state machine. *)
Lemma step_send_versions fuel ast v st c st' :
  step fuel ast v st = Done (c, st') →
  (∀ a, event_of v st = Some a →
     is_error_transition (access_state (acc_loop a) (acc_sym a) st) (acc_event a) = true →
     ∃ e f, v = VisitExpr e ∧ edge_prop_read e = Some f
       ∧ reports_of GM_ERROR_GPS_EDGE_SEND_VERSIONS (added_reports st st')
         = [mk_report GM_ERROR_GPS_EDGE_SEND_VERSIONS (field_line f) (field_col f)
              (Some (get_orgname (get_first f)))])
  ∧ ((∀ a, event_of v st = Some a →
        is_error_transition (access_state (acc_loop a) (acc_sym a) st) (acc_event a) = false) →
     reports_of GM_ERROR_GPS_EDGE_SEND_VERSIONS (added_reports st st') = []).
Proof.
  intros H. step_inv H; rewrite Hev.
  all: try (split; [by intros ? [=]|intros _; by rewrite added_reports_same]).
  - split.
    + intros ? [= <-]. cbn [acc_event]. intros Herr.
      apply is_error_transition_true in Herr as [_ [=]].
    + intros _. erewrite added_reports_app by reflexivity. by destruct conditional.
  - destruct (added_reports_expr _ _ _ _ Hrep) as (rhs & -> & Hrhs & _).
    rewrite reports_of_app, (reports_of_other _ _ _ Hrhs) by done. split.
    + intros ? [= <-]. cbn [acc_loop acc_sym acc_event]. intros ->.
      exists e, f. by repeat split.
    + intros Hno. specialize (Hno _ eq_refl). cbn [acc_loop acc_sym acc_event] in Hno.
      by rewrite Hno.
  - split; [by intros ? [=]|intros _].
    match goal with
    | |- context [added_reports st ?s'] =>
        destruct (added_reports_expr e st s'
                    [mk_report GM_ERROR_GPS_EDGE_READ_RANDOM (field_line f) (field_col f)
                       None]) as (rhs & -> & Hrhs & _); [reflexivity|]
    end.
    by rewrite reports_of_app, (reports_of_other _ _ _ Hrhs).
  - split; [by intros ? [=]|intros _].
    edestruct (added_reports_expr e st (check_write_rhs e st) [])
      as (rhs & -> & Hrhs & _); [by rewrite app_nil_r|].
    by rewrite reports_of_app, (reports_of_other _ _ _ Hrhs).
Qed.

(** C2. A send on a pair always returns.  Whenever a callback returns,
    [EDGE_SEND_VERSIONS] is among its diagnostics exactly when the visit
    is a send on a pair whose state is [SENT_WRITE]: every such diagnostic
    comes from such a send and carries the line and column of the field
    access with the name of its base symbol; every such send yields
    exactly that diagnostic and moves the pair to [ERROR].  A pair in
    state [ERROR] stays there under every callback, and a write or send
    on it adds no [EDGE_SEND_VERSIONS] diagnostic. *)
Theorem send_versions_reported_iff fuel ast v st :
  (∀ a, event_of v st = Some a → acc_event a = send →
     ∃ st', step fuel ast v st = Done (true, st'))
  ∧ ∀ c st', step fuel ast v st = Done (c, st') →
    (∀ r, r ∈ added_reports st st' →
       rep_code r = GM_ERROR_GPS_EDGE_SEND_VERSIONS →
       ∃ e f a, v = VisitExpr e ∧ edge_prop_read e = Some f
         ∧ event_of v st = Some a ∧ acc_event a = send
         ∧ access_state (acc_loop a) (acc_sym a) st = Some GPS_ENUM_EDGE_VALUE_SENT_WRITE
         ∧ r = mk_report GM_ERROR_GPS_EDGE_SEND_VERSIONS (field_line f) (field_col f)
                 (Some (get_orgname (get_first f))))
    ∧ (∀ a, event_of v st = Some a → acc_event a = send →
       access_state (acc_loop a) (acc_sym a) st = Some GPS_ENUM_EDGE_VALUE_SENT_WRITE →
       ∃ e f, v = VisitExpr e ∧ edge_prop_read e = Some f
         ∧ reports_of GM_ERROR_GPS_EDGE_SEND_VERSIONS (added_reports st st')
           = [mk_report GM_ERROR_GPS_EDGE_SEND_VERSIONS (field_line f) (field_col f)
                (Some (get_orgname (get_first f)))]
         ∧ access_state (acc_loop a) (acc_sym a) st' = Some GPS_ENUM_EDGE_VALUE_ERROR)
    ∧ (∀ loop sym, access_state loop sym st = Some GPS_ENUM_EDGE_VALUE_ERROR →
       access_state loop sym st' = Some GPS_ENUM_EDGE_VALUE_ERROR)
    ∧ (∀ a, event_of v st = Some a →
       access_state (acc_loop a) (acc_sym a) st = Some GPS_ENUM_EDGE_VALUE_ERROR →
       reports_of GM_ERROR_GPS_EDGE_SEND_VERSIONS (added_reports st st') = []).
Proof.
  split.
  { intros a Hev Hsend.
    destruct (event_of_send_is_expr _ _ _ Hev Hsend) as [e ->].
    exact (apply_expr_returns e st _ (event_of_inner_loop _ _ _ Hev)). }
  intros c st' H. destruct (step_send_versions _ _ _ _ _ _ H) as [Hyes Hno].
  split; [|split; [|split]].
  - intros r Hr Hcode.
    destruct (event_of v st) as [a|] eqn:Hev.
    2:{ exfalso. eapply reports_of_nil_iff; [apply Hno; by intros a [=]|exact Hr|exact Hcode]. }
    destruct (is_error_transition (access_state (acc_loop a) (acc_sym a) st) (acc_event a))
      eqn:Herr.
    2:{ exfalso. eapply reports_of_nil_iff; [apply Hno|exact Hr|exact Hcode].
        by intros a' [= <-]. }
    destruct (Hyes a eq_refl Herr) as (e & f & -> & Hread & Hreps).
    apply is_error_transition_true in Herr as [Hstate Hsend].
    exists e, f, a. repeat split; try done.
    assert (r ∈ reports_of GM_ERROR_GPS_EDGE_SEND_VERSIONS (added_reports st st')) as Hin
      by (by apply reports_of_elem).
    rewrite Hreps in Hin. by apply list_elem_of_singleton in Hin.
  - intros a Hev Hsend Hstate.
    destruct (Hyes a Hev) as (e & f & -> & Hread & Hreps).
    { apply is_error_transition_true. by split. }
    exists e, f. repeat split; try done.
    rewrite (step_access_state _ _ _ _ _ _ (acc_loop a) (acc_sym a) H), Hev.
    rewrite decide_True by done. by rewrite Hstate, Hsend.
  - intros loop sym Hstate.
    rewrite (step_access_state _ _ _ _ _ _ loop sym H).
    destruct (event_of v st) as [a|]; [|done].
    destruct (decide _); [|done]. by rewrite Hstate.
  - intros a Hev Hstate. apply Hno. intros a' Hev'.
    rewrite Hev in Hev'. injection Hev' as <-. by rewrite Hstate.
Qed.
(** Over a whole run of callbacks the state of a pair is the fold of the
    table over the accesses to that pair which the run presents. *)
Lemma run_access_state_table_fold fuel ast loop sym vs : ∀ st st',
  run fuel ast vs st = Done st' →
  access_state loop sym st'
  = table_fold (access_state loop sym st) (events_of loop sym (trace_of fuel ast vs st)).
Proof.
  induction vs as [|v vs IH]; intros st st' Hrun.
  - by injection Hrun as <-.
  - cbn [run trace_of] in *.
    destruct (step fuel ast v st) as [[c st1]| |] eqn:Hstep; try discriminate.
    cbn [mbind outcome_bind snd] in *. rewrite (IH st1 st' Hrun).
    rewrite (step_access_state _ _ _ _ _ _ loop sym Hstep).
    unfold events_of. destruct (event_of v st) as [a|]; [|reflexivity].
    change (option_list (Some a) ++ trace_of fuel ast vs st1)
      with (a :: trace_of fuel ast vs st1).
    rewrite filter_cons.
    destruct (decide (acc_loop a = loop ∧ acc_sym a = sym)); reflexivity.
Qed.

(** The flag that arms the right-hand-side check, after one callback. *)
Lemma step_target_is_edge_prop fuel ast v st c st' :
  step fuel ast v st = Done (c, st') →
  target_is_edge_prop st' =
  match v with
  | VisitSent s =>
      match edge_prop_target s with
      | Some lhs => defined_inner (get_first lhs) st || target_is_edge_prop st
      | None => target_is_edge_prop st
      end
  | VisitSent2 s =>
      if decide (get_nodetype s = AST_ASSIGN) then false else target_is_edge_prop st
  | _ => target_is_edge_prop st
  end.
Proof.
  intros H. step_inv H; rewrite ?Htarget, ?Hdef; try reflexivity.
  all: try (unfold get_nodetype; rewrite Hclass; reflexivity).
  - by rewrite Htgt.
  - cbn. apply check_write_rhs_target.
  - apply check_write_rhs_target.
Qed.

(** The [EDGE_WRITE_RHS] diagnostics of one callback are those of the
    right-hand-side check of an expression visit. *)
Lemma step_write_rhs fuel ast v st c st' :
  step fuel ast v st = Done (c, st') →
  reports_of GM_ERROR_GPS_EDGE_WRITE_RHS (added_reports st st') =
  match v with
  | VisitExpr e => added_reports st (check_write_rhs e st)
  | _ => []
  end.
Proof.
  intros H. step_inv H.
  all: try (by rewrite added_reports_same).
  - erewrite added_reports_app by reflexivity. by destruct conditional.
  - destruct (added_reports_expr _ _ _ _ Hrep) as (rhs & -> & Hrhs & ->).
    rewrite reports_of_app, Hrhs. by destruct (is_error_transition _ _); rewrite app_nil_r.
  - match goal with
    | |- context [added_reports st (set_error ?b ?s')] =>
        destruct (added_reports_expr e st (set_error b s')
                    [mk_report GM_ERROR_GPS_EDGE_READ_RANDOM (field_line f) (field_col f)
                       None]) as (rhs & -> & Hrhs & ->); [reflexivity|]
    end.
    by rewrite reports_of_app, Hrhs, app_nil_r.
  - destruct (check_write_rhs_reported e st) as (rhs & Hrhs & Hcode & _).
    by rewrite (added_reports_app _ _ _ Hrhs).
Qed.

(** The scope test sees a boolean: it can only succeed when one of the
    two scope constants is 0 or 1, the values a boolean takes as an
    integer, and it then tells apart two classes at most. *)
Lemma scope_test_is_boolean e st :
  scope_is_inner_or_random e st = true →
  0 ≤ GPS_NEW_SCOPE_IN ≤ 1 ∨ 0 ≤ GPS_NEW_SCOPE_RANDOM ≤ 1.
Proof.
  unfold scope_is_inner_or_random. rewrite orb_true_iff, !Z.eqb_eq.
  destruct (find_info_bool _ _ _); simpl; lia.
Qed.

(** The flag that arms the right-hand-side check is set by the
    pre-order visit of an assignment to an edge property through a marked
    base symbol, cleared by the post-order visit of an assignment, and
    changed by nothing else; while it is clear, no [EDGE_WRITE_RHS] is
    reported.  The expression callback returns whenever an inner loop is
    current, the post-order callback always. *)
Lemma target_is_edge_prop_window fuel ast v st :
  (∀ e loop, v = VisitExpr e → inner_loop st = Some loop →
     ∃ st', step fuel ast v st = Done (true, st'))
  ∧ (∀ s, v = VisitSent2 s → ∃ st', step fuel ast v st = Done (true, st'))
  ∧ ∀ c st', step fuel ast v st = Done (c, st') →
    (∀ s lhs, v = VisitSent s → edge_prop_target s = Some lhs →
       defined_inner (get_first lhs) st = true → target_is_edge_prop st' = true)
    ∧ (∀ s, v = VisitSent2 s → get_nodetype s = AST_ASSIGN →
       target_is_edge_prop st' = false)
    ∧ (target_is_edge_prop st' ≠ target_is_edge_prop st →
       (∃ s lhs, v = VisitSent s ∧ edge_prop_target s = Some lhs
          ∧ defined_inner (get_first lhs) st = true)
       ∨ (∃ s, v = VisitSent2 s ∧ get_nodetype s = AST_ASSIGN))
    ∧ (target_is_edge_prop st = false →
       reports_of GM_ERROR_GPS_EDGE_WRITE_RHS (added_reports st st') = []).
Proof.
  split; [|split].
  { intros e loop -> Hloop. exact (apply_expr_returns e st loop Hloop). }
  { intros s ->. exact (apply2_returns s st). }
  intros c st' H.
  pose proof (step_target_is_edge_prop _ _ _ _ _ _ H) as Hflag.
  pose proof (step_write_rhs _ _ _ _ _ _ H) as Hreps.
  split; [|split; [|split]].
  - intros s lhs -> Htarget Hdef. by rewrite Hflag, Htarget, Hdef.
  - intros s -> Hassign. rewrite Hflag. by rewrite decide_True.
  - intros Hchange. destruct v as [e ty|s|e|s]; try done.
    + left. destruct (edge_prop_target s) as [lhs|] eqn:Htarget; [|done].
      destruct (defined_inner (get_first lhs) st) eqn:Hdef; [|done]. eauto.
    + right. destruct (decide (get_nodetype s = AST_ASSIGN)); [eauto|done].
  - intros Hclear. rewrite Hreps. destruct v as [e ty|s|e|s]; try done.
    destruct (check_write_rhs_reported e st) as (rhs & Hrhs & _ & Hout & _).
    rewrite (added_reports_app _ _ _ Hrhs). exact (Hout Hclear).
Qed.

(** With scope constants other than 0 and 1 the scope test fails for
    every expression and every store, and the right-hand-side check does
    nothing. *)
Lemma scope_test_fails e st :
  GPS_NEW_SCOPE_IN ≠ 0 → GPS_NEW_SCOPE_IN ≠ 1 →
  GPS_NEW_SCOPE_RANDOM ≠ 0 → GPS_NEW_SCOPE_RANDOM ≠ 1 →
  scope_is_inner_or_random e st = false ∧ check_write_rhs e st = st.
Proof.
  intros Hin0 Hin1 Hrnd0 Hrnd1.
  assert (scope_is_inner_or_random e st = false) as Htest.
  { unfold scope_is_inner_or_random. apply orb_false_iff.
    destruct (find_info_bool _ _ _); cbn [Z.b2z]; split; apply Z.eqb_neq; congruence. }
  split; [exact Htest|]. unfold check_write_rhs. rewrite Htest.
  by destruct (target_is_edge_prop st).
Qed.

(** C5, where the code departs from it.  The scope class of an
    expression is read with [find_info_bool], and the boolean is compared
    with the two scope constants.  When neither constant is 0 or 1, as
    for the fourth and fifth member of an enumeration, the comparison
    fails whatever was annotated: the expression callback returns, and
    no callback ever reports [EDGE_WRITE_RHS], also while the flag that
    arms the check is set and for a field or an identifier on the
    right-hand side of an assignment to an edge property; so no run of
    callbacks reports it either. *)
Theorem write_rhs_is_never_reported fuel ast :
  GPS_NEW_SCOPE_IN ≠ 0 → GPS_NEW_SCOPE_IN ≠ 1 →
  GPS_NEW_SCOPE_RANDOM ≠ 0 → GPS_NEW_SCOPE_RANDOM ≠ 1 →
  (∀ e st loop, inner_loop st = Some loop →
     ∃ st', step fuel ast (VisitExpr e) st = Done (true, st')
       ∧ reports_of GM_ERROR_GPS_EDGE_WRITE_RHS (added_reports st st') = [])
  ∧ (∀ v st c st', step fuel ast v st = Done (c, st') →
       reports_of GM_ERROR_GPS_EDGE_WRITE_RHS (added_reports st st') = [])
  ∧ (∀ vs st st', run fuel ast vs st = Done st' →
       reports_of GM_ERROR_GPS_EDGE_WRITE_RHS (added_reports st st') = []).
Proof.
  intros Hin0 Hin1 Hrnd0 Hrnd1.
  assert (∀ v st c st', step fuel ast v st = Done (c, st') →
            reports_of GM_ERROR_GPS_EDGE_WRITE_RHS (added_reports st st') = [])
    as Hstep.
  { intros v st c st' H. rewrite (step_write_rhs _ _ _ _ _ _ H).
    destruct v as [e ty|s|e|s]; try reflexivity.
    destruct (scope_test_fails e st Hin0 Hin1 Hrnd0 Hrnd1) as [_ ->].
    by apply added_reports_same. }
  split; [|split; [exact Hstep|]].
  - intros e st loop Hloop.
    destruct (apply_expr_returns e st loop Hloop) as [st' Hret].
    exists st'. split; [exact Hret|]. exact (Hstep (VisitExpr e) st true st' Hret).
  - induction vs as [|v vs IH]; intros st st' Hrun.
    + injection Hrun as <-. by rewrite added_reports_same.
    + cbn [run] in Hrun.
      destruct (step fuel ast v st) as [[c st1]| |] eqn:Hv; try discriminate.
      cbn [mbind outcome_bind snd] in Hrun.
      destruct (step_reported _ _ _ _ _ _ Hv) as (rs1 & Hrs1 & _).
      assert (∃ rs2, reported st' = reported st1 ++ rs2) as [rs2 Hrs2].
      { clear -Hrun. revert st1 Hrun.
        induction vs as [|w vs IHvs]; intros st1 Hrun.
        - injection Hrun as <-. exists []. by rewrite app_nil_r.
        - cbn [run] in Hrun.
          destruct (step fuel ast w st1) as [[c' st2]| |] eqn:Hw; try discriminate.
          cbn [mbind outcome_bind snd] in Hrun.
          destruct (step_reported _ _ _ _ _ _ Hw) as (rs & Hrs & _).
          destruct (IHvs _ Hrun) as (rs' & Hrs').
          exists (rs ++ rs'). by rewrite Hrs', Hrs, app_assoc. }
      pose proof (Hstep _ _ _ _ Hv) as H1. pose proof (IH _ _ Hrun) as H2.
      rewrite (added_reports_app _ _ _ Hrs1) in H1.
      rewrite (added_reports_app _ _ _ Hrs2) in H2.
      rewrite (added_reports_app st st' (rs1 ++ rs2))
        by (by rewrite Hrs2, Hrs1, app_assoc).
      by rewrite reports_of_app, H1, H2.
Qed.

(** ** The current inner loop *)

(** The two scope fields after one callback. *)
Lemma step_inner fuel ast v st c st' :
  step fuel ast v st = Done (c, st') →
  (inner_loop st', inner_iter st') =
  match v with
  | VisitSent s =>
      match sent_class s with
      | SENT_FOREACH it =>
          if find_info_bool (sent_addr s) GPS_FLAG_IS_INNER_LOOP (info st)
          then (Some (sent_addr s), Some (sym_addr (getSymInfo it)))
          else (inner_loop st, inner_iter st)
      | _ => (inner_loop st, inner_iter st)
      end
  | VisitSent2 s =>
      if decide (get_nodetype s = AST_FOREACH ∧ inner_loop st = Some (sent_addr s))
      then (None, None)
      else (inner_loop st, inner_iter st)
  | _ => (inner_loop st, inner_iter st)
  end.
Proof.
  intros H. step_inv H; rewrite ?Hclass; try reflexivity.
  all: try (match goal with Hb : find_info_bool _ _ _ = _ |- _ => by rewrite Hb end).
  all: try (rewrite decide_False; [reflexivity|];
            unfold get_nodetype; rewrite Hclass; by intros [? ?]).
  all: try (cbn; congruence).
  - cbn. by rewrite check_write_rhs_inner_loop, check_write_rhs_inner_iter.
  - by rewrite check_write_rhs_inner_loop, check_write_rhs_inner_iter.
  - rewrite decide_True; [reflexivity|]. unfold get_nodetype. by rewrite Hclass.
Qed.

(** From the constructor on, the two scope fields are set and cleared
    together. *)
Lemma run_inner_together fuel ast vs : ∀ st st',
  (inner_loop st = None ↔ inner_iter st = None) →
  run fuel ast vs st = Done st' →
  (inner_loop st' = None ↔ inner_iter st' = None).
Proof.
  induction vs as [|v vs IH]; intros st st' Hinv Hrun.
  - by injection Hrun as <-.
  - cbn [run] in Hrun.
    destruct (step fuel ast v st) as [[c st1]| |] eqn:Hstep; try discriminate.
    cbn [mbind outcome_bind snd] in Hrun. apply (IH st1 st'); [|exact Hrun].
    pose proof (step_inner _ _ _ _ _ _ Hstep) as Hinner.
    destruct v as [e ty|s|e|s]; try (injection Hinner as -> ->; exact Hinv).
    + destruct (sent_class s); try (injection Hinner as -> ->; exact Hinv).
      destruct (find_info_bool _ _ _); injection Hinner as -> ->; [done|exact Hinv].
    + destruct (decide _); injection Hinner as -> ->; [done|exact Hinv].
Qed.

(** C8. The pre-order visit of a foreach and every post-order visit
    return.  The current inner loop and the current inner iterator are
    set by the pre-order visit of a foreach that carries the inner-loop
    flag, to that foreach and to the symbol of its iterator; they are
    cleared by the post-order visit of the foreach whose address is the
    stored one; no other callback changes them, so a loop that is current
    stops being current only at its own post-order visit or when another
    flagged foreach is entered.  The field holds one loop or none. *)
Theorem inner_loop_set_and_cleared fuel ast v st :
  (∀ s it, v = VisitSent s → sent_class s = SENT_FOREACH it →
     ∃ st', step fuel ast v st = Done (true, st'))
  ∧ (∀ s, v = VisitSent2 s → ∃ st', step fuel ast v st = Done (true, st'))
  ∧ ∀ c st', step fuel ast v st = Done (c, st') →
    (∀ s it, v = VisitSent s → sent_class s = SENT_FOREACH it →
       find_info_bool (sent_addr s) GPS_FLAG_IS_INNER_LOOP (info st) = true →
       inner_loop st' = Some (sent_addr s)
       ∧ inner_iter st' = Some (sym_addr (getSymInfo it)))
    ∧ (∀ s, v = VisitSent2 s → get_nodetype s = AST_FOREACH →
       inner_loop st = Some (sent_addr s) →
       inner_loop st' = None ∧ inner_iter st' = None)
    ∧ (∀ loop, inner_loop st = Some loop → inner_loop st' = None →
       ∃ s, v = VisitSent2 s ∧ get_nodetype s = AST_FOREACH ∧ sent_addr s = loop)
    ∧ (inner_loop st' ≠ inner_loop st ∨ inner_iter st' ≠ inner_iter st →
       (∃ s it, v = VisitSent s ∧ sent_class s = SENT_FOREACH it
          ∧ find_info_bool (sent_addr s) GPS_FLAG_IS_INNER_LOOP (info st) = true)
       ∨ (∃ s, v = VisitSent2 s ∧ get_nodetype s = AST_FOREACH
            ∧ inner_loop st = Some (sent_addr s))).
Proof.
  split; [|split].
  { intros s it -> Hclass. exact (apply_sent_foreach_returns fuel ast s it st Hclass). }
  { intros s ->. exact (apply2_returns s st). }
  intros c st' H. pose proof (step_inner _ _ _ _ _ _ H) as Hinner.
  split; [|split; [|split]].
  - intros s it -> Hclass Hflag. rewrite Hclass, Hflag in Hinner.
    by injection Hinner as -> ->.
  - intros s -> Hkind Hloop. rewrite decide_True in Hinner by done.
    by injection Hinner as -> ->.
  - intros loop Hloop Hnone.
    destruct v as [e ty|s|e|s];
      try (injection Hinner as Hl _; congruence).
    + destruct (sent_class s); try (injection Hinner as Hl _; congruence).
      destruct (find_info_bool _ _ _); injection Hinner as Hl _; congruence.
    + destruct (decide _) as [[Hkind Hsame]|]; [|injection Hinner as Hl _; congruence].
      exists s. repeat split; [done|congruence].
  - intros Hchange.
    destruct v as [e ty|s|e|s];
      try (injection Hinner as Hl Hi; exfalso; destruct Hchange; congruence).
    + destruct (sent_class s) as [it| | | |] eqn:Hclass;
        try (injection Hinner as Hl Hi; exfalso; destruct Hchange; congruence).
      destruct (find_info_bool _ _ _) eqn:Hflag;
        [left; eauto|injection Hinner as Hl Hi; exfalso; destruct Hchange; congruence].
    + destruct (decide _) as [[Hkind Hsame]|];
        [right; eauto|injection Hinner as Hl Hi; exfalso; destruct Hchange; congruence].
Qed.

(** ** Runs of callbacks and the traversal *)

Lemma run_app fuel ast vs1 vs2 st :
  run fuel ast (vs1 ++ vs2) st = (st1 ← run fuel ast vs1 st; run fuel ast vs2 st1).
Proof.
  revert st. induction vs1 as [|v vs1 IH]; intros st; [reflexivity|].
  cbn [app run]. destruct (step fuel ast v st) as [[c st1]| |]; try reflexivity.
  cbn [mbind outcome_bind snd]. apply IH.
Qed.

Lemma ast_node_forall_ind (P : ast_node → Prop) :
  (∀ e type, P (NodeSymtab e type)) →
  (∀ e subs, Forall P subs → P (NodeExpr e subs)) →
  (∀ s children, Forall P children → P (NodeSent s children)) →
  ∀ n, P n.
Proof.
  intros Hsym Hexpr Hsent. fix IH 1. intros [e ty|e subs|s children].
  - apply Hsym.
  - apply Hexpr. induction subs as [|n subs IHsubs]; constructor; [apply IH|exact IHsubs].
  - apply Hsent.
    induction children as [|n children IHc]; constructor; [apply IH|exact IHc].
Qed.

Lemma traverse_list_run fuel ast ns :
  Forall (λ n, ∀ st, traverse fuel ast n st
                     = (st' ← run fuel ast (visits n) st; Done (true, st'))) ns →
  ∀ st, traverse_list fuel ast ns st = run fuel ast (flat_map visits ns) st.
Proof.
  induction 1 as [|n ns Hn _ IH]; intros st; [reflexivity|].
  cbn [traverse_list flat_map]. rewrite run_app, Hn.
  destruct (run fuel ast (visits n) st) as [st1| |]; try reflexivity.
  cbn [mbind outcome_bind fst snd]. apply IH.
Qed.

(** No callback of this visitor stops the walk: a traversal makes every
    callback of the tree, in order. *)
Lemma traverse_run fuel ast n : ∀ st,
  traverse fuel ast n st = (st' ← run fuel ast (visits n) st; Done (true, st')).
Proof.
  induction n as [e ty|e subs IH|s children IH] using ast_node_forall_ind; intros st.
  - cbn [traverse visits run step].
    destruct (apply_symtab e ty st) as [[c st1]| |] eqn:Hstep; try reflexivity.
    by rewrite (step_continue fuel ast (VisitSymtab e ty) _ _ _ Hstep).
  - change (traverse fuel ast (NodeExpr e subs) st)
      with (r ← apply_expr e st;
            if (r.1 : bool)
            then st' ← traverse_list fuel ast subs r.2; Done (true, st')
            else Done (false, r.2)).
    cbn [visits run step].
    destruct (apply_expr e st) as [[c st1]| |] eqn:Hstep; try reflexivity.
    rewrite (step_continue fuel ast (VisitExpr e) _ _ _ Hstep).
    cbn [mbind outcome_bind fst snd]. by rewrite (traverse_list_run _ _ _ IH).
  - change (traverse fuel ast (NodeSent s children) st)
      with (r ← apply_sent fuel ast s st;
            if (r.1 : bool)
            then st' ← traverse_list fuel ast children r.2; apply2 s st'
            else Done (false, r.2)).
    cbn [visits run step].
    destruct (apply_sent fuel ast s st) as [[c st1]| |] eqn:Hstep; try reflexivity.
    rewrite (step_continue fuel ast (VisitSent s) _ _ _ Hstep).
    cbn [mbind outcome_bind fst snd].
    rewrite (traverse_list_run _ _ _ IH), run_app.
    destruct (run fuel ast (flat_map visits children) st1) as [st2| |]; try reflexivity.
    cbn [mbind outcome_bind run step].
    destruct (apply2 s st2) as [[c2 st3]| |] eqn:Hpost; try reflexivity.
    by rewrite (step_continue fuel ast (VisitSent2 s) _ _ _ Hpost).
Qed.

(** The error flag is raised exactly when something has been reported. *)
Lemma run_error_iff_reported fuel ast vs : ∀ st st',
  (_error st = true ↔ reported st ≠ []) →
  run fuel ast vs st = Done st' →
  (_error st' = true ↔ reported st' ≠ []).
Proof.
  induction vs as [|v vs IH]; intros st st' Hinv Hrun.
  - by injection Hrun as <-.
  - cbn [run] in Hrun.
    destruct (step fuel ast v st) as [[c st1]| |] eqn:Hstep; try discriminate.
    cbn [mbind outcome_bind snd] in Hrun. apply (IH st1 st'); [|exact Hrun].
    destruct (step_reported _ _ _ _ _ _ Hstep) as (rs & Hrs & Hnil & Hcons).
    destruct rs as [|r rs].
    + rewrite Hnil, Hrs, app_nil_r by done. exact Hinv.
    + rewrite Hcons, Hrs by done. split; [|done]. intros _ Happ.
      by apply app_eq_nil in Happ as [_ ?].
Qed.

(** C7. When the pass returns, the value it hands to [set_okay] is
    [true] if and only if no diagnostic was reported; the state it ends in
    is the one reached by making every callback of the whole tree, in
    order, none left out; and every callback that returns does so with
    the continue signal. *)
Theorem pass_ok_iff_nothing_reported proc annotations ok st :
  process proc annotations = Done (ok, st) →
  (ok = true ↔ reported st = [])
  ∧ run (S (length (sents_of proc))) (ast_of proc) (visits proc) (init_state annotations)
    = Done st
  ∧ (∀ fuel ast v st0 c st1, step fuel ast v st0 = Done (c, st1) → c = true).
Proof.
  unfold process, traverse_both. rewrite traverse_run.
  destruct (run _ _ (visits proc) (init_state annotations)) as [st1| |] eqn:Hrun;
    try discriminate.
  cbn [mbind outcome_bind snd]. intros [= <- <-].
  split; [|split; [reflexivity|apply step_continue]].
  assert (_error st1 = true ↔ reported st1 ≠ []) as Hinv.
  { eapply run_error_iff_reported; [|exact Hrun]. done. }
  unfold is_error. destruct (_error st1), (reported st1); simpl; split; try done.
  - intros _. exfalso. by apply Hinv.
  - intros _. destruct Hinv as [_ Hinv]. by discriminate Hinv.
Qed.

(** ** The marks of the edge-binding rule *)

(** The two marks after one callback: only the symbol callback sets
    them, on an edge-typed entry met while an inner loop is current. *)
Lemma step_marks fuel ast v st c st' :
  step fuel ast v st = Done (c, st') →
  (∀ x, find_info_bool x GPS_FLAG_EDGE_DEFINED_INNER (info st') = true ↔
        find_info_bool x GPS_FLAG_EDGE_DEFINED_INNER (info st) = true
        ∨ ∃ e type loop, v = VisitSymtab e type ∧ sym_addr e = x
            ∧ is_edge (getType e) = true ∧ inner_loop st = Some loop)
  ∧ (∀ x, find_info_bool x GPS_FLAG_EDGE_DEFINING_INNER (info st') = true ↔
          find_info_bool x GPS_FLAG_EDGE_DEFINING_INNER (info st) = true
          ∨ ∃ e type, v = VisitSymtab e type
              ∧ is_edge (getType e) = true ∧ inner_loop st = Some x).
Proof.
  intros H.
  assert (∀ k, k = GPS_FLAG_EDGE_DEFINED_INNER ∨ k = GPS_FLAG_EDGE_DEFINING_INNER →
          (∀ x, find_info_bool x k (info st') = find_info_bool x k (info st))
          ∨ ∃ e type loop, v = VisitSymtab e type ∧ is_edge (getType e) = true
              ∧ inner_loop st = Some loop
              ∧ info st' = add_info_bool loop GPS_FLAG_EDGE_DEFINING_INNER true
                             (add_info_bool (sym_addr e) GPS_FLAG_EDGE_DEFINED_INNER true
                                (info st))) as Hcases.
  { intros k Hk. step_inv H.
    all: try (left; intros x; reflexivity).
    - right. eauto 10.
    - left. intros x. cbn [info set_info]. apply find_add_info_bool_ne.
      destruct Hk as [-> | ->]; congruence.
    - left. intros x. by rewrite Hinfo.
    - left. intros x. cbn. by rewrite check_write_rhs_info.
    - left. intros x. by rewrite check_write_rhs_info. }
  assert (∀ e type, v = VisitSymtab e type → is_edge (getType e) = true →
          ∀ loop, inner_loop st = Some loop →
          info st' = add_info_bool loop GPS_FLAG_EDGE_DEFINING_INNER true
                       (add_info_bool (sym_addr e) GPS_FLAG_EDGE_DEFINED_INNER true
                          (info st))) as Hsym.
  { intros e ty -> Hedge loop Hloop. cbn [step] in H. unfold apply_symtab in H.
    rewrite Hedge, Hloop in H. by injection H as <- <-. }
  split; intros x.
  - destruct (Hcases GPS_FLAG_EDGE_DEFINED_INNER) as [Hsame|(e & ty & loop & -> & He & Hl & ->)];
      [by left| |].
    + rewrite Hsame. split; [by left|]. intros [?|(e & ty & loop & -> & <- & He & Hl)]; [done|].
      rewrite <- Hsame, (Hsym _ _ eq_refl He _ Hl).
      rewrite find_add_info_bool_ne by congruence. apply find_add_info_bool_eq.
    + rewrite find_add_info_bool_ne by congruence.
      destruct (decide (sym_addr e = x)) as [<-|Hne].
      * rewrite find_add_info_bool_eq. split; [|done]. intros _. right. eauto 10.
      * rewrite find_add_info_bool_ne by congruence.
        split; [by left|]. intros [?|(e' & ty' & loop' & [= <- <-] & ? & _)]; done.
  - destruct (Hcases GPS_FLAG_EDGE_DEFINING_INNER) as [Hsame|(e & ty & loop & -> & He & Hl & ->)];
      [by right| |].
    + rewrite Hsame. split; [by left|]. intros [?|(e & ty & -> & He & Hl)]; [done|].
      rewrite <- Hsame, (Hsym _ _ eq_refl He _ Hl). apply find_add_info_bool_eq.
    + destruct (decide (loop = x)) as [<-|Hne].
      * rewrite find_add_info_bool_eq. split; [|done]. intros _. right. eauto 10.
      * rewrite !find_add_info_bool_ne by congruence.
        split; [by left|]. intros [?|(e' & ty' & [= <- <-] & ? & ?)]; [done|congruence].
Qed.

(** C6, as the code has it.  After any run of callbacks, a symbol
    carries the defined-in-inner-loop mark if and only if it carried it
    before or its symbol-table entry, of edge type, was visited while an
    inner loop was current; a loop carries the defines-edge-variable mark
    if and only if it carried it before or it was the current inner loop
    at such a visit.  No binding statement is consulted. *)
Theorem defined_inner_iff_declared_in_inner_loop fuel ast vs : ∀ st0 st,
  run fuel ast vs st0 = Done st →
  (∀ x, find_info_bool x GPS_FLAG_EDGE_DEFINED_INNER (info st) = true ↔
        find_info_bool x GPS_FLAG_EDGE_DEFINED_INNER (info st0) = true
        ∨ ∃ e loop, sym_addr e = x ∧ is_edge (getType e) = true
            ∧ declared_in_inner_loop fuel ast st0 vs e loop)
  ∧ (∀ x, find_info_bool x GPS_FLAG_EDGE_DEFINING_INNER (info st) = true ↔
          find_info_bool x GPS_FLAG_EDGE_DEFINING_INNER (info st0) = true
          ∨ ∃ e, is_edge (getType e) = true
              ∧ declared_in_inner_loop fuel ast st0 vs e x).
Proof.
  induction vs as [|v vs IH]; intros st0 st Hrun.
  - injection Hrun as <-.
    split; intros x; (split; [by left|]); intros [?|Hdecl]; try done.
    + destruct Hdecl as (e & loop & _ & _ & [vs1 ty vs2 st1 Hvs _ _]).
      by destruct vs1.
    + destruct Hdecl as (e & _ & [vs1 ty vs2 st1 Hvs _ _]). by destruct vs1.
  - cbn [run] in Hrun.
    destruct (step fuel ast v st0) as [[c st1]| |] eqn:Hstep; try discriminate.
    cbn [mbind outcome_bind snd] in Hrun.
    destruct (IH st1 st Hrun) as [IHdef IHloop].
    destruct (step_marks _ _ _ _ _ _ Hstep) as [Sdef Sloop].
    assert (∀ e loop, declared_in_inner_loop fuel ast st0 (v :: vs) e loop ↔
              (∃ type, v = VisitSymtab e type ∧ inner_loop st0 = Some loop)
              ∨ declared_in_inner_loop fuel ast st1 vs e loop) as Hdecl.
    { intros e loop. split.
      - intros [[|v' vs1] ty vs2 st2 Hvs Hrun1 Hloop].
        + injection Hvs as -> ->. injection Hrun1 as <-. left. eauto.
        + injection Hvs as <- ->. right. cbn [run] in Hrun1. rewrite Hstep in Hrun1.
          by econstructor.
      - intros [(ty & -> & Hloop)|[vs1 ty vs2 st2 -> Hrun1 Hloop]].
        + by apply (declared_at _ _ _ _ _ _ [] ty vs st0).
        + apply (declared_at _ _ _ _ _ _ (v :: vs1) ty vs2 st2); [done| |done].
          cbn [run]. by rewrite Hstep. }
    split; intros x.
    + rewrite IHdef, Sdef. split.
      * intros [[?|(e & ty & loop & -> & <- & He & Hl)]|(e & loop & <- & He & Hd)].
        -- by left.
        -- right. exists e, loop. repeat split; try done. apply Hdecl. left. eauto.
        -- right. exists e, loop. repeat split; try done. apply Hdecl. by right.
      * intros [?|(e & loop & <- & He & Hd)]; [by left; left|].
        apply Hdecl in Hd as [(ty & -> & Hl)|Hd].
        -- left. right. eauto 10.
        -- right. eauto.
    + rewrite IHloop, Sloop. split.
      * intros [[?|(e & ty & -> & He & Hl)]|(e & He & Hd)].
        -- by left.
        -- right. exists e. split; [done|]. apply Hdecl. left. eauto.
        -- right. exists e. split; [done|]. apply Hdecl. by right.
      * intros [?|(e & He & Hd)]; [by left; left|].
        apply Hdecl in Hd as [(ty & -> & Hl)|Hd].
        -- left. right. eauto 10.
        -- right. eauto.
Qed.

(** * Further properties *)

(** ** What the states of the access state machine mean *)

Lemma table_fold_error_iff evs : ∀ s0,
  table_fold s0 evs = Some GPS_ENUM_EDGE_VALUE_ERROR
  ↔ events_to_error s0 `sublist_of` evs.
Proof.
  induction evs as [|ev evs IH]; intros s0.
  - unfold table_fold; simpl. rewrite sublist_nil_r.
    destruct s0 as [[]|]; simpl; split; (done || congruence).
  - rewrite table_fold_cons, IH, sublist_cons_r.
    destruct s0 as [[]|], ev; simpl; split;
      try (intros H; left; exact H);
      try (intros H; right; eexists; split; [reflexivity|exact H]);
      try (intros [H|(l & Hl & H)]; [exact H|discriminate Hl]);
      try (intros [H|(l & Hl & H)];
           [etrans; [apply sublist_cons; reflexivity|exact H]
           |injection Hl as <-; exact H]).
Qed.

Lemma table_fold_sent_write_iff evs : ∀ s0,
  (table_fold s0 evs = Some GPS_ENUM_EDGE_VALUE_SENT_WRITE
   ∨ table_fold s0 evs = Some GPS_ENUM_EDGE_VALUE_ERROR)
  ↔ events_to_sent_write s0 `sublist_of` evs.
Proof.
  induction evs as [|ev evs IH]; intros s0.
  - unfold table_fold; simpl. rewrite sublist_nil_r.
    destruct s0 as [[]|]; simpl; split; try done; try (intros [?|?]; congruence);
      intros _; eauto.
  - rewrite !table_fold_cons, IH, sublist_cons_r.
    destruct s0 as [[]|], ev; simpl; split;
      try (intros H; left; exact H);
      try (intros H; right; eexists; split; [reflexivity|exact H]);
      try (intros [H|(l & Hl & H)]; [exact H|discriminate Hl]);
      try (intros [H|(l & Hl & H)];
           [etrans; [apply sublist_cons; reflexivity|exact H]
           |injection Hl as <-; exact H]);
      try (intros _; apply sublist_nil_l).
Qed.

Lemma table_fold_Some_is_Some s evs : is_Some (table_fold (Some s) evs).
Proof.
  revert s. induction evs as [|ev evs IH]; intros s; [by eexists|].
  rewrite table_fold_cons. apply IH.
Qed.

Lemma table_fold_write_iff evs : ∀ s,
  table_fold (Some s) evs = Some GPS_ENUM_EDGE_VALUE_WRITE
  ↔ s = GPS_ENUM_EDGE_VALUE_WRITE ∧ Forall (eq write) evs.
Proof.
  induction evs as [|ev evs IH]; intros s.
  - unfold table_fold; simpl. split; [intros [= ->]; by split|by intros [-> _]].
  - rewrite table_fold_cons, IH, Forall_cons.
    destruct s, ev; simpl; split; try (by intros [[=] _]); try (by intros [_ [[=] _]]);
      try (by intros [[=] _]); try tauto.
Qed.

Lemma table_fold_sent_iff evs : ∀ s,
  table_fold (Some s) evs = Some GPS_ENUM_EDGE_VALUE_SENT
  ↔ s = GPS_ENUM_EDGE_VALUE_SENT ∧ Forall (eq send) evs.
Proof.
  induction evs as [|ev evs IH]; intros s.
  - unfold table_fold; simpl. split; [intros [= ->]; by split|by intros [-> _]].
  - rewrite table_fold_cons, IH, Forall_cons.
    destruct s, ev; simpl; split; try (by intros [[=] _]); try (by intros [_ [[=] _]]);
      try (by intros [[=] _]); try tauto.
Qed.

(** A sequence that starts with a send and holds a write has a send
    followed by a write. *)
Lemma send_then_write_sublist evs :
  head evs = Some send → write ∈ evs → [send; write] `sublist_of` evs.
Proof.
  destruct evs as [|ev evs]; [done|]. intros [= ->] Hin.
  apply elem_of_cons in Hin as [[=]|Hin].
  apply sublist_skip. apply list_elem_of_split in Hin as (l1 & l2 & ->).
  apply sublist_inserts_l. apply sublist_skip. apply sublist_nil_l.
Qed.

(** The meaning of the state of a pair after the events [evs], from no
    state at all. *)
Lemma table_fold_meaning evs :
  (table_fold None evs = None ↔ evs = [])
  ∧ (table_fold None evs = Some GPS_ENUM_EDGE_VALUE_WRITE
     ↔ evs ≠ [] ∧ Forall (eq write) evs)
  ∧ (table_fold None evs = Some GPS_ENUM_EDGE_VALUE_SENT
     ↔ evs ≠ [] ∧ Forall (eq send) evs)
  ∧ (table_fold None evs = Some GPS_ENUM_EDGE_VALUE_WRITE_SENT
     ↔ head evs = Some write ∧ send ∈ evs ∧ ¬ [send; write] `sublist_of` evs)
  ∧ (table_fold None evs = Some GPS_ENUM_EDGE_VALUE_SENT_WRITE
     ↔ [send; write] `sublist_of` evs ∧ ¬ [send; write; send] `sublist_of` evs)
  ∧ (table_fold None evs = Some GPS_ENUM_EDGE_VALUE_ERROR
     ↔ [send; write; send] `sublist_of` evs).
Proof.
  pose proof (table_fold_error_iff evs None) as Herr.
  pose proof (table_fold_sent_write_iff evs None) as Hsw.
  cbn [events_to_error events_to_sent_write] in Herr, Hsw.
  assert (table_fold None evs = None ↔ evs = []) as Hnone.
  { destruct evs as [|ev evs]; [done|]. rewrite table_fold_cons.
    destruct (table_fold_Some_is_Some (table_transition None ev) evs) as [s Hs].
    rewrite Hs. done. }
  assert (table_fold None evs = Some GPS_ENUM_EDGE_VALUE_WRITE
          ↔ evs ≠ [] ∧ Forall (eq write) evs) as Hw.
  { destruct evs as [|ev evs]; [split; [done|by intros [? _]]|].
    rewrite table_fold_cons, table_fold_write_iff, Forall_cons.
    destruct ev; simpl.
    - split; [by intros [[=] _]|by intros [_ [[=] _]]].
    - split; [intros [_ H]; by repeat split|intros [_ [_ H]]; by split]. }
  assert (table_fold None evs = Some GPS_ENUM_EDGE_VALUE_SENT
          ↔ evs ≠ [] ∧ Forall (eq send) evs) as Hs.
  { destruct evs as [|ev evs]; [split; [done|by intros [? _]]|].
    rewrite table_fold_cons, table_fold_sent_iff, Forall_cons.
    destruct ev; simpl.
    - split; [intros [_ H]; by repeat split|intros [_ [_ H]]; by split].
    - split; [by intros [[=] _]|by intros [_ [[=] _]]]. }
  split; [exact Hnone|]. split; [exact Hw|]. split; [exact Hs|].
  split; [|split; [|exact Herr]].
  - split.
    + intros Hws.
      assert (¬ [send; write] `sublist_of` evs) as Hno.
      { intros Hsub. apply Hsw in Hsub as [H|H]; congruence. }
      assert (evs ≠ []) as Hne by (intros H; apply Hnone in H; congruence).
      assert (head evs = Some write) as Hhead.
      { destruct evs as [|[] evs]; [done| |done]. exfalso.
        destruct (decide (Forall (eq send) (send :: evs))) as [Hall|Hnot].
        - assert (table_fold None (send :: evs) = Some GPS_ENUM_EDGE_VALUE_SENT)
            by (by apply Hs). congruence.
        - apply not_Forall_Exists in Hnot; [|apply _].
          apply Exists_exists in Hnot as ([] & Hin & Hx); [done|].
          apply Hno. by apply send_then_write_sublist. }
      split; [exact Hhead|]. split; [|exact Hno].
      destruct (decide (Forall (eq write) evs)) as [Hall|Hnot].
      * assert (table_fold None evs = Some GPS_ENUM_EDGE_VALUE_WRITE)
          by (by apply Hw). congruence.
      * apply not_Forall_Exists in Hnot; [|apply _].
        apply Exists_exists in Hnot as ([] & Hin & Hx); [exact Hin|done].
    + intros (Hhead & Hsend & Hno).
      destruct (table_fold None evs) as [[]|] eqn:Hstate; try reflexivity; exfalso.
      * destruct (proj1 Hw eq_refl) as [_ Hall].
        rewrite Forall_forall in Hall. by specialize (Hall _ Hsend).
      * destruct (proj1 Hs eq_refl) as [_ Hall]. destruct evs as [|ev evs]; [done|].
        injection Hhead as ->. by apply Forall_cons in Hall as [[=] _].
      * apply Hno, Hsw. by left.
      * apply Hno, Hsw. by right.
      * rewrite (proj1 Hnone eq_refl) in Hhead. done.
  - split.
    + intros Hstate. split; [apply Hsw; by left|].
      intros Hsub. apply Herr in Hsub. congruence.
    + intros [Hsub Hno]. apply Hsw in Hsub as [H|H]; [exact H|].
      by apply Herr in H.
Qed.

(** X1. The header of the file lists the access sequences of a property
    and their verdicts; the state machine decides exactly that.  From no
    prior state, a pair is in [ERROR] after a trace if and only if its
    events hold a send, later a write, later again a send. *)
Theorem error_iff_send_write_send fe e tr st :
  find_info_map_value fe GPS_MAP_EDGE_PROP_ACCESS e st = None →
  ∃ st', manage_trace tr st = Done st'
    ∧ (find_info_map_value fe GPS_MAP_EDGE_PROP_ACCESS e st'
       = Some GPS_ENUM_EDGE_VALUE_ERROR
       ↔ [send; write; send] `sublist_of` events_of fe e tr).
Proof.
  intros Hnone. destruct (manage_trace_table_fold_from fe e tr st) as (st' & Hrun & Hst').
  exists st'. split; [exact Hrun|]. rewrite Hst', Hnone.
  apply (table_fold_error_iff _ None).
Qed.

(** X2. The legal states say what happened to the property in the loop.
    From no prior state: no entry means no access; [WRITE] means only
    writes; [SENT] means only sends; [WRITE_SENT] means the first access
    is a write, there is a send, and no write follows a send;
    [SENT_WRITE] means a write follows a send and no send follows such a
    write. *)
Theorem legal_states_meaning fe e tr st :
  find_info_map_value fe GPS_MAP_EDGE_PROP_ACCESS e st = None →
  ∃ st', manage_trace tr st = Done st'
    ∧ (find_info_map_value fe GPS_MAP_EDGE_PROP_ACCESS e st' = None
       ↔ events_of fe e tr = [])
    ∧ (find_info_map_value fe GPS_MAP_EDGE_PROP_ACCESS e st'
       = Some GPS_ENUM_EDGE_VALUE_WRITE
       ↔ events_of fe e tr ≠ [] ∧ Forall (eq write) (events_of fe e tr))
    ∧ (find_info_map_value fe GPS_MAP_EDGE_PROP_ACCESS e st'
       = Some GPS_ENUM_EDGE_VALUE_SENT
       ↔ events_of fe e tr ≠ [] ∧ Forall (eq send) (events_of fe e tr))
    ∧ (find_info_map_value fe GPS_MAP_EDGE_PROP_ACCESS e st'
       = Some GPS_ENUM_EDGE_VALUE_WRITE_SENT
       ↔ head (events_of fe e tr) = Some write ∧ send ∈ events_of fe e tr
         ∧ ¬ [send; write] `sublist_of` events_of fe e tr)
    ∧ (find_info_map_value fe GPS_MAP_EDGE_PROP_ACCESS e st'
       = Some GPS_ENUM_EDGE_VALUE_SENT_WRITE
       ↔ [send; write] `sublist_of` events_of fe e tr
         ∧ ¬ [send; write; send] `sublist_of` events_of fe e tr).
Proof.
  intros Hnone. destruct (manage_trace_table_fold_from fe e tr st) as (st' & Hrun & Hst').
  exists st'. split; [exact Hrun|]. rewrite Hst', Hnone.
  destruct (table_fold_meaning (events_of fe e tr)) as (H0 & H1 & H2 & H3 & H4 & _).
  split; [exact H0|]. split; [exact H1|]. split; [exact H2|]. split; [exact H3|exact H4].
Qed.

(** ** The state machine under the callbacks *)

(** X3. The verdict of the header holds for the pass as a whole, through
    both callers of the state machine.  After any run of callbacks, a
    pair that had no state is in the state the table gives for the
    accesses the run made to it, and it is in [ERROR] if and only if
    these hold a send, later a write, later again a send. *)
Theorem run_error_iff_send_write_send fuel ast loop sym vs st st' :
  run fuel ast vs st = Done st' →
  access_state loop sym st = None →
  access_state loop sym st'
  = table_fold None (events_of loop sym (trace_of fuel ast vs st))
  ∧ (access_state loop sym st' = Some GPS_ENUM_EDGE_VALUE_ERROR
     ↔ [send; write; send] `sublist_of` events_of loop sym (trace_of fuel ast vs st)).
Proof.
  intros Hrun Hnone.
  pose proof (run_access_state_table_fold fuel ast loop sym vs st st' Hrun) as Hfold.
  rewrite Hnone in Hfold. split; [exact Hfold|].
  rewrite Hfold. apply (table_fold_error_iff _ None).
Qed.

Lemma step_error_kept fuel ast v st c st' loop sym :
  step fuel ast v st = Done (c, st') →
  access_state loop sym st = Some GPS_ENUM_EDGE_VALUE_ERROR →
  access_state loop sym st' = Some GPS_ENUM_EDGE_VALUE_ERROR.
Proof.
  intros H Hstate. rewrite (step_access_state _ _ _ _ _ _ loop sym H).
  destruct (event_of v st) as [a|]; [|done].
  destruct (decide _); [|done]. by rewrite Hstate.
Qed.

Lemma run_error_kept fuel ast vs loop sym : ∀ st st',
  run fuel ast vs st = Done st' →
  access_state loop sym st = Some GPS_ENUM_EDGE_VALUE_ERROR →
  access_state loop sym st' = Some GPS_ENUM_EDGE_VALUE_ERROR.
Proof.
  induction vs as [|v vs IH]; intros st st' Hrun Hstate.
  - by injection Hrun as <-.
  - cbn [run] in Hrun.
    destruct (step fuel ast v st) as [[c st1]| |] eqn:Hstep; try discriminate.
    cbn [mbind outcome_bind snd] in Hrun.
    apply (IH st1 st' Hrun). by apply (step_error_kept _ _ _ _ _ _ _ _ Hstep).
Qed.

(** A callback on the error row reports once and leaves its pair in
    [ERROR]; any other callback reports no two-versions diagnostic. *)
Lemma step_error_row fuel ast v st c st' :
  step fuel ast v st = Done (c, st') →
  length (reports_of GM_ERROR_GPS_EDGE_SEND_VERSIONS (added_reports st st'))
  = length (error_row_pair v st)
  ∧ Forall (λ p, access_state p.1 p.2 st = Some GPS_ENUM_EDGE_VALUE_SENT_WRITE
                 ∧ access_state p.1 p.2 st' = Some GPS_ENUM_EDGE_VALUE_ERROR)
      (error_row_pair v st).
Proof.
  intros H. destruct (step_send_versions _ _ _ _ _ _ H) as [Hyes Hno].
  unfold error_row_pair. destruct (event_of v st) as [a|] eqn:Hev.
  - destruct (is_error_transition _ _) eqn:Herr.
    + destruct (Hyes a eq_refl Herr) as (e & f & _ & _ & ->). split; [reflexivity|].
      apply is_error_transition_true in Herr as [Hstate Hsend].
      apply Forall_singleton. split; [exact Hstate|]. cbn [fst snd].
      rewrite (step_access_state _ _ _ _ _ _ (acc_loop a) (acc_sym a) H), Hev.
      rewrite decide_True by done. by rewrite Hstate, Hsend.
    + rewrite Hno; [by split|]. by intros a' [= <-].
  - rewrite Hno; [by split|]. by intros a' [=].
Qed.

Lemma added_reports_trans st st1 st' rs1 rs2 :
  reported st1 = reported st ++ rs1 → reported st' = reported st1 ++ rs2 →
  added_reports st st' = added_reports st st1 ++ added_reports st1 st'.
Proof.
  intros H1 H2. rewrite (added_reports_app _ _ _ H1), (added_reports_app _ _ _ H2).
  apply added_reports_app. by rewrite H2, H1, app_assoc.
Qed.

Lemma run_reported fuel ast vs : ∀ st st',
  run fuel ast vs st = Done st' → ∃ rs, reported st' = reported st ++ rs.
Proof.
  induction vs as [|v vs IH]; intros st st' Hrun.
  - injection Hrun as <-. exists []. by rewrite app_nil_r.
  - cbn [run] in Hrun.
    destruct (step fuel ast v st) as [[c st1]| |] eqn:Hstep; try discriminate.
    cbn [mbind outcome_bind snd] in Hrun.
    destruct (step_reported _ _ _ _ _ _ Hstep) as (rs1 & Hrs1 & _).
    destruct (IH st1 st' Hrun) as (rs2 & Hrs2).
    exists (rs1 ++ rs2). by rewrite Hrs2, Hrs1, app_assoc.
Qed.

(** No pair on which a run meets the error row is in [ERROR] before. *)
Lemma error_row_pairs_fresh fuel ast vs : ∀ st st',
  run fuel ast vs st = Done st' →
  Forall (λ p, access_state p.1 p.2 st ≠ Some GPS_ENUM_EDGE_VALUE_ERROR
               ∧ access_state p.1 p.2 st' = Some GPS_ENUM_EDGE_VALUE_ERROR)
    (error_row_pairs fuel ast vs st).
Proof.
  induction vs as [|v vs IH]; intros st st' Hrun; [constructor|].
  cbn [run error_row_pairs] in *.
  destruct (step fuel ast v st) as [[c st1]| |] eqn:Hstep; try discriminate.
  cbn [mbind outcome_bind snd] in *.
  destruct (step_error_row _ _ _ _ _ _ Hstep) as [_ Hrow].
  apply Forall_app. split.
  - eapply Forall_impl; [exact Hrow|]. intros p [Hsw Herr]. split; [congruence|].
    by apply (run_error_kept _ _ _ _ _ _ _ Hrun).
  - eapply Forall_impl; [exact (IH st1 st' Hrun)|]. intros p [Hfresh Herr].
    split; [|exact Herr]. intros Hstate. apply Hfresh.
    by apply (step_error_kept _ _ _ _ _ _ _ _ Hstep).
Qed.

(** X4. A pass reports a pair at most once.  The two-versions
    diagnostics of a run of callbacks are as many as the callbacks that
    met the error row of the table; these callbacks are on pairwise
    different pairs, none of which was in [ERROR] before, and all of which
    are in [ERROR] at the end. *)
Theorem send_versions_once_per_pair fuel ast vs : ∀ st st',
  run fuel ast vs st = Done st' →
  length (reports_of GM_ERROR_GPS_EDGE_SEND_VERSIONS (added_reports st st'))
  = length (error_row_pairs fuel ast vs st)
  ∧ NoDup (error_row_pairs fuel ast vs st)
  ∧ Forall (λ p, access_state p.1 p.2 st ≠ Some GPS_ENUM_EDGE_VALUE_ERROR
                 ∧ access_state p.1 p.2 st' = Some GPS_ENUM_EDGE_VALUE_ERROR)
      (error_row_pairs fuel ast vs st).
Proof.
  induction vs as [|v vs IH]; intros st st' Hrun.
  - injection Hrun as <-. rewrite added_reports_same by done.
    split; [done|]. split; constructor.
  - split; [|split; [|by apply error_row_pairs_fresh]];
      cbn [run error_row_pairs] in *;
      destruct (step fuel ast v st) as [[c st1]| |] eqn:Hstep; try discriminate;
      cbn [mbind outcome_bind snd] in *;
      destruct (IH st1 st' Hrun) as (IHlen & IHnodup & _);
      destruct (step_error_row _ _ _ _ _ _ Hstep) as [Hlen Hrow].
    + destruct (step_reported _ _ _ _ _ _ Hstep) as (rs1 & Hrs1 & _).
      destruct (run_reported _ _ _ _ _ Hrun) as (rs2 & Hrs2).
      rewrite (added_reports_trans _ _ _ _ _ Hrs1 Hrs2), reports_of_app.
      rewrite !length_app. by rewrite Hlen, IHlen.
    + apply NoDup_app. split; [|split; [|exact IHnodup]].
      * unfold error_row_pair. destruct (event_of v st); [|constructor].
        destruct (is_error_transition _ _); [apply NoDup_singleton|constructor].
      * intros p Hp Hin.
        rewrite Forall_forall in Hrow. destruct (Hrow p Hp) as [_ Herr].
        pose proof (error_row_pairs_fresh _ _ _ _ _ Hrun) as Hfresh.
        rewrite Forall_forall in Hfresh. destruct (Hfresh p Hin) as [Hne _]. done.
Qed.


(** ** What the pass leaves in the annotation store *)

Lemma find_info_list_add_eq owner k s st :
  find_info_list owner k (add_info_list_element owner k s st)
  = find_info_list owner k st ++ [s].
Proof.
  unfold find_info_list at 1, add_info_list_element; cbn.
  by rewrite lookup_insert_eq.
Qed.

Lemma find_info_list_add_ne owner k s owner' k' st :
  (owner, k) ≠ (owner', k') →
  find_info_list owner' k' (add_info_list_element owner k s st)
  = find_info_list owner' k' st.
Proof.
  intros Hne. unfold find_info_list, add_info_list_element; cbn.
  by rewrite lookup_insert_ne.
Qed.

(** The list of edge-property writes of a loop after one callback. *)
Lemma step_write_list fuel ast v st c st' loop :
  step fuel ast v st = Done (c, st') →
  find_info_list loop GPS_LIST_EDGE_PROP_WRITE (info st')
  = find_info_list loop GPS_LIST_EDGE_PROP_WRITE (info st)
    ++ (filter (λ p, p.1 = loop) (recorded_write v st)).*2.
Proof.
  intros H. unfold recorded_write. step_inv H; try rewrite Hev;
    try (by rewrite app_nil_r).
  - cbn [info acc_loop]. rewrite filter_cons. cbn [fst].
    change (find_info_list loop GPS_LIST_EDGE_PROP_WRITE (set_curr_state ?a ?b ?c ?i))
      with (find_info_list loop GPS_LIST_EDGE_PROP_WRITE i).
    destruct (decide (loop0 = loop)) as [->|Hne].
    + by rewrite find_info_list_add_eq.
    + rewrite find_info_list_add_ne by congruence. by rewrite app_nil_r.
  - rewrite Hinfo. by rewrite app_nil_r.
  - cbn. rewrite check_write_rhs_info. by rewrite app_nil_r.
  - rewrite check_write_rhs_info. by rewrite app_nil_r.
Qed.

(** X5. The list of edge-property writes of a loop is extended, over
    any run of callbacks, by exactly the assignments to an edge property
    through a marked base that were visited while that loop was the
    current inner loop, once per visit and in visiting order; nothing is
    removed or reordered. *)
Theorem write_list_records_writes fuel ast loop vs : ∀ st st',
  run fuel ast vs st = Done st' →
  find_info_list loop GPS_LIST_EDGE_PROP_WRITE (info st')
  = find_info_list loop GPS_LIST_EDGE_PROP_WRITE (info st)
    ++ (filter (λ p, p.1 = loop) (recorded_writes fuel ast vs st)).*2.
Proof.
  induction vs as [|v vs IH]; intros st st' Hrun.
  - injection Hrun as <-. by rewrite app_nil_r.
  - cbn [run recorded_writes] in *.
    destruct (step fuel ast v st) as [[c st1]| |] eqn:Hstep; try discriminate.
    cbn [mbind outcome_bind snd] in *.
    rewrite (IH st1 st' Hrun), (step_write_list _ _ _ _ _ _ loop Hstep).
    by rewrite filter_app, fmap_app, app_assoc.
Qed.

(** ** The defining-write flag *)

Lemma apply_sent_scalar_defining fuel ast s a lhs st :
  sent_class s = SENT_ASSIGN a → assign_lhs a = LHS_SCALA lhs →
  apply_sent fuel ast s st
  = Done (true,
          if defining_write s st
          then set_info (add_info_bool (sent_addr s) GPS_FLAG_EDGE_DEFINING_WRITE true
                           (info st)) st
          else st).
Proof.
  unfold apply_sent, defining_write, is_to_edge_conversion, defined_inner.
  intros -> ->.
  destruct (is_edge (getType (getSymInfo lhs))); [|reflexivity].
  destruct (find_info_bool _ GPS_FLAG_EDGE_DEFINED_INNER _); [|reflexivity].
  cbn [andb].
  destruct (expr_class (get_rhs a)) as [| |drv f_id|]; try reflexivity.
  by destruct (f_id =? GM_BLTIN_NODE_TO_EDGE).
Qed.

Lemma defining_write_scalar s st :
  defining_write s st = true →
  ∃ a lhs, sent_class s = SENT_ASSIGN a ∧ assign_lhs a = LHS_SCALA lhs.
Proof.
  unfold defining_write.
  destruct (sent_class s) as [|a| | |]; try discriminate.
  destruct (assign_lhs a) as [lhs|] eqn:Hlhs; try discriminate. eauto.
Qed.

(** Only the pre-order visit of a scalar assignment touches the
    defining-write flags. *)
Lemma step_defining_write_frame fuel ast v st c st' :
  step fuel ast v st = Done (c, st') →
  (∀ x, find_info_bool x GPS_FLAG_EDGE_DEFINING_WRITE (info st')
        = find_info_bool x GPS_FLAG_EDGE_DEFINING_WRITE (info st))
  ∨ ∃ s a lhs, v = VisitSent s ∧ sent_class s = SENT_ASSIGN a
               ∧ assign_lhs a = LHS_SCALA lhs.
Proof.
  intros H. step_inv H; try (left; intros x; reflexivity).
  - left. intros x. cbn [info set_info].
    by rewrite !find_add_info_bool_ne by congruence.
  - right. by exists s, a, i.
  - left. intros x. by rewrite Hinfo.
  - left. intros x. cbn. by rewrite check_write_rhs_info.
  - left. intros x. by rewrite check_write_rhs_info.
Qed.

(** X6. The defining-write flag of a statement is raised by the
    pre-order visit of that statement, when it is a scalar assignment to
    a marked symbol of edge type whose right-hand side is the
    iterator-to-edge builtin, and by no other callback; it is never
    lowered.  Neither the driver of the builtin nor the current inner
    loop takes part in the decision. *)
Theorem defining_write_flag_iff fuel ast v st c st' x :
  step fuel ast v st = Done (c, st') →
  (find_info_bool x GPS_FLAG_EDGE_DEFINING_WRITE (info st') = true
   ↔ find_info_bool x GPS_FLAG_EDGE_DEFINING_WRITE (info st) = true
     ∨ ∃ s, v = VisitSent s ∧ sent_addr s = x ∧ defining_write s st = true).
Proof.
  intros H.
  assert (∀ s, v = VisitSent s → defining_write s st = true →
          info st' = add_info_bool (sent_addr s) GPS_FLAG_EDGE_DEFINING_WRITE true (info st))
    as Hset.
  { intros s -> Hdw. destruct (defining_write_scalar s st Hdw) as (a & lhs & Hc & Hl).
    cbn [step] in H. rewrite (apply_sent_scalar_defining _ _ _ _ _ _ Hc Hl), Hdw in H.
    by injection H as <- <-. }
  destruct (step_defining_write_frame _ _ _ _ _ _ H)
    as [Hsame|(s & a & lhs & -> & Hc & Hl)].
  - rewrite Hsame. split; [by left|]. intros [?|(s & Hv & <- & Hdw)]; [done|].
    rewrite <- Hsame, (Hset s Hv Hdw). apply find_add_info_bool_eq.
  - cbn [step] in H. rewrite (apply_sent_scalar_defining _ _ _ _ _ _ Hc Hl) in H.
    destruct (defining_write s st) eqn:Hdw; injection H as <- <-.
    + cbn [info set_info]. destruct (decide (sent_addr s = x)) as [<-|Hne].
      * rewrite find_add_info_bool_eq. split; [|done]. intros _. right. eauto.
      * rewrite find_add_info_bool_ne by congruence.
        split; [by left|]. intros [?|(s' & [= <-] & ? & _)]; done.
    + split; [by left|]. intros [?|(s' & [= <-] & _ & ?)]; [done|congruence].
Qed.

(** ** The store only grows *)

Lemma store_grows_refl i : store_grows i i.
Proof. by split. Qed.

Lemma store_grows_trans i1 i2 i3 :
  store_grows i1 i2 → store_grows i2 i3 → store_grows i1 i3.
Proof.
  intros [A1 B1 C1 D1 E1 F1] [A2 B2 C2 D2 E2 F2]. split.
  - intros x k Hk. by rewrite A2, A1.
  - intros x k Hx. by apply B2, B1.
  - intros x k y Hx. by apply C2, C1.
  - intros x k y Hk. by rewrite D2, D1.
  - intros x k. etrans; [apply E1|apply E2].
  - intros x k Hk. by rewrite F2, F1.
Qed.

Lemma store_grows_add_bool x k i :
  ¬ input_key k → store_grows i (add_info_bool x k true i).
Proof.
  intros Hk. split; try done.
  - intros y k' Hk'. apply find_add_info_bool_ne. intros [= -> ->]. done.
  - intros y k' Hy. destruct (decide ((x, k) = (y, k'))) as [[= -> ->]|Hne].
    + apply find_add_info_bool_eq.
    + by rewrite find_add_info_bool_ne.
Qed.

Lemma store_grows_add_list x s i :
  store_grows i (add_info_list_element x GPS_LIST_EDGE_PROP_WRITE s i).
Proof.
  split; try done.
  - intros y k. destruct (decide ((x, GPS_LIST_EDGE_PROP_WRITE) = (y, k))) as [[= <- <-]|Hne].
    + rewrite find_info_list_add_eq. by apply prefix_app_r.
    + by rewrite find_info_list_add_ne.
  - intros y k Hk. apply find_info_list_add_ne. congruence.
Qed.

Lemma store_grows_set_curr_state fe e v i :
  store_grows i (set_curr_state fe e v i).
Proof.
  split; try done.
  - intros x k y Hx. destruct (decide ((fe, e) = (x, y) ∧ k = GPS_MAP_EDGE_PROP_ACCESS))
      as [[[= <- <-] ->]|Hne].
    + rewrite find_set_curr_state_eq. eauto.
    + unfold find_info_map_value, set_curr_state, add_info_map_key_value in *. cbn.
      rewrite lookup_insert_ne; [done|]. intros [= <- <- <-]. by apply Hne.
  - intros x k y Hk.
    unfold find_info_map_value, set_curr_state, add_info_map_key_value. cbn.
    rewrite lookup_insert_ne; [done|]. congruence.
Qed.

Lemma step_store_grows fuel ast v st c st' :
  step fuel ast v st = Done (c, st') → store_grows (info st) (info st').
Proof.
  intros H. step_inv H; try apply store_grows_refl.
  - cbn [info set_info]. eapply store_grows_trans; apply store_grows_add_bool;
      unfold input_key; intros (? & ? & ?); congruence.
  - cbn [info set_info]. apply store_grows_add_bool. unfold input_key; intros (? & ? & ?); congruence.
  - cbn [info]. eapply store_grows_trans; [|apply store_grows_set_curr_state].
    destruct conditional; apply store_grows_add_list.
  - rewrite Hinfo. apply store_grows_set_curr_state.
  - cbn. rewrite check_write_rhs_info. apply store_grows_refl.
  - rewrite check_write_rhs_info. apply store_grows_refl.
Qed.

(** X7. The pass never retracts anything.  Over any run of callbacks no
    flag of the annotation store is lowered, no entry of a map is
    removed, the lists and the diagnostics are only extended, the error
    flag is never taken back, and the annotations the pass reads but does
    not own (the inner-loop flags and the expression scopes) are left as
    they were found. *)
Theorem run_only_adds fuel ast vs : ∀ st st',
  run fuel ast vs st = Done st' →
  store_grows (info st) (info st')
  ∧ reported st `prefix_of` reported st'
  ∧ (is_error st = true → is_error st' = true).
Proof.
  induction vs as [|v vs IH]; intros st st' Hrun.
  - injection Hrun as <-. split; [apply store_grows_refl|]. by split.
  - cbn [run] in Hrun.
    destruct (step fuel ast v st) as [[c st1]| |] eqn:Hstep; try discriminate.
    cbn [mbind outcome_bind snd] in Hrun.
    destruct (IH st1 st' Hrun) as (Hg & Hp & He).
    destruct (step_reported _ _ _ _ _ _ Hstep) as (rs & Hrs & Hnil & Hcons).
    split; [|split].
    + eapply store_grows_trans; [|exact Hg]. by eapply step_store_grows.
    + etrans; [|exact Hp]. rewrite Hrs. by apply prefix_app_r.
    + intros Herr. apply He. unfold is_error in *.
      destruct rs as [|r rs]; [by rewrite Hnil|by apply Hcons].
Qed.

(** ** Procedures without an inner loop *)

Lemma step_no_inner_loop fuel ast v st :
  no_inner_loop st →
  ∃ st', step fuel ast v st = Done (true, st')
    ∧ no_inner_loop st'
    ∧ info st' = info st
    ∧ inner_iter st' = inner_iter st
    ∧ reported st' = reported st ++ random_read_report v.
Proof.
  intros (Hloop & Htarget & Hflag & Hmark).
  assert (∀ st', inner_loop st' = None → target_is_edge_prop st' = false →
                 info st' = info st → no_inner_loop st') as Hkeep.
  { intros st' ? ? Hinfo. unfold no_inner_loop. by rewrite Hinfo. }
  destruct v as [e ty|s|e|s]; cbn [step random_read_report].
  - unfold apply_symtab. rewrite Hloop. exists st. rewrite app_nil_r.
    split; [by destruct (is_edge _)|]. split; [by apply Hkeep|done].
  - exists st. rewrite app_nil_r. split; [|split; [by apply Hkeep|done]].
    unfold apply_sent. destruct (sent_class s) as [it|a| | |tag]; try reflexivity.
    + by rewrite Hflag.
    + destruct (assign_lhs a) as [lhs|lhs].
      * rewrite Hmark. by destruct (is_edge _).
      * rewrite Hmark. by destruct (is_edge_compatible _).
  - unfold apply_expr, check_write_rhs, edge_prop_read. rewrite Htarget.
    destruct (expr_class e) as [f| | |];
      try (exists st; rewrite app_nil_r; split; [reflexivity|];
           split; [by apply Hkeep|done]).
    destruct (is_edge_compatible (getSourceTypeInfo f)).
    + rewrite Hmark. cbn [negb]. eexists. split; [reflexivity|].
      split; [by apply Hkeep|done].
    + exists st. rewrite app_nil_r. split; [reflexivity|]. split; [by apply Hkeep|done].
  - unfold apply2. rewrite Hloop.
    destruct (sent_class s) as [it|a| | |tag];
      try (exists st; rewrite app_nil_r; split; [reflexivity|];
           split; [by apply Hkeep|done]).
    eexists. rewrite app_nil_r. split; [reflexivity|]. split; [by apply Hkeep|done].
Qed.

(** X8. Where no loop carries the inner-loop flag and no symbol is
    marked, every run of callbacks returns, leaves the annotation store
    as it was, and reports exactly the reads of edge properties, each as
    a random read at the position of its field, in visiting order.  No
    write is recorded or reported. *)
Theorem without_inner_loop_only_random_reads fuel ast vs : ∀ st,
  no_inner_loop st →
  ∃ st', run fuel ast vs st = Done st'
    ∧ info st' = info st
    ∧ reported st' = reported st ++ random_read_reports vs
    ∧ no_inner_loop st'.
Proof.
  induction vs as [|v vs IH]; intros st Hst.
  - exists st. cbn. by rewrite app_nil_r.
  - destruct (step_no_inner_loop fuel ast v st Hst)
      as (st1 & Hstep & Hst1 & Hinfo & _ & Hrep).
    destruct (IH st1 Hst1) as (st' & Hrun & Hinfo' & Hrep' & Hst').
    exists st'. cbn [run]. rewrite Hstep. cbn [mbind outcome_bind snd].
    split; [exact Hrun|]. split; [congruence|]. split; [|exact Hst'].
    rewrite Hrep', Hrep. unfold random_read_reports. cbn [flat_map].
    by rewrite app_assoc.
Qed.

(** ** The outcomes of the parent walk *)

Lemma climbs_parent_chain ast loop p between :
  climbs ast loop p between (Some loop) ↔ parent_chain ast loop p between.
Proof.
  split.
  - remember (Some loop) as q eqn:Hq. induction 1; subst; by constructor; eauto.
  - induction 1; econstructor; eauto.
Qed.

(** X9. The walk from an assignment towards the current inner loop
    answers [false] exactly when the loop is met on the parent links
    before any if, while or foreach, and [true] exactly when an if, while
    or foreach other than the loop is met first, whether or not the loop
    lies further up; in both cases with fuel for the statements passed.
    In every other case it does not return. *)
Theorem parent_walk_outcomes ast loop : ∀ fuel p,
  (check_conditional fuel ast (Some loop) p = Done false
   ↔ ∃ between, climbs ast loop p between (Some loop)
       ∧ Forall (λ s, ¬ conditional_sent s) between
       ∧ (length between < fuel)%nat)
  ∧ (check_conditional fuel ast (Some loop) p = Done true
     ↔ ∃ between q node, climbs ast loop p between (Some q)
         ∧ Forall (λ s, ¬ conditional_sent s) between
         ∧ q ≠ loop ∧ ast !! q = Some node ∧ conditional_sent node
         ∧ (length between < fuel)%nat).
Proof.
  induction fuel as [|fuel IH]; intros p.
  { split; (split; [discriminate|]).
    - intros (? & _ & _ & ?); lia.
    - intros (? & ? & ? & _ & _ & _ & _ & _ & ?); lia. }
  cbn [check_conditional].
  destruct (decide (p = Some loop)) as [->|Hp].
  { split.
    - split; [|done]. intros _. exists []. split; [constructor|].
      split; [constructor|cbn; lia].
    - split; [discriminate|].
      intros (between & q & node & Hclimb & _ & Hq & _).
      inversion Hclimb; congruence. }
  destruct p as [p|].
  2:{ split; (split; [discriminate|]).
      - intros (between & Hclimb & _). inversion Hclimb.
      - intros (between & q & node & Hclimb & _). inversion Hclimb. }
  assert (p ≠ loop) as Hne by congruence.
  destruct (ast !! p) as [node|] eqn:Hnode.
  2:{ split; (split; [discriminate|]).
      - intros (between & Hclimb & _). inversion Hclimb; congruence.
      - intros (between & q & node & Hclimb & _ & _ & Hq & _).
        inversion Hclimb; congruence. }
  destruct (is_conditional_kind (get_nodetype node)) eqn:Hkind.
  { apply is_conditional_kind_spec in Hkind. split.
    - split; [discriminate|].
      intros (between & Hclimb & Hall & _). inversion Hclimb; subst; [congruence|].
      apply Forall_cons in Hall as [Hnot _]. congruence.
    - split; [|done]. intros _. exists [], p, node.
      split; [constructor|]. split; [constructor|]. repeat split; (done || cbn; lia). }
  assert (¬ conditional_sent node) as Hnot.
  { rewrite <- is_conditional_kind_spec. congruence. }
  destruct (get_parent node) as [p'|] eqn:Hparent.
  2:{ split; (split; [discriminate|]).
      - intros (between & Hclimb & _). inversion Hclimb as [|? ? ? ? _ Hn Hrest]; subst;
          [congruence|]. rewrite Hnode in Hn. injection Hn as <-.
        rewrite Hparent in Hrest. inversion Hrest.
      - intros (between & q & node' & Hclimb & _ & _ & Hq & Hcond & _).
        inversion Hclimb as [|? ? ? ? _ Hn Hrest]; subst; [congruence|].
        rewrite Hnode in Hn. injection Hn as <-.
        rewrite Hparent in Hrest. inversion Hrest. }
  destruct (IH (Some p')) as [IHf IHt]. split.
  - rewrite IHf. split.
    + intros (between & Hclimb & Hall & Hlen). exists (node :: between).
      split; [econstructor; eauto; by rewrite Hparent|].
      split; [by constructor|cbn; lia].
    + intros (between & Hclimb & Hall & Hlen).
      inversion Hclimb as [|? ? rest ? _ Hn Hrest]; subst; [congruence|].
      rewrite Hnode in Hn. injection Hn as <-. rewrite Hparent in Hrest.
      apply Forall_cons in Hall as [_ Hall]. cbn in Hlen.
      exists rest. split; [done|]. split; [done|lia].
  - rewrite IHt. split.
    + intros (between & q & node' & Hclimb & Hall & Hq & Hn & Hcond & Hlen).
      exists (node :: between), q, node'.
      split; [econstructor; eauto; by rewrite Hparent|].
      split; [by constructor|]. repeat split; (done || cbn; lia).
    + intros (between & q & node' & Hclimb & Hall & Hq & Hn' & Hcond & Hlen).
      inversion Hclimb as [|? ? rest ? _ Hn Hrest]; subst; [congruence|].
      rewrite Hnode in Hn. injection Hn as <-. rewrite Hparent in Hrest.
      apply Forall_cons in Hall as [_ Hall]. cbn in Hlen.
      exists rest, q, node'. repeat split; (done || lia).
Qed.

(** ** The inner loop across a whole subtree *)

Lemma inner_kept_or_cleared_trans st1 st2 st3 :
  inner_kept_or_cleared st1 st2 → inner_kept_or_cleared st2 st3 →
  inner_kept_or_cleared st1 st3.
Proof. unfold inner_kept_or_cleared. intros [?|?] [?|?]; (by left; congruence) || (right; congruence). Qed.

Lemma run_flat_map_inner fuel ast ns :
  Forall (λ n, ∀ st st', run fuel ast (visits n) st = Done st' →
                         inner_kept_or_cleared st st') ns →
  ∀ st st', run fuel ast (flat_map visits ns) st = Done st' →
            inner_kept_or_cleared st st'.
Proof.
  induction 1 as [|n ns Hn _ IH]; intros st st' Hrun.
  - injection Hrun as <-. by left.
  - cbn [flat_map] in Hrun. rewrite run_app in Hrun.
    destruct (run fuel ast (visits n) st) as [st1| |] eqn:Hn1; try discriminate.
    cbn [mbind outcome_bind] in Hrun.
    eapply inner_kept_or_cleared_trans; [by apply Hn|by apply IH].
Qed.

Lemma run_cons_inv fuel ast v vs st st' :
  run fuel ast (v :: vs) st = Done st' →
  ∃ c st1, step fuel ast v st = Done (c, st1) ∧ run fuel ast vs st1 = Done st'.
Proof.
  cbn [run]. destruct (step fuel ast v st) as [[c st1]| |]; try discriminate.
  cbn [mbind outcome_bind snd]. eauto.
Qed.

Lemma run_snoc_inv fuel ast v vs st st' :
  run fuel ast (vs ++ [v]) st = Done st' →
  ∃ c st1, run fuel ast vs st = Done st1 ∧ step fuel ast v st1 = Done (c, st').
Proof.
  rewrite run_app. destruct (run fuel ast vs st) as [st1| |]; try discriminate.
  cbn [mbind outcome_bind]. intros H.
  destruct (run_cons_inv _ _ _ _ _ _ H) as (c & st2 & Hstep & [= <-]). eauto.
Qed.

(** X10. The visitor keeps one inner loop, not a stack.  After the
    callbacks of a whole subtree the current inner loop and iterator are
    as before or both null, and after a foreach that carries the
    inner-loop flag they are null: a flagged loop that encloses it is not
    current any more for the statements that follow. *)
Theorem subtree_leaves_inner_loop fuel ast t : ∀ st st',
  run fuel ast (visits t) st = Done st' →
  inner_kept_or_cleared st st'
  ∧ (flagged_foreach t st → inner_loop st' = None ∧ inner_iter st' = None).
Proof.
  induction t as [e ty|e subs IH|s children IH] using ast_node_forall_ind;
    intros st st' Hrun; cbn [visits flagged_foreach] in *.
  - split; [|done].
    destruct (run_cons_inv _ _ _ _ _ _ Hrun) as (c & st1 & Hstep & [= <-]).
    left. exact (step_inner _ _ _ _ _ _ Hstep).
  - split; [|done].
    destruct (run_cons_inv _ _ _ _ _ _ Hrun) as (c & st1 & Hstep & Hsubs).
    eapply inner_kept_or_cleared_trans.
    + left. exact (step_inner _ _ _ _ _ _ Hstep).
    + eapply run_flat_map_inner; [|exact Hsubs].
      eapply Forall_impl; [exact IH|]. intros n Hn st2 st3 H23. by apply Hn.
  - destruct (run_cons_inv _ _ _ _ _ _ Hrun) as (c & st1 & Hpre & Hrest).
    destruct (run_snoc_inv _ _ _ _ _ _ Hrest) as (c' & st2 & Hmid & Hpost).
    assert (inner_kept_or_cleared st1 st2) as H12.
    { eapply run_flat_map_inner; [|exact Hmid].
      eapply Forall_impl; [exact IH|]. intros n Hn st3 st4 H34. by apply Hn. }
    apply step_inner in Hpre, Hpost. unfold inner_kept_or_cleared in *.
    unfold get_nodetype in *.
    destruct (sent_class s) as [it|a| | |tag] eqn:Hclass.
    + destruct (find_info_bool (sent_addr s) GPS_FLAG_IS_INNER_LOOP (info st)) eqn:Hflag.
      * assert ((inner_loop st', inner_iter st') = (None, None)) as [= -> ->].
        { destruct (decide _) as [[_ Hcur]|Hno]; [done|].
          rewrite Hpost. destruct H12 as [H12|H12]; [|done].
          rewrite Hpre in H12. injection H12 as Hl _. exfalso. apply Hno. by split. }
        split; [by right|done].
      * split; [|by intros [_ ?]].
        destruct (decide _); [by right|]. rewrite Hpost, <- Hpre. exact H12.
    + split; [|by intros [? _]].
      rewrite decide_False in Hpost by (by intros [? _]). rewrite Hpost, <- Hpre. exact H12.
    + split; [|by intros [? _]].
      rewrite decide_False in Hpost by (by intros [? _]). rewrite Hpost, <- Hpre. exact H12.
    + split; [|by intros [? _]].
      rewrite decide_False in Hpost by (by intros [? _]). rewrite Hpost, <- Hpre. exact H12.
    + split; [|by intros [? _]].
      rewrite decide_False in Hpost by (by intros [? _]). rewrite Hpost, <- Hpre. exact H12.
Qed.

(** ** The inner iterator *)

Lemma check_write_rhs_set_inner_iter it e st :
  check_write_rhs e (set_inner_iter it st) = set_inner_iter it (check_write_rhs e st).
Proof.
  unfold check_write_rhs, scope_is_inner_or_random. cbn.
  destruct (target_is_edge_prop st); [|reflexivity].
  destruct (_ || _); [|reflexivity].
  by destruct (expr_class e).
Qed.

Lemma step_ignores_inner_iter fuel ast v it st :
  outcome_map (λ r, (r.1, forget_inner_iter r.2)) (step fuel ast v (set_inner_iter it st))
  = outcome_map (λ r, (r.1, forget_inner_iter r.2)) (step fuel ast v st).
Proof.
  destruct v as [e ty|s|e|s]; cbn [step].
  - unfold apply_symtab. cbn.
    by destruct (is_edge (getType e)), (inner_loop st).
  - unfold apply_sent. cbn -[manage_edge_prop_access_state check_conditional].
    destruct (sent_class s) as [iter|a| | |tag]; try reflexivity.
    + by destruct (find_info_bool _ _ _).
    + destruct (assign_lhs a) as [lhs|lhs].
      * destruct (is_edge _); [|reflexivity].
        destruct (find_info_bool _ _ _); [|reflexivity].
        destruct (expr_class (get_rhs a)); try reflexivity.
        by destruct (_ =? _).
      * destruct (is_edge_compatible _); [|reflexivity].
        destruct (find_info_bool _ _ _); [|reflexivity].
        destruct (check_conditional fuel ast (inner_loop st) (get_parent s))
          as [conditional| |]; try reflexivity.
        cbn [mbind outcome_bind].
        destruct conditional; cbn -[manage_edge_prop_access_state];
          destruct (inner_loop st) as [loop|]; try reflexivity.
        all: destruct (manage_edge_prop_access_state _ _ _ _) as [[b i]| |];
          try reflexivity; cbn; by destruct b.
  - unfold apply_expr. rewrite check_write_rhs_set_inner_iter.
    destruct (expr_class e) as [f| | |]; try reflexivity.
    destruct (is_edge_compatible _); [|reflexivity].
    cbn [info set_inner_iter set_inner inner_loop].
    rewrite !check_write_rhs_info, !check_write_rhs_inner_loop.
    destruct (negb _); [reflexivity|].
    destruct (manage_edge_prop_access_state _ _ _ _) as [[b i]| |];
      try reflexivity; cbn; by destruct b.
  - unfold apply2. cbn.
    destruct (sent_class s); try reflexivity.
    by destruct (decide _).
Qed.

(** X11. The inner iterator is recorded and never consulted: started
    with any other value in that field, a run of callbacks fails or
    returns alike, and returns the same annotation store, diagnostics,
    error flag, inner loop and target flag. *)
Theorem inner_iter_is_never_read fuel ast vs : ∀ it st,
  outcome_map forget_inner_iter (run fuel ast vs (set_inner_iter it st))
  = outcome_map forget_inner_iter (run fuel ast vs st).
Proof.
  induction vs as [|v vs IH]; intros it st; [reflexivity|].
  cbn [run].
  pose proof (step_ignores_inner_iter fuel ast v it st) as Hstep.
  destruct (step fuel ast v (set_inner_iter it st)) as [[c1 st1]| |],
           (step fuel ast v st) as [[c2 st2]| |]; try discriminate; try reflexivity.
  cbn [mbind outcome_bind snd outcome_map fst] in *.
  assert (forget_inner_iter st1 = forget_inner_iter st2) as Hforget.
  { apply (f_equal (λ o, match o with Done r => r.2 | _ => st end)) in Hstep.
    exact Hstep. }
  rewrite <- (IH None st1), <- (IH None st2).
  unfold forget_inner_iter in Hforget. by rewrite Hforget.
Qed.

(** ** Where the diagnostics come from *)

Lemma check_write_rhs_reports_at e st r :
  r ∈ added_reports st (check_write_rhs e st) → reports_at (VisitExpr e) r.
Proof.
  unfold check_write_rhs, reports_at.
  destruct (target_is_edge_prop st), (scope_is_inner_or_random e st),
    (expr_class e) as [f|i| |];
    try (rewrite added_reports_same by reflexivity; by intros ?%elem_of_nil).
  - erewrite added_reports_app by reflexivity. intros ->%list_elem_of_singleton. by left.
  - erewrite added_reports_app by reflexivity. by intros ->%list_elem_of_singleton.
Qed.

Lemma step_reports_at fuel ast v st c st' r :
  step fuel ast v st = Done (c, st') →
  r ∈ added_reports st st' → reports_at v r.
Proof.
  intros H. step_inv H;
    try (rewrite added_reports_same by reflexivity; by intros ?%elem_of_nil).
  - erewrite added_reports_app by reflexivity. destruct conditional.
    + intros ->%list_elem_of_singleton. eexists. split; [exact Htarget|reflexivity].
    + by intros ?%elem_of_nil.
  - destruct (added_reports_expr e st st' _ Hrep) as (rhs & -> & _ & <-).
    intros [Hr|Hr]%elem_of_app; [by apply (check_write_rhs_reports_at e st)|].
    unfold reports_at. pose proof Hread as Hread'. unfold edge_prop_read in Hread'.
    destruct (expr_class e) as [f'| | |]; try discriminate.
    destruct (is_edge_compatible _); try discriminate. injection Hread' as ->.
    destruct (is_error_transition _ _); [|by apply elem_of_nil in Hr].
    apply list_elem_of_singleton in Hr as ->. right. split; [done|by right].
  - assert (reported (set_error true
               (gm_backend_error GM_ERROR_GPS_EDGE_READ_RANDOM (field_line f)
                  (field_col f) None (check_write_rhs e st)))
            = reported (check_write_rhs e st)
              ++ [mk_report GM_ERROR_GPS_EDGE_READ_RANDOM (field_line f) (field_col f) None])
      as Hrep by reflexivity.
    destruct (added_reports_expr e st _ _ Hrep) as (rhs & -> & _ & <-).
    intros [Hr|Hr]%elem_of_app; [by apply (check_write_rhs_reports_at e st)|].
    unfold reports_at. pose proof Hread as Hread'. unfold edge_prop_read in Hread'.
    destruct (expr_class e) as [f'| | |]; try discriminate.
    destruct (is_edge_compatible _); try discriminate. injection Hread' as ->.
    apply list_elem_of_singleton in Hr as ->. right. split; [done|by left].
  - apply (check_write_rhs_reports_at e st).
Qed.

(** X12. Every diagnostic of a run of callbacks belongs to a visit of
    that run: a conditional-write report stands at the target field of a
    visited assignment to an edge property, a right-hand-side report at a
    visited field or identifier with its base name, a random-read or
    two-versions report at a visited read of an edge property.  The
    declarations and the post-order visits report nothing. *)
Theorem diagnostics_come_from_visits fuel ast vs : ∀ st st' r,
  run fuel ast vs st = Done st' →
  r ∈ added_reports st st' →
  ∃ v, v ∈ vs ∧ reports_at v r.
Proof.
  induction vs as [|v vs IH]; intros st st' r Hrun Hr.
  - injection Hrun as <-. rewrite added_reports_same in Hr by reflexivity.
    by apply elem_of_nil in Hr.
  - destruct (run_cons_inv _ _ _ _ _ _ Hrun) as (c & st1 & Hstep & Hrest).
    destruct (step_reported _ _ _ _ _ _ Hstep) as (rs1 & Hrs1 & _).
    destruct (run_reported _ _ _ _ _ Hrest) as (rs2 & Hrs2).
    rewrite (added_reports_trans _ _ _ _ _ Hrs1 Hrs2) in Hr.
    apply elem_of_app in Hr as [Hr|Hr].
    + exists v. split; [by left|]. by eapply step_reports_at.
    + destruct (IH _ _ _ Hrest Hr) as (v' & Hv' & Hat).
      exists v'. split; [by right|done].
Qed.

(** ** What an accepted run guarantees *)

Lemma run_error_flag_kept fuel ast vs : ∀ st st',
  run fuel ast vs st = Done st' → _error st = true → _error st' = true.
Proof.
  induction vs as [|v vs IH]; intros st st' Hrun Herr.
  - by injection Hrun as <-.
  - destruct (run_cons_inv _ _ _ _ _ _ Hrun) as (c & st1 & Hstep & Hrest).
    apply (IH _ _ Hrest).
    destruct (step_reported _ _ _ _ _ _ Hstep) as (rs & _ & Hnil & Hcons).
    destruct rs as [|r rs]; [by rewrite Hnil|by apply Hcons].
Qed.

Lemma table_transition_error s ev :
  table_transition s ev = GPS_ENUM_EDGE_VALUE_ERROR →
  s = Some GPS_ENUM_EDGE_VALUE_ERROR ∨ is_error_transition s ev = true.
Proof. destruct s as [[]|], ev; cbn; intros; try discriminate; ((by left) || (by right)). Qed.

(** A callback that moves a pair into the error state reports the two
    versions and raises the error flag. *)
Lemma step_fresh_error_flagged fuel ast v st c st' loop sym :
  step fuel ast v st = Done (c, st') →
  access_state loop sym st ≠ Some GPS_ENUM_EDGE_VALUE_ERROR →
  access_state loop sym st' = Some GPS_ENUM_EDGE_VALUE_ERROR →
  _error st' = true
  ∧ ∃ r, r ∈ added_reports st st' ∧ rep_code r = GM_ERROR_GPS_EDGE_SEND_VERSIONS.
Proof.
  intros H Hfresh Herr.
  rewrite (step_access_state _ _ _ _ _ _ loop sym H) in Herr.
  destruct (event_of v st) as [a|] eqn:Hev; [|done].
  destruct (decide _) as [[<- <-]|]; [|done].
  injection Herr as Herr. apply table_transition_error in Herr as [?|Hrow]; [done|].
  destruct (step_send_versions _ _ _ _ _ _ H) as [Hyes _].
  destruct (Hyes a Hev Hrow) as (e & f & _ & _ & Hrep).
  destruct (step_reported _ _ _ _ _ _ H) as (rs & Hrs & _ & Hcons).
  split.
  - apply Hcons. intros ->. rewrite (added_reports_app _ _ _ Hrs) in Hrep. discriminate.
  - eexists. apply reports_of_elem. rewrite Hrep. by left.
Qed.

Lemma run_fresh_error_flagged fuel ast loop sym vs : ∀ st st',
  run fuel ast vs st = Done st' →
  access_state loop sym st ≠ Some GPS_ENUM_EDGE_VALUE_ERROR →
  access_state loop sym st' = Some GPS_ENUM_EDGE_VALUE_ERROR →
  _error st' = true
  ∧ ∃ r, r ∈ added_reports st st' ∧ rep_code r = GM_ERROR_GPS_EDGE_SEND_VERSIONS.
Proof.
  induction vs as [|v vs IH]; intros st st' Hrun Hfresh Herr.
  - injection Hrun as <-. done.
  - destruct (run_cons_inv _ _ _ _ _ _ Hrun) as (c & st1 & Hstep & Hrest).
    destruct (step_reported _ _ _ _ _ _ Hstep) as (rs1 & Hrs1 & _).
    destruct (run_reported _ _ _ _ _ Hrest) as (rs2 & Hrs2).
    rewrite (added_reports_trans _ _ _ _ _ Hrs1 Hrs2).
    destruct (decide (access_state loop sym st1 = Some GPS_ENUM_EDGE_VALUE_ERROR))
      as [Hmid|Hmid].
    + destruct (step_fresh_error_flagged _ _ _ _ _ _ _ _ Hstep Hfresh Hmid)
        as (Hflag & r & Hr & Hcode).
      split; [by apply (run_error_flag_kept _ _ _ _ _ Hrest)|].
      exists r. split; [|done]. apply elem_of_app. by left.
    + destruct (IH _ _ Hrest Hmid Herr) as (Hflag & r & Hr & Hcode).
      split; [done|]. exists r. split; [|done]. apply elem_of_app. by right.
Qed.

(** X13. No run that sends two versions is accepted: when the accesses
    a run of callbacks presents for an inner loop and an edge property
    that had no state at the start contain a read, a later write and a
    still later read, the run ends with the error flag raised and a
    two-versions diagnostic among those it added.  So a run that ends
    with the flag down has sent at most one version of every property. *)
Theorem send_write_send_is_rejected fuel ast loop sym vs st st' :
  run fuel ast vs st = Done st' →
  access_state loop sym st = None →
  [send; write; send] `sublist_of` events_of loop sym (trace_of fuel ast vs st) →
  is_error st' = true
  ∧ ∃ r, r ∈ added_reports st st' ∧ rep_code r = GM_ERROR_GPS_EDGE_SEND_VERSIONS.
Proof.
  intros Hrun Hnone Hsub.
  pose proof (run_access_state_table_fold _ _ loop sym _ _ _ Hrun) as Hfold.
  rewrite Hnone in Hfold.
  apply (table_fold_error_iff _ None) in Hsub. rewrite <- Hfold in Hsub.
  apply (run_fresh_error_flagged _ _ loop sym _ _ _ Hrun); [|done].
  by rewrite Hnone.
Qed.

End Visitor.

(** * The sample procedures *)

(** The listing without its last line passes: nothing is reported, [A]
    and [B] both end in [SENT_WRITE], the three writes are listed, and
    the binding of [e] is flagged as the defining write. *)
Example legal_example_passes :
  ∃ st, process sample_scope_in sample_scope_random sample_to_edge
          legal_example inner_flagged = Done (true, st)
    ∧ reported st = []
    ∧ access_state 2 104 st = Some GPS_ENUM_EDGE_VALUE_SENT_WRITE
    ∧ access_state 2 105 st = Some GPS_ENUM_EDGE_VALUE_SENT_WRITE
    ∧ find_info_list 2 GPS_LIST_EDGE_PROP_WRITE (info st) = [5; 7; 8]%nat
    ∧ find_info_bool 4 GPS_FLAG_EDGE_DEFINING_WRITE (info st) = true
    ∧ find_info_bool 103 GPS_FLAG_EDGE_DEFINED_INNER (info st) = true
    ∧ find_info_bool 2 GPS_FLAG_EDGE_DEFINING_INNER (info st) = true.
Proof.
  vm_compute. eexists. split; [reflexivity|]. repeat split; vm_compute; reflexivity.
Qed.

(** The whole listing fails with one diagnostic, at the last read of
    [e.B], and [B] ends in [ERROR]. *)
Example header_example_sends_two_versions :
  ∃ st, process sample_scope_in sample_scope_random sample_to_edge
          header_example inner_flagged = Done (false, st)
    ∧ reported st = [mk_report GM_ERROR_GPS_EDGE_SEND_VERSIONS 8 20 (Some "e")]
    ∧ access_state 2 104 st = Some GPS_ENUM_EDGE_VALUE_SENT_WRITE
    ∧ access_state 2 105 st = Some GPS_ENUM_EDGE_VALUE_ERROR.
Proof.
  vm_compute. eexists. split; [reflexivity|]. repeat split; vm_compute; reflexivity.
Qed.

Example conditional_example_is_reported :
  ∃ st, process sample_scope_in sample_scope_random sample_to_edge
          conditional_example inner_flagged = Done (false, st)
    ∧ reported st = [mk_report GM_ERROR_GPS_EDGE_WRITE_CONDITIONAL 4 27 None].
Proof. vm_compute. eexists. split; reflexivity. Qed.

(** [e.B = s.Y;] passes without a diagnostic, whether [find_info_bool]
    reads [true] for the scope of [s.Y] or [false]. *)
Example rhs_example_is_not_reported :
  (∃ st, process sample_scope_in sample_scope_random sample_to_edge
           rhs_example inner_flagged_scoped = Done (true, st)
     ∧ reported st = [])
  ∧ (∃ st, process sample_scope_in sample_scope_random sample_to_edge
             rhs_example inner_flagged = Done (true, st)
       ∧ reported st = []).
Proof. split; vm_compute; eexists; split; reflexivity. Qed.

Example random_read_example_is_reported :
  ∃ st, process sample_scope_in sample_scope_random sample_to_edge
          random_read_example inner_flagged = Done (false, st)
    ∧ reported st = [mk_report GM_ERROR_GPS_EDGE_READ_RANDOM 4 21 None].
Proof. vm_compute. eexists. split; reflexivity. Qed.

(** * Instances of the properties *)

(** C1 on the accesses of the header listing: [B] is sent, written and
    sent again, with a write of [A] in between. *)
Lemma manage_trace_table_fold_witness :
  find_info_map_value 2 GPS_MAP_EDGE_PROP_ACCESS 105 empty_store = None
  ∧ ∃ st', manage_trace
             [mk_access 2 105 send; mk_access 2 104 write; mk_access 2 105 write;
              mk_access 2 105 send] empty_store = Done st'
      ∧ find_info_map_value 2 GPS_MAP_EDGE_PROP_ACCESS 105 st'
        = table_fold None [send; write; send].
Proof.
  split; [reflexivity|].
  apply (manage_trace_table_fold 2 105
           [mk_access 2 105 send; mk_access 2 104 write; mk_access 2 105 write;
            mk_access 2 105 send] empty_store).
  reflexivity.
Defined.

(** C2 on the last read of [e.B], met with [B] in [SENT_WRITE]. *)
Lemma send_versions_reported_iff_witness :
  ∃ st', step sample_scope_in sample_scope_random sample_to_edge 0 ∅
           (VisitExpr read_eB') before_second_send = Done (true, st')
    ∧ reports_of GM_ERROR_GPS_EDGE_SEND_VERSIONS (added_reports before_second_send st')
      = [mk_report GM_ERROR_GPS_EDGE_SEND_VERSIONS 8 20 (Some "e")]
    ∧ access_state 2 105 st' = Some GPS_ENUM_EDGE_VALUE_ERROR.
Proof.
  assert (∃ st', step sample_scope_in sample_scope_random sample_to_edge 0 ∅
                   (VisitExpr read_eB') before_second_send = Done (true, st'))
    as [st' Hstep] by (vm_compute; eexists; reflexivity).
  assert (event_of (VisitExpr read_eB') before_second_send
          = Some (mk_access 2 105 send)) as Hev by (vm_compute; reflexivity).
  assert (access_state 2 105 before_second_send = Some GPS_ENUM_EDGE_VALUE_SENT_WRITE)
    as Hstate by (vm_compute; reflexivity).
  exists st'. split; [exact Hstep|].
  destruct (proj2 (send_versions_reported_iff sample_scope_in sample_scope_random
                     sample_to_edge 0 ∅ (VisitExpr read_eB') before_second_send)
              true st' Hstep)
    as (_ & Hsend & _).
  destruct (Hsend (mk_access 2 105 send) Hev eq_refl Hstate)
    as (e & f & Hv & Hread & Hreps & Hafter).
  injection Hv as <-. injection Hread as <-. split; [exact Hreps|exact Hafter].
Defined.

(** C3 on [if (s.Y > 10) e.C = 10;]: the if and the block lie between
    the assignment and the inner loop. *)
Lemma conditional_write_reported_iff_witness :
  edge_prop_target write_C = Some (field id_e sym_C "C" 4 27)
  ∧ defined_inner (id_e 4 27) in_inner_loop = true
  ∧ inner_loop in_inner_loop = Some 2%nat
  ∧ parent_chain (ast_of conditional_example) 2 (get_parent write_C) [guard; body]
  ∧ (length [guard; body] < 3)%nat
  ∧ ∃ st', apply_sent sample_to_edge 3 (ast_of conditional_example) write_C in_inner_loop
           = Done (true, st')
      ∧ added_reports in_inner_loop st'
        = [mk_report GM_ERROR_GPS_EDGE_WRITE_CONDITIONAL 4 27 None]
      ∧ is_error st' = true.
Proof.
  assert (edge_prop_target write_C = Some (field id_e sym_C "C" 4 27)) as Htarget
    by reflexivity.
  assert (defined_inner (id_e 4 27) in_inner_loop = true) as Hdef
    by (vm_compute; reflexivity).
  assert (inner_loop in_inner_loop = Some 2%nat) as Hloop by reflexivity.
  assert (parent_chain (ast_of conditional_example) 2 (get_parent write_C) [guard; body])
    as Hchain.
  { apply (parent_chain_up _ _ 11%nat guard [body]);
      [lia|vm_compute; reflexivity|].
    apply (parent_chain_up _ _ 3%nat body []); [lia|vm_compute; reflexivity|].
    apply parent_chain_loop. }
  assert (length [guard; body] < 3)%nat as Hfuel by (simpl; lia).
  repeat (split; [assumption|]).
  destruct (conditional_write_reported_iff sample_to_edge 3 (ast_of conditional_example)
              write_C (field id_e sym_C "C" 4 27) in_inner_loop 2 [guard; body]
              Htarget Hdef Hloop Hchain Hfuel)
    as (st' & Happly & Hyes & _).
  exists st'. split; [exact Happly|]. apply Hyes.
  apply Exists_cons_hd. left. reflexivity.
Defined.

(** C4 on [f.A], read through the unmarked edge [f]. *)
Lemma random_read_is_reported_witness :
  edge_prop_read read_fA = Some (field id_f sym_A "A" 4 21)
  ∧ defined_inner (id_f 4 21) in_inner_loop = false
  ∧ ∃ st', apply_expr sample_scope_in sample_scope_random read_fA in_inner_loop
           = Done (true, st')
      ∧ reports_of GM_ERROR_GPS_EDGE_READ_RANDOM (added_reports in_inner_loop st')
        = [mk_report GM_ERROR_GPS_EDGE_READ_RANDOM 4 21 None]
      ∧ is_error st' = true
      ∧ info st' = info in_inner_loop.
Proof.
  assert (edge_prop_read read_fA = Some (field id_f sym_A "A" 4 21)) as Hread
    by reflexivity.
  assert (defined_inner (id_f 4 21) in_inner_loop = false) as Hdef
    by (vm_compute; reflexivity).
  split; [exact Hread|]. split; [exact Hdef|].
  exact (random_read_is_reported sample_scope_in sample_scope_random read_fA
           (field id_f sym_A "A" 4 21) in_inner_loop Hread Hdef).
Defined.

(** C5 on [s.Y] inside the right-hand side of [e.B = s.Y]: the flag is
    set, the expression is a field, and nothing is reported. *)
Lemma write_rhs_is_never_reported_witness :
  sample_scope_in ≠ 0 ∧ sample_scope_in ≠ 1
  ∧ sample_scope_random ≠ 0 ∧ sample_scope_random ≠ 1
  ∧ target_is_edge_prop in_write_rhs = true
  ∧ expr_class read_sY' = EXPR_FIELD (field id_s sym_Y "Y" 4 19)
  ∧ ∃ st', step sample_scope_in sample_scope_random sample_to_edge 0 ∅
             (VisitExpr read_sY') in_write_rhs = Done (true, st')
      ∧ reports_of GM_ERROR_GPS_EDGE_WRITE_RHS (added_reports in_write_rhs st') = [].
Proof.
  assert (sample_scope_in ≠ 0) as Hin0 by discriminate.
  assert (sample_scope_in ≠ 1) as Hin1 by discriminate.
  assert (sample_scope_random ≠ 0) as Hrnd0 by discriminate.
  assert (sample_scope_random ≠ 1) as Hrnd1 by discriminate.
  repeat (split; [assumption || reflexivity|]).
  exact (proj1 (write_rhs_is_never_reported sample_scope_in sample_scope_random
                  sample_to_edge 0 ∅ Hin0 Hin1 Hrnd0 Hrnd1)
           read_sY' in_write_rhs 2%nat eq_refl).
Defined.

(** C6 on the procedure that declares [e] inside the inner loop. *)
Lemma defined_inner_iff_declared_in_inner_loop_witness :
  ∃ st, run sample_scope_in sample_scope_random sample_to_edge 8
          (ast_of declared_inside_example) (visits declared_inside_example)
          (init_state inner_flagged) = Done st
    ∧ (find_info_bool 103 GPS_FLAG_EDGE_DEFINED_INNER (info st) = true ↔
       find_info_bool 103 GPS_FLAG_EDGE_DEFINED_INNER (info (init_state inner_flagged))
       = true
       ∨ ∃ e loop, sym_addr e = 103%nat ∧ is_edge (getType e) = true
           ∧ declared_in_inner_loop sample_scope_in sample_scope_random sample_to_edge 8
               (ast_of declared_inside_example) (init_state inner_flagged)
               (visits declared_inside_example) e loop).
Proof.
  assert (∃ st, run sample_scope_in sample_scope_random sample_to_edge 8
                  (ast_of declared_inside_example) (visits declared_inside_example)
                  (init_state inner_flagged) = Done st)
    as [st Hrun] by (vm_compute; eexists; reflexivity).
  exists st. split; [exact Hrun|].
  exact (proj1 (defined_inner_iff_declared_in_inner_loop sample_scope_in
                  sample_scope_random sample_to_edge 8 (ast_of declared_inside_example)
                  (visits declared_inside_example) (init_state inner_flagged) st Hrun)
           103%nat).
Defined.

(** C7 on the header listing, which fails with one diagnostic. *)
Lemma pass_ok_iff_nothing_reported_witness :
  ∃ st, process sample_scope_in sample_scope_random sample_to_edge
          header_example inner_flagged = Done (false, st)
    ∧ (false = true ↔ reported st = [])
    ∧ run sample_scope_in sample_scope_random sample_to_edge
        (S (length (sents_of header_example))) (ast_of header_example)
        (visits header_example) (init_state inner_flagged) = Done st.
Proof.
  assert (∃ st, process sample_scope_in sample_scope_random sample_to_edge
                  header_example inner_flagged = Done (false, st))
    as [st Hpass] by (vm_compute; eexists; reflexivity).
  exists st. split; [exact Hpass|].
  destruct (pass_ok_iff_nothing_reported sample_scope_in sample_scope_random
              sample_to_edge header_example inner_flagged false st Hpass)
    as (Hok & Hrun & _).
  split; [exact Hok|exact Hrun].
Defined.

(** C8 on the entry of the loop over [s]. *)
Lemma inner_loop_set_and_cleared_witness :
  ∃ st', step sample_scope_in sample_scope_random sample_to_edge 0 ∅
           (VisitSent loop_s) (init_state inner_flagged) = Done (true, st')
    ∧ inner_loop st' = Some 2%nat
    ∧ inner_iter st' = Some 102%nat.
Proof.
  assert (∃ st', step sample_scope_in sample_scope_random sample_to_edge 0 ∅
                   (VisitSent loop_s) (init_state inner_flagged) = Done (true, st'))
    as [st' Hstep] by (vm_compute; eexists; reflexivity).
  assert (find_info_bool (sent_addr loop_s) GPS_FLAG_IS_INNER_LOOP
            (info (init_state inner_flagged)) = true) as Hflag
    by (vm_compute; reflexivity).
  exists st'. split; [exact Hstep|].
  destruct (proj2 (proj2 (inner_loop_set_and_cleared sample_scope_in
                            sample_scope_random sample_to_edge 0 ∅ (VisitSent loop_s)
                            (init_state inner_flagged)))
              true st' Hstep)
    as (Hset & _).
  exact (Hset loop_s (id_s 2 11) eq_refl eq_refl Hflag).
Defined.

(** C9 on [e.C = 10] under the if: the walk ends, the write is recorded
    and the handler returns. *)
Lemma writing_is_never_an_error_witness :
  defined_inner (id_e 4 27) in_inner_loop = true
  ∧ check_conditional 3 (ast_of conditional_example) (Some 2%nat) (get_parent write_C)
    = Done true
  ∧ ∃ st', apply_sent sample_to_edge 3 (ast_of conditional_example) write_C in_inner_loop
           = Done (true, st').
Proof.
  assert (defined_inner (id_e 4 27) in_inner_loop = true) as Hdef
    by (vm_compute; reflexivity).
  assert (check_conditional 3 (ast_of conditional_example) (Some 2%nat)
            (get_parent write_C) = Done true) as Hwalk by (vm_compute; reflexivity).
  split; [exact Hdef|]. split; [exact Hwalk|].
  exact (proj2 (writing_is_never_an_error sample_to_edge) 3%nat
           (ast_of conditional_example) write_C (field id_e sym_C "C" 4 27)
           in_inner_loop 2%nat true eq_refl Hdef eq_refl Hwalk).
Defined.

(** C10 on [e.A = n.Y] met before [e] is marked. *)
Lemma unmarked_edge_prop_write_is_ignored_witness :
  edge_prop_target write_A = Some (field id_e sym_A "A" 4 13)
  ∧ defined_inner (id_e 4 13) (init_state inner_flagged) = false
  ∧ apply_sent sample_to_edge 0 ∅ write_A (init_state inner_flagged)
    = Done (true, init_state inner_flagged).
Proof.
  assert (edge_prop_target write_A = Some (field id_e sym_A "A" 4 13)) as Htarget
    by reflexivity.
  assert (defined_inner (id_e 4 13) (init_state inner_flagged) = false) as Hdef
    by (vm_compute; reflexivity).
  split; [exact Htarget|]. split; [exact Hdef|].
  exact (unmarked_edge_prop_write_is_ignored sample_to_edge 0 ∅ write_A
           (field id_e sym_A "A" 4 13) (init_state inner_flagged) Htarget Hdef).
Defined.

(** C6, as the edge-binding rule words it, fails in both directions.
    An edge variable declared inside the inner loop and bound to another
    edge variable gets the mark, and its loop the defines-edge-variable
    mark, without any iterator-to-edge conversion; an edge variable
    declared at the top of the procedure and bound by the conversion
    inside the inner loop gets no mark, and neither does the loop. *)
Lemma defined_inner_mark_ignores_binding :
  (∃ st, process sample_scope_in sample_scope_random sample_to_edge
           declared_inside_example inner_flagged = Done (true, st)
     ∧ find_info_bool 103 GPS_FLAG_EDGE_DEFINED_INNER (info st) = true
     ∧ find_info_bool 2 GPS_FLAG_EDGE_DEFINING_INNER (info st) = true
     ∧ ¬ bound_by_inner_to_edge_conversion sample_to_edge
           declared_inside_example inner_flagged 103)
  ∧ (∃ st, process sample_scope_in sample_scope_random sample_to_edge
             declared_outside_example inner_flagged = Done (true, st)
       ∧ find_info_bool 103 GPS_FLAG_EDGE_DEFINED_INNER (info st) = false
       ∧ find_info_bool 2 GPS_FLAG_EDGE_DEFINING_INNER (info st) = false
       ∧ bound_by_inner_to_edge_conversion sample_to_edge
           declared_outside_example inner_flagged 103).
Proof.
  split.
  - assert (∃ st, process sample_scope_in sample_scope_random sample_to_edge
                    declared_inside_example inner_flagged = Done (true, st)
              ∧ find_info_bool 103 GPS_FLAG_EDGE_DEFINED_INNER (info st) = true
              ∧ find_info_bool 2 GPS_FLAG_EDGE_DEFINING_INNER (info st) = true)
      as (st & Hpass & Hsym & Hloop)
      by (vm_compute; eexists; repeat split; vm_compute; reflexivity).
    exists st. repeat (split; [assumption|]).
    intros (s & Hbinds & Hconv & _).
    assert (binding_sents declared_inside_example 103 = [bind_e_to_f]) as Hone
      by (vm_compute; reflexivity).
    rewrite Hone in Hbinds. injection Hbinds as <-. discriminate Hconv.
  - assert (∃ st, process sample_scope_in sample_scope_random sample_to_edge
                    declared_outside_example inner_flagged = Done (true, st)
              ∧ find_info_bool 103 GPS_FLAG_EDGE_DEFINED_INNER (info st) = false
              ∧ find_info_bool 2 GPS_FLAG_EDGE_DEFINING_INNER (info st) = false)
      as (st & Hpass & Hsym & Hloop)
      by (vm_compute; eexists; repeat split; vm_compute; reflexivity).
    exists st. repeat (split; [assumption|]).
    exists bind_e. split; [vm_compute; reflexivity|]. split; [reflexivity|].
    assert (inner_sents inner_flagged false declared_outside_example = [body; bind_e])
      as -> by (vm_compute; reflexivity).
    apply list_elem_of_In. simpl. right. left. reflexivity.
Qed.

(** * Instances of the further properties *)

(** X1 on the accesses of the header listing: [B] ends in [ERROR], and
    its events contain send, write, send. *)
Lemma error_iff_send_write_send_witness :
  find_info_map_value 2 GPS_MAP_EDGE_PROP_ACCESS 105 empty_store = None
  ∧ ∃ st', manage_trace header_accesses empty_store = Done st'
      ∧ (find_info_map_value 2 GPS_MAP_EDGE_PROP_ACCESS 105 st'
         = Some GPS_ENUM_EDGE_VALUE_ERROR
         ↔ [send; write; send] `sublist_of` events_of 2 105 header_accesses).
Proof.
  split; [reflexivity|].
  apply (error_iff_send_write_send 2 105 header_accesses empty_store).
  reflexivity.
Defined.

(** X2 on the same accesses: [A] is written, sent and written, which is
    [SENT_WRITE]. *)
Lemma legal_states_meaning_witness :
  find_info_map_value 2 GPS_MAP_EDGE_PROP_ACCESS 104 empty_store = None
  ∧ ∃ st', manage_trace header_accesses empty_store = Done st'
      ∧ (find_info_map_value 2 GPS_MAP_EDGE_PROP_ACCESS 104 st'
         = Some GPS_ENUM_EDGE_VALUE_SENT_WRITE
         ↔ [send; write] `sublist_of` events_of 2 104 header_accesses
           ∧ ¬ [send; write; send] `sublist_of` events_of 2 104 header_accesses).
Proof.
  split; [reflexivity|].
  destruct (legal_states_meaning 2 104 header_accesses empty_store eq_refl)
    as (st' & Hrun & _ & _ & _ & _ & Hsw).
  exists st'. split; [exact Hrun|exact Hsw].
Defined.

(** X3 on the callbacks of the header listing and the property [B]. *)
Lemma run_error_iff_send_write_send_witness :
  ∃ st', run sample_scope_in sample_scope_random sample_to_edge 12
           (ast_of header_example) (visits header_example) (init_state inner_flagged)
         = Done st'
    ∧ access_state 2 105 (init_state inner_flagged) = None
    ∧ (access_state 2 105 st' = Some GPS_ENUM_EDGE_VALUE_ERROR
       ↔ [send; write; send]
         `sublist_of` events_of 2 105
                        (trace_of sample_scope_in sample_scope_random sample_to_edge 12
                           (ast_of header_example) (visits header_example)
                           (init_state inner_flagged))).
Proof.
  assert (∃ st', run sample_scope_in sample_scope_random sample_to_edge 12
                   (ast_of header_example) (visits header_example)
                   (init_state inner_flagged) = Done st')
    as [st' Hrun] by (vm_compute; eexists; reflexivity).
  assert (access_state 2 105 (init_state inner_flagged) = None) as Hnone
    by (vm_compute; reflexivity).
  exists st'. split; [exact Hrun|]. split; [exact Hnone|].
  exact (proj2 (run_error_iff_send_write_send sample_scope_in sample_scope_random
                  sample_to_edge 12 (ast_of header_example) 2 105
                  (visits header_example) (init_state inner_flagged) st' Hrun Hnone)).
Defined.

(** X4 on the header listing: one two-versions diagnostic, for one pair. *)
Lemma send_versions_once_per_pair_witness :
  ∃ st', run sample_scope_in sample_scope_random sample_to_edge 12
           (ast_of header_example) (visits header_example) (init_state inner_flagged)
         = Done st'
    ∧ length (reports_of GM_ERROR_GPS_EDGE_SEND_VERSIONS
                (added_reports (init_state inner_flagged) st'))
      = length (error_row_pairs sample_scope_in sample_scope_random sample_to_edge 12
                  (ast_of header_example) (visits header_example)
                  (init_state inner_flagged))
    ∧ NoDup (error_row_pairs sample_scope_in sample_scope_random sample_to_edge 12
               (ast_of header_example) (visits header_example)
               (init_state inner_flagged)).
Proof.
  assert (∃ st', run sample_scope_in sample_scope_random sample_to_edge 12
                   (ast_of header_example) (visits header_example)
                   (init_state inner_flagged) = Done st')
    as [st' Hrun] by (vm_compute; eexists; reflexivity).
  exists st'. split; [exact Hrun|].
  destruct (send_versions_once_per_pair sample_scope_in sample_scope_random
              sample_to_edge 12 (ast_of header_example) (visits header_example)
              (init_state inner_flagged) st' Hrun) as (Hlen & Hnodup & _).
  split; [exact Hlen|exact Hnodup].
Defined.

(** X5 on the listing without its last line: the three writes of the
    inner loop are listed in order. *)
Lemma write_list_records_writes_witness :
  ∃ st', run sample_scope_in sample_scope_random sample_to_edge 12
           (ast_of legal_example) (visits legal_example) (init_state inner_flagged)
         = Done st'
    ∧ find_info_list 2 GPS_LIST_EDGE_PROP_WRITE (info st')
      = find_info_list 2 GPS_LIST_EDGE_PROP_WRITE (info (init_state inner_flagged))
        ++ (filter (λ p, p.1 = 2%nat)
              (recorded_writes sample_scope_in sample_scope_random sample_to_edge 12
                 (ast_of legal_example) (visits legal_example)
                 (init_state inner_flagged))).*2.
Proof.
  assert (∃ st', run sample_scope_in sample_scope_random sample_to_edge 12
                   (ast_of legal_example) (visits legal_example)
                   (init_state inner_flagged) = Done st')
    as [st' Hrun] by (vm_compute; eexists; reflexivity).
  exists st'. split; [exact Hrun|].
  exact (write_list_records_writes sample_scope_in sample_scope_random sample_to_edge 12
           (ast_of legal_example) 2 (visits legal_example) (init_state inner_flagged)
           st' Hrun).
Defined.

(** X6 on [Edge(g) e = s.toEdge();] met with [e] marked. *)
Lemma defining_write_flag_iff_witness :
  ∃ st', step sample_scope_in sample_scope_random sample_to_edge 0 ∅
           (VisitSent bind_e) in_inner_loop = Done (true, st')
    ∧ defining_write sample_to_edge bind_e in_inner_loop = true
    ∧ find_info_bool 4 GPS_FLAG_EDGE_DEFINING_WRITE (info st') = true.
Proof.
  assert (∃ st', step sample_scope_in sample_scope_random sample_to_edge 0 ∅
                   (VisitSent bind_e) in_inner_loop = Done (true, st'))
    as [st' Hstep] by (vm_compute; eexists; reflexivity).
  assert (defining_write sample_to_edge bind_e in_inner_loop = true) as Hdw
    by (vm_compute; reflexivity).
  exists st'. split; [exact Hstep|]. split; [exact Hdw|].
  apply (proj2 (defining_write_flag_iff sample_scope_in sample_scope_random
                  sample_to_edge 0 ∅ (VisitSent bind_e) in_inner_loop true st' 4%nat
                  Hstep)).
  right. exists bind_e. split; [reflexivity|]. split; [reflexivity|exact Hdw].
Defined.

(** X7 on the header listing. *)
Lemma run_only_adds_witness :
  ∃ st', run sample_scope_in sample_scope_random sample_to_edge 12
           (ast_of header_example) (visits header_example) (init_state inner_flagged)
         = Done st'
    ∧ store_grows (info (init_state inner_flagged)) (info st')
    ∧ reported (init_state inner_flagged) `prefix_of` reported st'.
Proof.
  assert (∃ st', run sample_scope_in sample_scope_random sample_to_edge 12
                   (ast_of header_example) (visits header_example)
                   (init_state inner_flagged) = Done st')
    as [st' Hrun] by (vm_compute; eexists; reflexivity).
  exists st'. split; [exact Hrun|].
  destruct (run_only_adds sample_scope_in sample_scope_random sample_to_edge 12
              (ast_of header_example) (visits header_example)
              (init_state inner_flagged) st' Hrun) as (Hgrows & Hprefix & _).
  split; [exact Hgrows|exact Hprefix].
Defined.

(** X8 on the procedure that reads [f.A], with no loop flagged. *)
Lemma without_inner_loop_only_random_reads_witness :
  no_inner_loop (init_state empty_store)
  ∧ ∃ st', run sample_scope_in sample_scope_random sample_to_edge 0 ∅
             (visits random_read_example) (init_state empty_store) = Done st'
      ∧ info st' = empty_store
      ∧ reported st' = [mk_report GM_ERROR_GPS_EDGE_READ_RANDOM 4 21 None].
Proof.
  assert (no_inner_loop (init_state empty_store)) as Hno.
  { split; [reflexivity|]. split; [reflexivity|]. split; intros x; reflexivity. }
  split; [exact Hno|].
  destruct (without_inner_loop_only_random_reads sample_scope_in sample_scope_random
              sample_to_edge 0 ∅ (visits random_read_example) (init_state empty_store) Hno)
    as (st' & Hrun & Hinfo & Hrep & _).
  exists st'. split; [exact Hrun|]. split; [exact Hinfo|exact Hrep].
Defined.

(** X10 on the loop over [s], itself flagged, met while the flagged loop
    over [n] is current: afterwards no loop is current. *)
Lemma subtree_leaves_inner_loop_witness :
  ∃ st', run sample_scope_in sample_scope_random sample_to_edge 0 ∅
           (visits loop_s_tree) in_outer_loop = Done st'
    ∧ inner_loop in_outer_loop = Some 1%nat
    ∧ flagged_foreach loop_s_tree in_outer_loop
    ∧ inner_loop st' = None
    ∧ inner_iter st' = None.
Proof.
  assert (∃ st', run sample_scope_in sample_scope_random sample_to_edge 0 ∅
                   (visits loop_s_tree) in_outer_loop = Done st')
    as [st' Hrun] by (vm_compute; eexists; reflexivity).
  assert (flagged_foreach loop_s_tree in_outer_loop) as Hflag
    by (split; [reflexivity|vm_compute; reflexivity]).
  exists st'. split; [exact Hrun|]. split; [reflexivity|]. split; [exact Hflag|].
  exact (proj2 (subtree_leaves_inner_loop sample_scope_in sample_scope_random
                  sample_to_edge 0 ∅ loop_s_tree in_outer_loop st' Hrun) Hflag).
Defined.

(** X12 on the header listing: its diagnostic stands at the last read of
    [e.B]. *)
Lemma diagnostics_come_from_visits_witness :
  ∃ st', run sample_scope_in sample_scope_random sample_to_edge 12
           (ast_of header_example) (visits header_example) (init_state inner_flagged)
         = Done st'
    ∧ added_reports (init_state inner_flagged) st'
      = [mk_report GM_ERROR_GPS_EDGE_SEND_VERSIONS 8 20 (Some "e")]
    ∧ ∃ v, v ∈ visits header_example
        ∧ reports_at v (mk_report GM_ERROR_GPS_EDGE_SEND_VERSIONS 8 20 (Some "e")).
Proof.
  assert (∃ st', run sample_scope_in sample_scope_random sample_to_edge 12
                   (ast_of header_example) (visits header_example)
                   (init_state inner_flagged) = Done st'
            ∧ added_reports (init_state inner_flagged) st'
              = [mk_report GM_ERROR_GPS_EDGE_SEND_VERSIONS 8 20 (Some "e")])
    as (st' & Hrun & Hadded)
    by (vm_compute; eexists; split; reflexivity).
  exists st'. split; [exact Hrun|]. split; [exact Hadded|].
  apply (diagnostics_come_from_visits sample_scope_in sample_scope_random sample_to_edge
           12 (ast_of header_example) (visits header_example)
           (init_state inner_flagged) st' _ Hrun).
  rewrite Hadded. apply list_elem_of_singleton. reflexivity.
Defined.

(** X13 on the header listing and the property [B]. *)
Lemma send_write_send_is_rejected_witness :
  ∃ st', run sample_scope_in sample_scope_random sample_to_edge 12
           (ast_of header_example) (visits header_example) (init_state inner_flagged)
         = Done st'
    ∧ access_state 2 105 (init_state inner_flagged) = None
    ∧ events_of 2 105
        (trace_of sample_scope_in sample_scope_random sample_to_edge 12
           (ast_of header_example) (visits header_example) (init_state inner_flagged))
      = [send; write; send]
    ∧ is_error st' = true
    ∧ ∃ r, r ∈ added_reports (init_state inner_flagged) st'
        ∧ rep_code r = GM_ERROR_GPS_EDGE_SEND_VERSIONS.
Proof.
  assert (∃ st', run sample_scope_in sample_scope_random sample_to_edge 12
                   (ast_of header_example) (visits header_example)
                   (init_state inner_flagged) = Done st')
    as [st' Hrun] by (vm_compute; eexists; reflexivity).
  assert (access_state 2 105 (init_state inner_flagged) = None) as Hnone
    by (vm_compute; reflexivity).
  assert (events_of 2 105
            (trace_of sample_scope_in sample_scope_random sample_to_edge 12
               (ast_of header_example) (visits header_example)
               (init_state inner_flagged))
          = [send; write; send]) as Hevents by (vm_compute; reflexivity).
  exists st'. split; [exact Hrun|]. split; [exact Hnone|]. split; [exact Hevents|].
  apply (send_write_send_is_rejected sample_scope_in sample_scope_random sample_to_edge
           12 (ast_of header_example) 2 105 (visits header_example)
           (init_state inner_flagged) st' Hrun Hnone).
  rewrite Hevents. reflexivity.
Defined.
